(** * Omega Tanks: the interpreter, the world primitives and the enemy policy

    A shallow embedding of [src/omega/src/interpreter/interpreter.ts],
    [src/omega/src/enemy/enemy.ts], the helpers of [util] ([DIRS], [clamp],
    [inBounds]) and the world constructor and the round of the driver of
    [src/omega/src/world/world.ts].

    Conventions of the embedding.
    - Tank coordinates, facing and health are JavaScript numbers that only
      ever hold small integers; they are embedded as [Z].  [Math.sign],
      [Math.abs], [Math.max] and [Math.min] are [Z.sgn], [Z.abs], [Z.max]
      and [Z.min] there, and [%] is the truncating [Z.rem].
    - Values of Omega expressions are IEEE-754 doubles ([spec_float]).
    - A JavaScript call either returns, throws or never returns: [outcome].
    - An object used as a dictionary ([Record<string, T>]) is a plain
      object: a [gmap] holds the properties of its own, and a name that is
      not among them is looked up in [Object.prototype] ([inherited]), as
      ECMAScript 2023 with its Annex B defines it.
    - [Runtime], [Frame.t] and [Program] hold what the types of
      [interpreter.ts] declare: numbers as variables, statement lists as
      bodies.  A call that returns with something else in them (a built-in
      function stored as a variable, or as the body of a frame that would
      read its elements; the prototype of a dictionary replaced) has the
      fourth outcome, [Escapes]; [stepProgram_escapes] says when.
    - A string is a sequence of code units below 256. *)

From Stdlib Require Import ZArith String Ascii List Lia Bool SpecFloat.
From stdpp Require Import base gmap strings list.
Import ListNotations.

Open Scope string_scope.
Open Scope Z_scope.

(** ** Outcomes of a call *)

Inductive outcome (A : Type) : Type :=
| Returns (a : A)
| Throws
| Diverges
| Escapes.

Arguments Returns {A} a.
Arguments Throws {A}.
Arguments Diverges {A}.
Arguments Escapes {A}.

Definition bind {A B : Type} (o : outcome A) (f : A -> outcome B) : outcome B :=
  match o with
  | Returns a => f a
  | Throws => Throws
  | Diverges => Diverges
  | Escapes => Escapes
  end.

Notation "'call' x := o 'in' k" := (bind o (fun x => k))
  (at level 10, x pattern, o at level 100, k at level 200,
   format "'[' 'call'  x  :=  o  'in' ']' '/' k").

(** ** JavaScript strings

    Code units are [ascii] characters; the tests below are the ones of
    ECMAScript restricted to code units below 256. *)

Definition code (c : ascii) : N := N_of_ascii c.

Definition inRange (lo hi c : ascii) : bool :=
  (code lo <=? code c)%N && (code c <=? code hi)%N.

Definition isDigit (c : ascii) : bool := inRange "0" "9" c.
Definition isUpper (c : ascii) : bool := inRange "A" "Z" c.
Definition isLower (c : ascii) : bool := inRange "a" "z" c.
Definition isAlpha (c : ascii) : bool := isUpper c || isLower c.

(** [[A-Za-z_]] and [[A-Za-z0-9_]] (the latter is also [\w]). *)
Definition isIdentStart (c : ascii) : bool := isAlpha c || (c =? "_")%char.
Definition isWordChar (c : ascii) : bool :=
  isAlpha c || isDigit c || (c =? "_")%char.

(** Line terminators: LF and CR. *)
Definition isLineTerminator (c : ascii) : bool :=
  (code c =? 10)%N || (code c =? 13)%N.

(** [\s], also what [trim] strips: TAB, LF, VT, FF, CR, SP, NBSP. *)
Definition isSpace (c : ascii) : bool :=
  (code c =? 9)%N || (code c =? 10)%N || (code c =? 11)%N
  || (code c =? 12)%N || (code c =? 13)%N || (code c =? 32)%N
  || (code c =? 160)%N.

Definition toUpperChar (c : ascii) : ascii :=
  if isLower c then ascii_of_N (code c - 32) else c.

(** [s.toUpperCase()] on ASCII letters; the interpreter applies it to a
    capture made of ASCII letters only. *)
Fixpoint toUpperCase (s : string) : string :=
  match s with
  | EmptyString => EmptyString
  | String c s' => String (toUpperChar c) (toUpperCase s')
  end.

Fixpoint trimStart (s : string) : string :=
  match s with
  | EmptyString => EmptyString
  | String c s' => if isSpace c then trimStart s' else s
  end.

(** [trimEnd] keeps a character when it is not a space or when something
    is kept after it. *)
Fixpoint trimEnd (s : string) : string :=
  match s with
  | EmptyString => EmptyString
  | String c s' =>
      match trimEnd s' with
      | EmptyString => if isSpace c then EmptyString else String c EmptyString
      | t => String c t
      end
  end.

Definition trim (s : string) : string := trimEnd (trimStart s).

(** [s.split(sep)] for a one-character separator. *)
Fixpoint splitOn (sep : ascii) (cur : string) (s : string) : list string :=
  match s with
  | EmptyString => [cur]
  | String c s' =>
      if (c =? sep)%char then cur :: splitOn sep EmptyString s'
      else splitOn sep (cur +:+ String c EmptyString) s'
  end.

Definition split (s : string) (sep : ascii) : list string :=
  splitOn sep EmptyString s.

Definition LF : ascii := ascii_of_N 10.

(** [s.split(/\n+/)]: a maximal run of line feeds is one separator;
    [skipping] holds while such a run is being read. *)
Fixpoint splitLFRuns (skipping : bool) (cur : string) (s : string)
  : list string :=
  match s with
  | EmptyString => [cur]
  | String c s' =>
      if (c =? LF)%char then
        if skipping then splitLFRuns true cur s'
        else cur :: splitLFRuns true EmptyString s'
      else splitLFRuns false (cur +:+ String c EmptyString) s'
  end.

Definition splitLines (s : string) : list string :=
  splitLFRuns false EmptyString s.

(** [parts.join(sep)]. *)
Fixpoint join (sep : string) (parts : list string) : string :=
  match parts with
  | [] => EmptyString
  | [p] => p
  | p :: rest => p +:+ sep +:+ join sep rest
  end.

(** [Boolean(s)] for a string: non-empty. *)
Definition nonEmpty (s : string) : bool :=
  match s with EmptyString => false | _ => true end.

Fixpoint endsWithChar (s : string) (c : ascii) : bool :=
  match s with
  | EmptyString => false
  | String d EmptyString => (d =? c)%char
  | String _ s' => endsWithChar s' c
  end.

(** [s.slice(1)]. *)
Definition slice1 (s : string) : string :=
  match s with EmptyString => EmptyString | String _ s' => s' end.

(** ** Regular expressions

    A backtracking matcher with the priorities of ECMAScript: the left
    alternative first, a greedy star tries one more iteration first and a lazy
    one tries to stop first, an iteration that consumes nothing is rejected. *)

Inductive regex : Type :=
| Chr (p : ascii -> bool)
| Empty
| Seq (r1 r2 : regex)
| Alt (r1 r2 : regex)
| Star (greedy : bool) (r : regex)
| Group (n : nat) (r : regex)
| Bol
| Eol
| WordB.

Record mstate : Type := mkMstate {
  pos : nat;
  prev : option ascii;
  rest : string;
  caps : list (nat * string)
}.

Definition orElse {A : Type} (a b : option A) : option A :=
  match a with Some _ => a | None => b end.

Definition isWordOpt (c : option ascii) : bool :=
  match c with Some d => isWordChar d | None => false end.

Definition nextChar (st : mstate) : option ascii :=
  match rest st with EmptyString => None | String c _ => Some c end.

Definition matcher : Type :=
  mstate -> (mstate -> option mstate) -> option mstate.

Fixpoint starLoop (greedy : bool) (iter : matcher) (fuel : nat)
  (st : mstate) (k : mstate -> option mstate) : option mstate :=
  match fuel with
  | O => k st
  | S fuel' =>
      let more :=
        iter st (fun st' =>
          if (pos st <? pos st')%nat then starLoop greedy iter fuel' st' k
          else None) in
      if greedy then orElse more (k st) else orElse (k st) more
  end.

Fixpoint rmatch (r : regex) : matcher :=
  fun st k =>
  match r with
  | Chr p =>
      match rest st with
      | EmptyString => None
      | String c s' =>
          if p c then
            k {| pos := S (pos st); prev := Some c; rest := s';
                 caps := caps st |}
          else None
      end
  | Empty => k st
  | Seq r1 r2 => rmatch r1 st (fun st1 => rmatch r2 st1 k)
  | Alt r1 r2 => orElse (rmatch r1 st k) (rmatch r2 st k)
  | Star greedy r1 =>
      starLoop greedy (rmatch r1) (S (String.length (rest st))) st k
  | Group n r1 =>
      rmatch r1 st (fun st1 =>
        k {| pos := pos st1; prev := prev st1; rest := rest st1;
             caps := (n, substring 0 (pos st1 - pos st) (rest st))
                       :: caps st1 |})
  | Bol => match prev st with None => k st | Some _ => None end
  | Eol => match rest st with EmptyString => k st | _ => None end
  | WordB =>
      if xorb (isWordOpt (prev st)) (isWordOpt (nextChar st)) then k st
      else None
  end.

(** The leftmost match: the start position and the final state. *)
Fixpoint searchFrom (r : regex) (p : nat) (pv : option ascii) (s : string)
  : option (nat * mstate) :=
  match rmatch r {| pos := p; prev := pv; rest := s; caps := [] |} Some with
  | Some st => Some (p, st)
  | None =>
      match s with
      | EmptyString => None
      | String c s' => searchFrom r (S p) (Some c) s'
      end
  end.

Definition exec (r : regex) (s : string) : option (nat * mstate) :=
  searchFrom r 0 None s.

(** [r.test(s)]. *)
Definition test (r : regex) (s : string) : bool :=
  match exec r s with Some _ => true | None => false end.

(** [s.match(r)] without the [g] flag: the captures, [None] for [null]. *)
Definition matchRe (r : regex) (s : string) : option (list (nat * string)) :=
  match exec r s with Some (_, st) => Some (caps st) | None => None end.

(** [m[n]]: [None] stands for [undefined]. *)
Fixpoint capture (n : nat) (m : list (nat * string)) : option string :=
  match m with
  | [] => None
  | (i, s) :: m' => if (i =? n)%nat then Some s else capture n m'
  end.

(** [s.replace(r, "")] without the [g] flag. *)
Definition removeFirst (r : regex) (s : string) : string :=
  match exec r s with
  | Some (p, st) => substring 0 p s +:+ rest st
  | None => s
  end.

(** Pattern syntax. *)
Definition chr (c : ascii) : regex := Chr (fun d => (d =? c)%char).
Definition chrI (c : ascii) : regex :=
  Chr (fun d => (toUpperChar d =? toUpperChar c)%char).
Definition dot : regex := Chr (fun d => negb (isLineTerminator d)).
Definition anyChar : regex := Chr (fun _ => true).
Definition space : regex := Chr isSpace.
Definition plus (r : regex) : regex := Seq r (Star true r).
Definition plusLazy (r : regex) : regex := Seq r (Star false r).
Definition opt (r : regex) : regex := Alt r Empty.

Fixpoint seqs (rs : list regex) : regex :=
  match rs with
  | [] => Empty
  | [r] => r
  | r :: rs' => Seq r (seqs rs')
  end.

Fixpoint alts (rs : list regex) : regex :=
  match rs with
  | [] => Chr (fun _ => false)
  | [r] => r
  | r :: rs' => Alt r (alts rs')
  end.

(** A literal word, and the same under the [i] flag. *)
Fixpoint word (s : string) : regex :=
  match s with
  | EmptyString => Empty
  | String c EmptyString => chr c
  | String c s' => Seq (chr c) (word s')
  end.

Fixpoint wordI (s : string) : regex :=
  match s with
  | EmptyString => Empty
  | String c EmptyString => chrI c
  | String c s' => Seq (chrI c) (wordI s')
  end.

(** [[A-Za-z_][A-Za-z0-9_]*] *)
Definition identifier : regex := Seq (Chr isIdentStart) (Star true (Chr isWordChar)).
(** ** JavaScript numbers

    A number is a binary64 value.  [Number], [Math.floor], [Math.max],
    the strict comparison with zero and the conversion to a string follow
    ECMAScript; rounding is to nearest, ties to even. *)

Definition number : Type := spec_float.

Definition NaN : number := S754_nan.
Definition zero : number := S754_zero false.

(** The double nearest to [m * 2^e]. *)
Definition roundBinary (m e : Z) (negZero : bool) : number :=
  binary_normalize 53 1024 m e negZero.

Definition ofZ (z : Z) : number := roundBinary z 0 false.

(** [Number.isNaN(n)]. *)
Definition isNaN (n : number) : bool :=
  match n with S754_nan => true | _ => false end.

(** The double nearest to [+/- m * 10^e] for [0 < m].  A negative exponent
    divides with 64 spare bits and a sticky last bit, which rounds as the
    exact quotient does. *)
Definition roundDecimal (neg : bool) (m e : Z) : number :=
  let sgn := fun v : Z => if neg then - v else v in
  if 0 <=? e then roundBinary (sgn (m * 10 ^ e)) 0 neg
  else
    let d := 10 ^ (- e) in
    let k := 64 + Z.log2_up d in
    let q := (m * 2 ^ k) / d in
    let sticky := if (m * 2 ^ k) mod d =? 0 then 0 else 1 in
    roundBinary (sgn (2 * q + sticky)) (- (k + 1)) neg.

(** *** [Number(s)]: the StringNumericLiteral grammar *)

Definition digitValue (c : ascii) : Z :=
  if isDigit c then Z.of_N (code c) - 48
  else if inRange "a" "f" c then Z.of_N (code c) - 87
  else if inRange "A" "F" c then Z.of_N (code c) - 55
  else 99.

(** The value of [s] in [base] when every character is a digit of it. *)
Fixpoint digitsIn (base : Z) (acc : Z) (s : string) : option Z :=
  match s with
  | EmptyString => Some acc
  | String c s' =>
      if digitValue c <? base then digitsIn base (base * acc + digitValue c) s'
      else None
  end.

Definition digitString (base : Z) (s : string) : option Z :=
  match s with
  | EmptyString => None
  | _ => digitsIn base 0 s
  end.

(** The longest prefix of decimal digits, and what follows it. *)
Fixpoint spanDigits (s : string) : string * string :=
  match s with
  | EmptyString => (EmptyString, EmptyString)
  | String c s' =>
      if isDigit c then
        let '(ds, r) := spanDigits s' in (String c ds, r)
      else (EmptyString, s)
  end.

(** SignedInteger. *)
Definition signedInteger (s : string) : option Z :=
  match s with
  | String "+" s' => digitString 10 s'
  | String "-" s' => option_map Z.opp (digitString 10 s')
  | _ => digitString 10 s
  end.

(** ExponentPart, optional: the exponent, [None] when [s] is neither empty
    nor an exponent part. *)
Definition exponentPart (s : string) : option Z :=
  match s with
  | EmptyString => Some 0
  | String c s' =>
      if (c =? "e")%char || (c =? "E")%char then signedInteger s' else None
  end.

(** StrUnsignedDecimalLiteral other than [Infinity]: mantissa and decimal
    exponent. *)
Definition unsignedDecimal (s : string) : option (Z * Z) :=
  let '(intDigits, r1) := spanDigits s in
  let '(fracDigits, r2) :=
    match r1 with
    | String "." r => spanDigits r
    | _ => (EmptyString, r1)
    end in
  let hasDot := match r1 with String "." _ => true | _ => false end in
  if negb (nonEmpty intDigits) && negb (nonEmpty fracDigits) then None
  else if negb (nonEmpty intDigits) && negb hasDot then None
  else
    match digitsIn 10 0 (intDigits +:+ fracDigits), exponentPart r2 with
    | Some m, Some e => Some (m, e - Z.of_nat (String.length fracDigits))
    | _, _ => None
    end.

Definition strDecimalLiteral (s : string) : number :=
  let '(neg, u) :=
    match s with
    | String "+" s' => (false, s')
    | String "-" s' => (true, s')
    | _ => (false, s)
    end in
  if String.eqb u "Infinity" then S754_infinity neg
  else
    match unsignedDecimal u with
    | Some (m, e) => if m =? 0 then S754_zero neg else roundDecimal neg m e
    | None => NaN
    end.

(** NonDecimalIntegerLiteral: [0x], [0o], [0b] and their capitals. *)
Definition nonDecimalBase (s : string) : option (Z * string) :=
  match s with
  | String "0" (String c s') =>
      if (c =? "x")%char || (c =? "X")%char then Some (16, s')
      else if (c =? "o")%char || (c =? "O")%char then Some (8, s')
      else if (c =? "b")%char || (c =? "B")%char then Some (2, s')
      else None
  | _ => None
  end.

Definition Number (s : string) : number :=
  let v := trim s in
  match v with
  | EmptyString => zero
  | _ =>
      match nonDecimalBase v with
      | Some (base, ds) =>
          match digitString base ds with
          | Some z => ofZ z
          | None => NaN
          end
      | None => strDecimalLiteral v
      end
  end.

(** *** [Math.floor], [Math.max], comparison with zero *)

Definition Math_floor (n : number) : number :=
  match n with
  | S754_finite s m e =>
      if 0 <=? e then n
      else ofZ ((if s then Z.neg m else Z.pos m) / 2 ^ (- e))
  | _ => n
  end.

Definition Math_max (a b : number) : number :=
  if isNaN a || isNaN b then NaN
  else
    match SFcompare a b with
    | Some Lt => b
    | Some Gt => a
    | _ => match a with S754_zero true => b | _ => a end
    end.

(** [n !== 0]. *)
Definition nonZero (n : number) : bool :=
  match n with S754_zero _ => false | _ => true end.

(** How often the body of [for (let i = 0; i < amount; i++)] runs.  The
    counter is a double: it stops growing at [2^53], so the loop ends only
    when [amount] is at most [2^53]; [None] is a loop that never ends. *)
Definition loopCount (amount : number) : option nat :=
  match amount with
  | S754_finite false m e =>
      let up :=
        if 0 <=? e then Z.pos m * 2 ^ e
        else - ((- Z.pos m) / 2 ^ (- e)) in
      if up <=? 2 ^ 53 then Some (Z.to_nat up) else None
  | S754_infinity false => None
  | _ => Some 0%nat
  end.

(** *** Conversion to a string *)

Definition digitChar (d : Z) : ascii := ascii_of_N (Z.to_N (48 + d)).

Fixpoint showDigits (fuel : nat) (z : Z) (acc : string) : string :=
  match fuel with
  | O => acc
  | S fuel' =>
      let acc' := String (digitChar (z mod 10)) acc in
      if z <? 10 then acc' else showDigits fuel' (z / 10) acc'
  end.

(** The decimal digits of [0 <= z]. *)
Definition showNat (z : Z) : string :=
  showDigits (S (Z.to_nat (Z.log2 z))) z EmptyString.

Fixpoint zeros (n : nat) : string :=
  match n with O => EmptyString | S n' => String "0" (zeros n') end.

(** [x < 10^n] for the positive rational [num / den]. *)
Definition belowPow10 (num den n : Z) : bool :=
  if 0 <=? n then num <? 10 ^ n * den else num * 10 ^ (- n) <? den.

(** The least [n] from [lo] on with [num / den < 10^n]. *)
Fixpoint decade (fuel : nat) (num den lo : Z) : Z :=
  match fuel with
  | O => lo
  | S fuel' =>
      if belowPow10 num den lo then lo else decade fuel' num den (lo + 1)
  end.

(** [floor (num / den / 10^t)]. *)
Definition scaledFloor (num den t : Z) : Z :=
  if 0 <=? t then num / (den * 10 ^ t) else (num * 10 ^ (- t)) / den.

(** Twice the distance from [s * 10^t] to [num / den], scaled by a common
    positive factor: enough to compare candidates. *)
Definition gap (num den s t : Z) : Z :=
  if 0 <=? t then Z.abs (s * 10 ^ t * den - num)
  else Z.abs (s * den - num * 10 ^ (- t)).

(** The [k]-digit candidates [(s, n)] that read back as [v]. *)
Definition candidates (v : number) (num den n0 k : Z) : list (Z * Z) :=
  let t := n0 - k in
  let lo := scaledFloor num den t in
  let reads := fun '(s, n) =>
    match SFcompare (roundDecimal false s (n - k)) v with
    | Some Eq => (10 ^ (k - 1) <=? s) && (s <? 10 ^ k)
    | _ => false
    end in
  let up := if lo + 1 =? 10 ^ k then (10 ^ (k - 1), n0 + 1) else (lo + 1, n0) in
  List.filter reads [(lo, n0); up].

Definition closest (num den k : Z) (cs : list (Z * Z)) : option (Z * Z) :=
  match cs with
  | [] => None
  | [c] => Some c
  | (s1, n1) :: (s2, n2) :: _ =>
      let g1 := gap num den s1 (n1 - k) in
      let g2 := gap num den s2 (n2 - k) in
      if g1 <? g2 then Some (s1, n1)
      else if g2 <? g1 then Some (s2, n2)
      else if Z.even s1 then Some (s1, n1) else Some (s2, n2)
  end.

(** The shortest digits: [(s, k, n)] with [k] least. *)
Fixpoint shortest (fuel : nat) (v : number) (num den n0 k : Z)
  : Z * Z * Z :=
  match fuel with
  | O => (scaledFloor num den (n0 - k), k, n0)
  | S fuel' =>
      match closest num den k (candidates v num den n0 k) with
      | Some (s, n) => (s, k, n)
      | None => shortest fuel' v num den n0 (k + 1)
      end
  end.

Definition layout (s k n : Z) : string :=
  let ds := showNat s in
  if (k <=? n) && (n <=? 21) then ds +:+ zeros (Z.to_nat (n - k))
  else if (0 <? n) && (n <=? 21) then
    substring 0 (Z.to_nat n) ds +:+ "."
      +:+ substring (Z.to_nat n) (Z.to_nat (k - n)) ds
  else if (-6 <? n) && (n <=? 0) then "0." +:+ zeros (Z.to_nat (- n)) +:+ ds
  else
    let e := n - 1 in
    let es := (if e <? 0 then "-" else "+") +:+ showNat (Z.abs e) in
    if k =? 1 then ds +:+ "e" +:+ es
    else substring 0 1 ds +:+ "." +:+ substring 1 (Z.to_nat (k - 1)) ds
           +:+ "e" +:+ es.

(** Number::toString, radix 10. *)
Definition numberToString (v : number) : string :=
  match v with
  | S754_nan => "NaN"
  | S754_zero _ => "0"
  | S754_infinity s => if s then "-Infinity" else "Infinity"
  | S754_finite s m e =>
      let num := if 0 <=? e then Z.pos m * 2 ^ e else Z.pos m in
      let den := if 0 <=? e then 1 else 2 ^ (- e) in
      let n0 := decade 700 num den (-330) in
      let '(d, k, n) := shortest 17 (S754_finite false m e) num den n0 1 in
      (if s then "-" else "") +:+ layout d k n
  end.
(** ** Tanks and the world (tanks.ts, world.ts) *)

Record Tank : Type := mkTank { x : Z; y : Z; dir : Z; hp : Z }.

Record World : Type := mkWorld {
  player : Tank;
  enemy : Tank;
  tick : Z;
  message : string
}.

Definition GRID : Z := 20.

Definition makeInitialWorld : World :=
  {| player := {| x := 2; y := GRID - 3; dir := 0; hp := 100 |};
     enemy := {| x := GRID - 3; y := 2; dir := 2; hp := 100 |};
     tick := 0;
     message := "" |}.

Definition setPos (t : Tank) (nx ny : Z) : Tank :=
  {| x := nx; y := ny; dir := dir t; hp := hp t |}.
Definition setDir (t : Tank) (d : Z) : Tank :=
  {| x := x t; y := y t; dir := d; hp := hp t |}.
Definition setHp (t : Tank) (h : Z) : Tank :=
  {| x := x t; y := y t; dir := dir t; hp := h |}.
Definition setPlayer (w : World) (p : Tank) : World :=
  {| player := p; enemy := enemy w; tick := tick w; message := message w |}.
Definition setEnemy (w : World) (e : Tank) : World :=
  {| player := player w; enemy := e; tick := tick w; message := message w |}.
Definition setMessage (w : World) (m : string) : World :=
  {| player := player w; enemy := enemy w; tick := tick w; message := m |}.

(** ** Helpers (util) *)

(** Directions: 0=up, 1=right, 2=down, 3=left; a pair is [(dx, dy)]. *)
Definition DIRS : list (Z * Z) := [(0, -1); (1, 0); (0, 1); (-1, 0)].

(** [DIRS[i]]: [None] stands for [undefined]. *)
Definition DIRS_at (i : Z) : option (Z * Z) :=
  if i <? 0 then None else DIRS !! Z.to_nat i.

Definition clamp (v lo hi : Z) : Z := Z.max lo (Z.min hi v).

Definition inBounds (x y : Z) : bool :=
  (x >=? 0) && (x <? GRID) && (y >=? 0) && (y <? GRID).

(** ** Line of sight and combat (interpreter.ts) *)

Record Sight : Type := mkSight { seen : bool; distance : Z; dirOk : bool }.

Definition lineOfSight (a b : Tank) : Sight :=
  if x a =? x b then
    let dy := Z.sgn (y b - y a) in
    let dist := Z.abs (y b - y a) in
    let facing := (dy <? 0) && (dir a =? 0) || (dy >? 0) && (dir a =? 2) in
    {| seen := dist >? 0; distance := dist; dirOk := facing |}
  else if y a =? y b then
    let dx := Z.sgn (x b - x a) in
    let dist := Z.abs (x b - x a) in
    let facing := (dx >? 0) && (dir a =? 1) || (dx <? 0) && (dir a =? 3) in
    {| seen := dist >? 0; distance := dist; dirOk := facing |}
  else {| seen := false; distance := 999; dirOk := false |}.

Definition tankAttack (world : World) : World :=
  let los := lineOfSight (player world) (enemy world) in
  if seen los && dirOk los && (distance los <=? 3) then
    setMessage
      (setEnemy world (setHp (enemy world) (Z.max 0 (hp (enemy world) - 40))))
      "ATTACK hit! Enemy -40 HP"
  else setMessage world "ATTACK missed.".

Definition tankTurn (world : World) (side : string) : World :=
  setPlayer world
    (setDir (player world)
       (Z.rem (dir (player world) + (if String.eqb side "RIGHT" then 1 else 3)) 4)).

(** ** Omega programs and the runtime (interpreter.ts) *)

Inductive Expr : Type :=
| ENumber (value : number)
| EVar (name : string).

#[warnings="-register-all"]
Inductive Stmt : Type :=
| SAssign (name : string) (value : Expr)
| SMove (amount : Expr) (dir : string)
| STurn (dir : string)
| SScan
| SAttack
| SIf (cond : Expr) (thenStmt : Stmt) (elseStmt : option Stmt)
| SCall (name : string)
| SNoop
| SFunction (name : string) (body : list Stmt).

Record Program : Type := mkProgram {
  stmts : list Stmt;
  functions : gmap string (list Stmt)
}.

Module Frame.
Record t : Type := mk { name : string; pc : nat; body : list Stmt }.
End Frame.

(** The call stack: the head of the list is the top, [rt.stack.at(-1)]. *)
Record Runtime : Type := mkRuntime {
  pc : nat;
  stack : list Frame.t;
  vars : gmap string number;
  enemySeen : number
}.

Definition makeRuntime : Runtime :=
  {| pc := 0; stack := []; vars := ∅; enemySeen := zero |}.

Definition setPc (rt : Runtime) (n : nat) : Runtime :=
  {| pc := n; stack := stack rt; vars := vars rt; enemySeen := enemySeen rt |}.
Definition setStack (rt : Runtime) (s : list Frame.t) : Runtime :=
  {| pc := pc rt; stack := s; vars := vars rt; enemySeen := enemySeen rt |}.
Definition setEnemySeen (rt : Runtime) (v : number) : Runtime :=
  {| pc := pc rt; stack := stack rt; vars := vars rt; enemySeen := v |}.

(** *** Plain objects

    [rt.vars] and [prog.functions] are created as [{}]: the map holds the
    properties of their own, every other name is looked up in
    [Object.prototype]. *)

(** A member of [Object.prototype]: a built-in function, of which the
    interpreter can only read the [length], or, under [__proto__],
    [Object.prototype] itself. *)
Inductive member : Type :=
| Builtin (arity : nat)
| Prototype.

Definition Object_prototype : list (string * member) :=
  [("constructor", Builtin 1); ("__defineGetter__", Builtin 2);
   ("__defineSetter__", Builtin 2); ("hasOwnProperty", Builtin 1);
   ("__lookupGetter__", Builtin 1); ("__lookupSetter__", Builtin 1);
   ("isPrototypeOf", Builtin 1); ("propertyIsEnumerable", Builtin 1);
   ("toString", Builtin 0); ("valueOf", Builtin 0); ("__proto__", Prototype);
   ("toLocaleString", Builtin 0)].

(** What a name that is no property of the object itself gives. *)
Definition inherited (name : string) : option member :=
  option_map snd
    (List.find (fun e => String.eqb (fst e) name) Object_prototype).

(** What [rt.vars[name]] can be: a number, or an inherited member. *)
Inductive value : Type :=
| VNumber (n : number)
| VMember (m : member).

(** [rt.vars[name]]: [None] stands for [undefined]. *)
Definition lookupVar (rt : Runtime) (name : string) : option value :=
  match vars rt !! name with
  | Some n => Some (VNumber n)
  | None => option_map VMember (inherited name)
  end.

(** [ToNumber(v)]: a function and [Object.prototype] turn into strings that
    are no numeric literals. *)
Definition toNumber (v : value) : number :=
  match v with VNumber n => n | VMember _ => NaN end.

(** [v !== 0]. *)
Definition notZero (v : value) : bool :=
  match v with VNumber n => nonZero n | VMember _ => true end.

(** [`${v}`]: the text of a built-in function is implementation-defined. *)
Definition showValue (v : option value) : outcome string :=
  match v with
  | None => Returns "undefined"
  | Some (VNumber n) => Returns (numberToString n)
  | Some (VMember Prototype) => Returns "[object Object]"
  | Some (VMember (Builtin _)) => Escapes
  end.

(** Whether an assignment to [rt.vars[k]] calls the setter of [__proto__],
    inherited from [Object.prototype]: the name is [__proto__] and the object
    has no property of its own of that name. *)
Definition callsSetter (rt : Runtime) (k : string) : bool :=
  String.eqb k "__proto__"
  && match vars rt !! k with Some _ => false | None => true end.

(** [rt.vars[k] = v] for a number [v]: the setter ignores a number. *)
Definition setVar (rt : Runtime) (k : string) (v : number) : Runtime :=
  if callsSetter rt k then rt
  else {| pc := pc rt; stack := stack rt; vars := <[k := v]> (vars rt);
          enemySeen := enemySeen rt |}.

(** [rt.vars[k] = v].  The map holds numbers, so a member stored as a
    property escapes; the setter of [__proto__] leaves the object as it is
    when given [Object.prototype], its prototype already, and replaces the
    prototype when given a function. *)
Definition assignVar (rt : Runtime) (k : string) (v : value)
  : outcome Runtime :=
  match v with
  | VNumber n => Returns (setVar rt k n)
  | VMember m =>
      if callsSetter rt k
      then match m with Prototype => Returns rt | Builtin _ => Escapes end
      else Escapes
  end.

Definition getVal (expr : Expr) (rt : Runtime) : value :=
  match expr with
  | ENumber value => VNumber value
  | EVar name => default (VNumber zero) (lookupVar rt name)
  end.

(** *** Game operations *)

(** The switch of [tankMove]: the unit vector of the move. *)
Definition moveVector (p : Tank) (dirWord : string) : outcome (Z * Z) :=
  let at_ := fun i : Z =>
    match DIRS_at i with Some d => Returns d | None => Throws end in
  if String.eqb dirWord "FORWARD" then at_ (dir p)
  else if String.eqb dirWord "BACKWARD" then
    call (dx, dy) := at_ (dir p) in Returns (- dx, - dy)
  else if String.eqb dirWord "LEFT" then at_ (Z.rem (dir p + 3) 4)
  else if String.eqb dirWord "RIGHT" then at_ (Z.rem (dir p + 1) 4)
  else Returns (0, 0).

(** One round of the loop of [tankMove]. *)
Definition moveOnce (dx dy : Z) (p : Tank) : Tank :=
  let nx := clamp (x p + dx) 0 (GRID - 1) in
  let ny := clamp (y p + dy) 0 (GRID - 1) in
  setPos p nx ny.

Definition tankMove (world : World) (dirWord : string) (amount : number)
  : outcome World :=
  call (dx, dy) := moveVector (player world) dirWord in
  match loopCount amount with
  | None => Diverges
  | Some n => Returns (setPlayer world (Nat.iter n (moveOnce dx dy) (player world)))
  end.

Definition tankScan (world : World) (rt : Runtime) : World * Runtime :=
  let los := lineOfSight (player world) (enemy world) in
  let rt1 := setEnemySeen rt (if seen los then ofZ 1 else ofZ 0) in
  let rt2 := setVar rt1 "ENEMY" (enemySeen rt1) in
  (setMessage world
     (if seen los
      then "Enemy spotted at " +:+ numberToString (ofZ (distance los)) +:+ " tiles."
      else "No enemy in sight."),
   rt2).

(** *** The stepper *)

Definition incrFrame (f : Frame.t) : Frame.t :=
  {| Frame.name := Frame.name f; Frame.pc := S (Frame.pc f);
     Frame.body := Frame.body f |}.

(** [advance]: the frame that was on top when the step began, or the
    top-level counter. *)
Definition advance (rt : Runtime) : Runtime :=
  match stack rt with
  | f :: below => setStack rt (incrFrame f :: below)
  | [] => setPc rt (S (pc rt))
  end.

Definition push (rt : Runtime) (f : Frame.t) : Runtime :=
  setStack rt (f :: stack rt).

Definition pop (rt : Runtime) : Runtime := setStack rt (tail (stack rt)).

(** [prog.functions[name]] when it is truthy, as the body of a frame.  A
    frame is asked for the [length] of its body and, below that length, for
    its elements: a built-in function without parameters has length 0 and is
    the empty body here; one with parameters, and [Object.prototype], whose
    elements are [undefined], escape. *)
Definition callee (prog : Program) (name : string)
  : outcome (option (list Stmt)) :=
  match functions prog !! name with
  | Some body => Returns (Some body)
  | None =>
      match inherited name with
      | Some (Builtin O) => Returns (Some [])
      | Some _ => Escapes
      | None => Returns None
      end
  end.

(** The [switch] of [stepProgram] on the fetched statement.  In the [call]
    case the source pushes and then calls [advance], which still increments
    the counter of the caller. *)
Definition execStmt (world : World) (prog : Program) (rt : Runtime)
  (stmt : Stmt) : outcome (World * Runtime * bool) :=
  match stmt with
  | SAssign name value =>
      call rt1 := assignVar rt name (getVal value rt) in
      let rt2 := advance rt1 in
      call text := showValue (lookupVar rt2 name) in
      Returns (setMessage world ("$" +:+ name +:+ " = " +:+ text), rt2, true)
  | SMove amount dir =>
      let amt := Math_max zero (Math_floor (toNumber (getVal amount rt))) in
      call w1 := tankMove world dir amt in
      Returns (setMessage w1 ("MOVE " +:+ numberToString amt +:+ " " +:+ dir),
               advance rt, true)
  | STurn dir =>
      Returns (setMessage (tankTurn world dir) ("TURN " +:+ dir),
               advance rt, true)
  | SScan =>
      let '(w1, rt1) := tankScan world rt in
      Returns (w1, advance rt1, true)
  | SAttack => Returns (tankAttack world, advance rt, true)
  | SIf cond thenStmt elseStmt =>
      let c := getVal cond rt in
      let chosen := if notZero c then Some thenStmt else elseStmt in
      match chosen with
      | Some s =>
          Returns (world,
                   push rt {| Frame.name := "<if>"; Frame.pc := 0;
                              Frame.body := [s] |},
                   true)
      | None =>
          call text := showValue (Some c) in
          Returns (setMessage world ("IF (" +:+ text +:+ ") no-op"),
                   advance rt, true)
      end
  | SCall name =>
      call found := callee prog name in
      let rt1 :=
        match found with
        | Some body =>
            push (advance rt)
              {| Frame.name := name; Frame.pc := 0; Frame.body := body |}
        | None => advance rt
        end in
      Returns (setMessage world ("CALL " +:+ name), rt1, true)
  | SNoop => Returns (world, advance rt, true)
  | SFunction _ _ => Returns (world, advance rt, true)
  end.

(** The statement list and the counter in use: those of the top frame, or the
    top-level ones. *)
Definition activeList (prog : Program) (rt : Runtime) : list Stmt :=
  match head (stack rt) with
  | Some f => Frame.body f
  | None => stmts prog
  end.

Definition activePc (rt : Runtime) : nat :=
  match head (stack rt) with
  | Some f => Frame.pc f
  | None => pc rt
  end.

(** Step one statement. *)
Definition stepProgram (world : World) (prog : Program) (rt : Runtime)
  : outcome (World * Runtime * bool) :=
  let frame := head (stack rt) in
  let list := activeList prog rt in
  let pc0 := activePc rt in
  if (length list <=? pc0)%nat then
    match frame with
    | Some _ => Returns (world, pop rt, true)
    | None => Returns (world, rt, false)
    end
  else
    match list !! pc0 with
    | None => Throws
    | Some stmt => execStmt world prog rt stmt
    end.

(** [n] successive calls of [stepProgram] on the same world and runtime. *)
Fixpoint stepN (n : nat) (prog : Program) (world : World) (rt : Runtime)
  : outcome (World * Runtime) :=
  match n with
  | O => Returns (world, rt)
  | S n' =>
      call (w1, rt1, _) := stepProgram world prog rt in
      stepN n' prog w1 rt1
  end.
(** ** Lexer and parser (interpreter.ts) *)

(** [/\/\/.*$/] *)
Definition commentRe : regex := seqs [word "//"; Star true dot; Eol].

Definition stripComments (s : string) : string :=
  join (String LF EmptyString) (map (removeFirst commentRe) (split s LF)).

(** [/^FUNCTION\s+/i] and [/^END\b/i] *)
Definition functionHeadRe : regex := seqs [Bol; wordI "FUNCTION"; plus space].
Definition endRe : regex := seqs [Bol; wordI "END"; WordB].

Definition statementTokens (line : string) : list string :=
  map (fun p => p +:+ ";") (List.filter nonEmpty (map trim (split line ";"))).

Definition blockToken (header : string) (body : list string) : string :=
  join (String LF EmptyString) (header :: body ++ ["END"])%list.

(** The loop of [tokenize] over the lines; [inBlock] is its inner loop, which
    gathers the body up to a line matching [endRe] and steps over that
    line. *)
Fixpoint tokenizeLines (lines : list string) : list string :=
  match lines with
  | [] => []
  | line :: rest =>
      if test functionHeadRe line then
        (fix inBlock (body : list string) (ls : list string) : list string :=
           match ls with
           | [] => [blockToken line body]
           | l :: ls' =>
               if test endRe l then blockToken line body :: tokenizeLines ls'
               else inBlock (body ++ [l])%list ls'
           end) [] rest
      else (statementTokens line ++ tokenizeLines rest)%list
  end.

Definition sourceLines (code : string) : list string :=
  List.filter nonEmpty (map trim (splitLines (stripComments code))).

Definition tokenize (code : string) : list string :=
  tokenizeLines (sourceLines code).

(** [/^\$[A-Za-z_][A-Za-z0-9_]*$/] *)
Definition varRe : regex := seqs [Bol; chr "$"; identifier; Eol].

Definition parseExpr (tok : string) : Expr :=
  let v := trim tok in
  if test varRe v then EVar (slice1 v)
  else
    let n := Number v in
    if negb (isNaN n) then ENumber n else ENumber zero.

(** The patterns of [parseStmt], in the order of the source; each header
    pattern is the test that guards the match.  In the comments [ID] stands
    for [[A-Za-z_][A-Za-z0-9_]*].

    [/^FUNCTION\s+(ID)\s*:\s*\n([\s\S]*?)\nEND$/i] *)
Definition functionRe : regex :=
  seqs [Bol; wordI "FUNCTION"; plus space; Group 1 identifier;
        Star true space; chr ":"; Star true space; chr LF;
        Group 2 (Star false anyChar); chr LF; wordI "END"; Eol].

(** [/^IF\s+/i] and [/^IF\s+(.+?)\s+THEN\s+(.+?)(?:\s+ELSE\s+(.+))?;?$/i] *)
Definition ifHeadRe : regex := seqs [Bol; wordI "IF"; plus space].
Definition ifRe : regex :=
  seqs [Bol; wordI "IF"; plus space; Group 1 (plusLazy dot); plus space;
        wordI "THEN"; plus space; Group 2 (plusLazy dot);
        opt (seqs [plus space; wordI "ELSE"; plus space; Group 3 (plus dot)]);
        opt (chr ";"); Eol].

(** [/^ID\s*=/] and [/^(ID)\s*=\s*(.+);?$/] *)
Definition assignHeadRe : regex :=
  seqs [Bol; identifier; Star true space; chr "="].
Definition assignRe : regex :=
  seqs [Bol; Group 1 identifier; Star true space; chr "="; Star true space;
        Group 2 (plus dot); opt (chr ";"); Eol].

(** [/^MOVE\s+/i] and [/^MOVE\s+(.+)\s+(FORWARD|BACKWARD|LEFT|RIGHT);?$/i] *)
Definition moveHeadRe : regex := seqs [Bol; wordI "MOVE"; plus space].
Definition moveRe : regex :=
  seqs [Bol; wordI "MOVE"; plus space; Group 1 (plus dot); plus space;
        Group 2 (alts [wordI "FORWARD"; wordI "BACKWARD"; wordI "LEFT";
                       wordI "RIGHT"]);
        opt (chr ";"); Eol].

(** [/^TURN\s+/i] and [/^TURN\s+(LEFT|RIGHT);?$/i] *)
Definition turnHeadRe : regex := seqs [Bol; wordI "TURN"; plus space].
Definition turnRe : regex :=
  seqs [Bol; wordI "TURN"; plus space;
        Group 1 (alts [wordI "LEFT"; wordI "RIGHT"]); opt (chr ";"); Eol].

(** [/^SCAN_FOR_ENEMY;?$/i] and [/^ATTACK;?$/i] *)
Definition scanRe : regex :=
  seqs [Bol; wordI "SCAN_FOR_ENEMY"; opt (chr ";"); Eol].
Definition attackRe : regex := seqs [Bol; wordI "ATTACK"; opt (chr ";"); Eol].

(** [/^CALL\s+/i] and [/^CALL\s+(ID);?$/i] *)
Definition callHeadRe : regex := seqs [Bol; wordI "CALL"; plus space].
Definition callRe : regex :=
  seqs [Bol; wordI "CALL"; plus space; Group 1 identifier; opt (chr ";"); Eol].

(** What [parseStmt] returns; [OutOfFuel] is the embedding's own. *)
Inductive parsed : Type :=
| OutOfFuel
| Null
| Parsed (s : Stmt).

(** [s + (s.endsWith(";") ? "" : ";")] *)
Definition terminated (s : string) : string :=
  s +:+ (if endsWithChar s ";" then "" else ";").

(** [tokens.map(parse).filter(Boolean)] *)
Fixpoint parseAll (parse : string -> parsed) (tokens : list string)
  : option (list Stmt) :=
  match tokens with
  | [] => Some []
  | tok :: rest =>
      match parse tok, parseAll parse rest with
      | OutOfFuel, _ => None
      | _, None => None
      | Null, Some ss => Some ss
      | Parsed s, Some ss => Some (s :: ss)
      end
  end.

(** A rule that does not return falls through to the next one. *)
Definition orRule (r : option parsed) (next : parsed) : parsed :=
  match r with Some p => p | None => next end.

Definition cap (n : nat) (m : list (nat * string)) : string :=
  default EmptyString (capture n m).

Fixpoint parseStmt (fuel : nat) (token : string) : parsed :=
  match fuel with
  | O => OutOfFuel
  | S fuel' =>
      let t := trim token in
      if negb (nonEmpty t) then Null
      else
        orRule
          (if test functionHeadRe t then
             match matchRe functionRe t with
             | Some m =>
                 match parseAll (parseStmt fuel') (tokenize (cap 2 m)) with
                 | Some body => Some (Parsed (SFunction (cap 1 m) body))
                 | None => Some OutOfFuel
                 end
             | None => None
             end
           else None)
        (orRule
          (if test ifHeadRe t then
             match matchRe ifRe t with
             | Some m =>
                 let cond := parseExpr (cap 1 m) in
                 let thenStmt := parseStmt fuel' (terminated (trim (cap 2 m))) in
                 let elseStmt :=
                   match capture 3 m with
                   | Some raw =>
                       if nonEmpty (trim raw)
                       then parseStmt fuel' (terminated (trim raw))
                       else Null
                   | None => Null
                   end in
                 match thenStmt, elseStmt with
                 | OutOfFuel, _ => Some OutOfFuel
                 | Null, _ => None
                 | Parsed _, OutOfFuel => Some OutOfFuel
                 | Parsed th, Null => Some (Parsed (SIf cond th None))
                 | Parsed th, Parsed el => Some (Parsed (SIf cond th (Some el)))
                 end
             | None => None
             end
           else None)
        (orRule
          (if test assignHeadRe t then
             match matchRe assignRe t with
             | Some m => Some (Parsed (SAssign (cap 1 m) (parseExpr (cap 2 m))))
             | None => None
             end
           else None)
        (orRule
          (if test moveHeadRe t then
             match matchRe moveRe t with
             | Some m =>
                 Some (Parsed (SMove (parseExpr (cap 1 m)) (toUpperCase (cap 2 m))))
             | None => None
             end
           else None)
        (orRule
          (if test turnHeadRe t then
             match matchRe turnRe t with
             | Some m => Some (Parsed (STurn (toUpperCase (cap 1 m))))
             | None => None
             end
           else None)
        (if test scanRe t then Parsed SScan
         else if test attackRe t then Parsed SAttack
         else
           orRule
             (if test callHeadRe t then
                match matchRe callRe t with
                | Some m => Some (Parsed (SCall (cap 1 m)))
                | None => None
                end
              else None)
             (Parsed SNoop))))))
  end.

(** The loop of [parseProgram]: a function declaration goes to the table, any
    other statement to the sequence.  A declaration named [__proto__] does not
    add to the table: the assignment calls the setter inherited from
    [Object.prototype], which makes the body the prototype of the table; such
    a table is not represented, and the result is [None]. *)
Fixpoint assemble (parse : string -> parsed) (tokens : list string)
  (prog : Program) : option Program :=
  match tokens with
  | [] => Some prog
  | tok :: rest =>
      match parse tok with
      | OutOfFuel => None
      | Null => assemble parse rest prog
      | Parsed (SFunction name body) =>
          if String.eqb name "__proto__"
             && match functions prog !! name with
                | Some _ => false
                | None => true
                end
          then None
          else
            assemble parse rest
              {| stmts := stmts prog;
                 functions := <[name := body]> (functions prog) |}
      | Parsed s =>
          assemble parse rest
            {| stmts := (stmts prog ++ [s])%list; functions := functions prog |}
      end
  end.

(** The fuel suffices for every source: no token is more than four
    characters longer than the source, and a nested call of [parseStmt] gets
    a shorter token.  So [None] is a source that declares [__proto__]. *)
Definition parseProgram (code : string) : option Program :=
  assemble (parseStmt (String.length code + 5)) (tokenize code)
    {| stmts := []; functions := ∅ |}.
(** ** Enemy AI (enemy.ts) *)

(** The test guarding the enemy's shot. *)
Definition enemyFires (world : World) : bool :=
  let los := lineOfSight (enemy world) (player world) in
  seen los && (distance los <=? 3) && dirOk los.

Definition enemyStep (world : World) : outcome World :=
  let e := enemy world in
  let p := player world in
  if hp e <=? 0 then Returns world
  else
    let los := lineOfSight e p in
    if seen los && (distance los <=? 3) && dirOk los then
      Returns
        (setMessage
           (setPlayer world (setHp p (Z.max 0 (hp p - 15))))
           (message world +:+ " | Enemy fires (-15 HP)"))
    else
      let dx := Z.sgn (x p - x e) in
      let dy := Z.sgn (y p - y e) in
      let pref :=
        if Z.abs dx >? Z.abs dy then (if dx >? 0 then 1 else 3)
        else (if dy >? 0 then 2 else 0) in
      let e1 := setDir e pref in
      match DIRS_at (dir e1) with
      | None => Throws
      | Some (ddx, ddy) =>
          let e2 := setPos e1 (clamp (x e1 + ddx) 0 (GRID - 1)) (y e1) in
          let e3 := setPos e2 (x e2) (clamp (y e2 + ddy) 0 (GRID - 1)) in
          Returns (setEnemy world e3)
      end.

(** ** The driver (world.ts) *)

Definition setTick (w : World) (t : Z) : World :=
  {| player := player w; enemy := enemy w; tick := t; message := message w |}.

(** [(m ? m + " | " : "") + note] *)
Definition appendNote (m note : string) : string :=
  (if nonEmpty m then m +:+ " | " else "") +:+ note.

(** The function [stepOnce] hands to [setWorld]: [world] and [rt] stand for
    the copies [w2] and [rt2] it makes, the pair returned for the world it
    returns and the runtime it passes to [setRt].  The tick stays far below
    [2^53]. *)
Definition stepOnce (world : World) (prog : Program) (rt : Runtime)
  : outcome (World * Runtime) :=
  call (w1, rt1, _) := stepProgram world prog rt in
  call w2 := enemyStep w1 in
  let w3 := setTick w2 (tick w2 + 1) in
  let w4 :=
    if hp (enemy w3) <=? 0
    then setMessage w3 (appendNote (message w3) "Enemy destroyed!")
    else w3 in
  let w5 :=
    if hp (player w4) <=? 0
    then setMessage w4 (appendNote (message w4) "You were destroyed.")
    else w4 in
  Returns (w5, rt1).

(** [n] rounds of the driver. *)
Fixpoint stepOnceN (n : nat) (world : World) (prog : Program) (rt : Runtime)
  : outcome (World * Runtime) :=
  match n with
  | O => Returns (world, rt)
  | S n' =>
      call (w1, rt1) := stepOnce world prog rt in stepOnceN n' w1 prog rt1
  end.
(** ** Notions used by the statements *)

(** The two tanks are in the same column or in the same row, not both. *)
Definition sharesOneAxis (a b : Tank) : Prop :=
  (x a = x b /\ y a <> y b) \/ (x a <> x b /\ y a = y b).

(** The facing of [a] is the unit vector from [a] to [b]. *)
Definition facesToward (a b : Tank) : Prop :=
  DIRS_at (dir a) = Some (Z.sgn (x b - x a), Z.sgn (y b - y a)).

(** The test guarding the hit of [tankAttack]. *)
Definition attackHits (world : World) : bool :=
  let los := lineOfSight (player world) (enemy world) in
  seen los && dirOk los && (distance los <=? 3).

(** The facing the enemy takes when it does not fire: toward the actor along
    the row when the actor is in the enemy's row and another column, else
    along the column, down when the actor is below and up otherwise. *)
Definition chaseFacing (world : World) : Z :=
  let e := enemy world in
  let p := player world in
  if (y p =? y e) && negb (x p =? x e) then (if x p >? x e then 1 else 3)
  else if y p >? y e then 2 else 0.

(** The facing as the specification words it: the axis with the larger
    absolute offset, the vertical one on a tie. *)
Definition largerOffsetFacing (world : World) : Z :=
  let e := enemy world in
  let p := player world in
  if Z.abs (x p - x e) >? Z.abs (y p - y e)
  then (if x p >? x e then 1 else 3)
  else (if y p >? y e then 2 else 0).

(** The tank one cell further along [d], kept on the grid. *)
Definition advanceAlong (t : Tank) (d : Z) : Tank :=
  match DIRS_at d with
  | Some (dx, dy) =>
      {| x := clamp (x t + dx) 0 (GRID - 1);
         y := clamp (y t + dy) 0 (GRID - 1);
         dir := d; hp := hp t |}
  | None => t
  end.

(** The invariant of a tank and of a world. *)
Definition tankOk (t : Tank) : Prop :=
  0 <= x t < GRID /\ 0 <= y t < GRID /\ 0 <= hp t <= 100
  /\ (dir t = 0 \/ dir t = 1 \/ dir t = 2 \/ dir t = 3).

Definition worldOk (w : World) : Prop := tankOk (player w) /\ tankOk (enemy w).

(** The statement the next step executes, if any. *)
Definition activeStmt (prog : Program) (rt : Runtime) : option Stmt :=
  activeList prog rt !! activePc rt.

(** The branch an [if] selects. *)
Definition chosenBranch (cond : Expr) (thenStmt : Stmt)
  (elseStmt : option Stmt) (rt : Runtime) : option Stmt :=
  if notZero (getVal cond rt) then Some thenStmt else elseStmt.

(** A statement that one step executes to its end without pushing a frame:
    any statement but a call of a name that the function table holds or
    inherits, an [if] that selects a branch, a move that throws or never
    ends, and an assignment that escapes. *)
Definition oneStep (world : World) (prog : Program) (rt : Runtime)
  (s : Stmt) : bool :=
  match s with
  | SAssign name value =>
      match assignVar rt name (getVal value rt) with
      | Returns _ => true
      | _ => false
      end
  | SIf cond thenStmt elseStmt =>
      match chosenBranch cond thenStmt elseStmt rt with
      | Some _ => false
      | None => true
      end
  | SCall name =>
      match callee prog name with Returns None => true | _ => false end
  | SMove amount dir =>
      match
        tankMove world dir
          (Math_max zero (Math_floor (toNumber (getVal amount rt))))
      with
      | Returns _ => true
      | _ => false
      end
  | _ => true
  end.

(** Successive calls of [tankMove], one per direction and amount. *)
Fixpoint tankMoves (world : World) (moves : list (string * number))
  : outcome World :=
  match moves with
  | [] => Returns world
  | (dirWord, amount) :: rest =>
      call w1 := tankMove world dirWord amount in tankMoves w1 rest
  end.

(** The worlds that calls of [stepProgram], with any program and runtime, and
    of [enemyStep] lead to from the initial world. *)
Inductive reachable : World -> Prop :=
| reach_init : reachable makeInitialWorld
| reach_step (w : World) (prog : Program) (rt : Runtime)
    (w' : World) (rt' : Runtime) (b : bool) :
    reachable w -> stepProgram w prog rt = Returns (w', rt', b) ->
    reachable w'
| reach_enemy (w w' : World) :
    reachable w -> enemyStep w = Returns w' -> reachable w'.

(** The frame an [if] pushes for its branch, and a frame of a function at a
    given counter. *)
Definition ifFrame (s : Stmt) : Frame.t :=
  {| Frame.name := "<if>"; Frame.pc := 0; Frame.body := [s] |}.

Definition frameAt (name : string) (k : nat) (body : list Stmt) : Frame.t :=
  {| Frame.name := name; Frame.pc := k; Frame.body := body |}.

(** Every character of [s] satisfies [p]. *)
Fixpoint allChars (p : ascii -> bool) (s : string) : bool :=
  match s with
  | EmptyString => true
  | String c s' => p c && allChars p s'
  end.

(** [$] followed by an identifier. *)
Definition isVarToken (v : string) : bool :=
  match v with
  | String "$" (String c r) => isIdentStart c && allChars isWordChar r
  | _ => false
  end.

(** A double without a fractional part. *)
Definition isInteger (n : number) : bool :=
  match n with
  | S754_zero _ => true
  | S754_finite _ m e => (0 <=? e) || (Z.pos m mod 2 ^ (- e) =? 0)
  | _ => false
  end.

(** Whether a FUNCTION block is open after the lines [ls], when one was
    ([inBlock]) or was not open before them. *)
Fixpoint openAfter (inBlock : bool) (ls : list string) : bool :=
  match ls with
  | [] => inBlock
  | l :: ls' =>
      if inBlock then openAfter (negb (test endRe l)) ls'
      else openAfter (test functionHeadRe l) ls'
  end.

(** The inner loop of [tokenizeLines], named. *)
Fixpoint blockLoop (header : string) (body ls : list string) : list string :=
  match ls with
  | [] => [blockToken header body]
  | l :: ls' =>
      if test endRe l then blockToken header body :: tokenizeLines ls'
      else blockLoop header (body ++ [l])%list ls'
  end.

(** A raw line of the source as [tokenize] sees it: the comment removed, then
    trimmed; and the raw lines that are left, blank ones dropped. *)
Definition cleanLine (l : string) : string := trim (removeFirst commentRe l).

Definition cleanLines (ls : list string) : list string :=
  List.filter nonEmpty (map cleanLine ls).

(** No line feed in [s]. *)
Definition noLF (s : string) : bool :=
  allChars (fun c => negb (c =? LF)%char) s.

(** ** Programs, worlds and sources used by the examples *)

(** A world where the actor is five columns to the right of the opponent and
    one row below it. *)
Definition offAxisWorld : World :=
  {| player := {| x := 10; y := 6; dir := 0; hp := 100 |};
     enemy := {| x := 5; y := 5; dir := 0; hp := 100 |};
     tick := 0; message := "" |}.

(** A program whose only statement is [IF 1 THEN ATTACK]. *)
Definition ifForever : Program :=
  {| stmts := [SIf (ENumber (ofZ 1)) SAttack None]; functions := ∅ |}.

(** A caller of [Patrol], whose two statements take one step each. *)
Definition patrolProgram : Program :=
  {| stmts := [SCall "Patrol"; SNoop];
     functions := {[ "Patrol" := [STurn "RIGHT"; SAttack] ]} |}.

(** A caller of [Patrol], whose only statement calls [Helper]. *)
Definition nestedProgram : Program :=
  {| stmts := [SCall "Patrol"; SNoop];
     functions := {[ "Patrol" := [SCall "Helper"]; "Helper" := [SNoop] ]} |}.

(** The program [MOVE 30 LEFT]. *)
Definition moveLeftProgram : Program :=
  {| stmts := [SMove (ENumber (ofZ 30)) "LEFT"]; functions := ∅ |}.

(** The world after one round of the driver on [MOVE 30 LEFT]: the actor has
    hit the left wall, the opponent has moved one cell down. *)
Definition afterOneRound : World :=
  {| player := {| x := 0; y := 17; dir := 0; hp := 100 |};
     enemy := {| x := 17; y := 3; dir := 2; hp := 100 |};
     tick := 0; message := "MOVE 30 LEFT" |}.

(** A source with a comment and a blank line inside the block. *)
Definition patrolSource : string :=
  join (String LF EmptyString)
    ["X = 1; // before"; "FUNCTION Patrol:  // header"; "  MOVE 1 LEFT;"; "";
     "  // half way"; "  MOVE 1 RIGHT; TURN LEFT;"; "END;"; "CALL Patrol;"].

(** A source with a FUNCTION header inside a block. *)
Definition nestedSource : string :=
  join (String LF EmptyString) ["FUNCTION f:"; "FUNCTION g:"; "END"].

(** The sample program of the scenario. *)
Definition scenarioSource : string :=
  "MOVEMENT = 2; SCAN_FOR_ENEMY; IF $ENEMY THEN ATTACK ELSE MOVE $MOVEMENT FORWARD;".

(** What a run observes after [n] steps. *)
Definition observe (n : nat) (prog : Program)
  : option (option number * option number * string * (Z * Z)
            * list (string * nat * list Stmt) * nat) :=
  match stepN n prog makeInitialWorld makeRuntime with
  | Returns (w, rt) =>
      Some (vars rt !! "MOVEMENT", vars rt !! "ENEMY", message w,
            (x (player w), y (player w)),
            map (fun f => (Frame.name f, Frame.pc f, Frame.body f)) (stack rt),
            pc rt)
  | _ => None
  end.



(** ** Further notions *)

(** The Manhattan distance between two tanks. *)
Definition manhattan (a b : Tank) : Z :=
  Z.abs (x b - x a) + Z.abs (y b - y a).

(** A number with the sign bit set: a negative number, minus infinity or
    minus zero. *)
Definition isNegative (v : number) : bool :=
  match v with
  | S754_finite s _ _ => s
  | S754_infinity s => s
  | S754_zero s => s
  | S754_nan => false
  end.

(** What a move by [n] cells along [(dx, dy)] makes of a tank. *)
Definition jump (p : Tank) (dx dy : Z) (n : nat) : Tank :=
  setPos p (clamp (x p + Z.of_nat n * dx) 0 (GRID - 1))
           (clamp (y p + Z.of_nat n * dy) 0 (GRID - 1)).

(** One change of the world: a call of [stepProgram], with any program and
    runtime, or of [enemyStep]. *)
Inductive worldStep : World -> World -> Prop :=
| ws_program (w : World) (prog : Program) (rt : Runtime)
    (w' : World) (rt' : Runtime) (b : bool) :
    stepProgram w prog rt = Returns (w', rt', b) -> worldStep w w'
| ws_enemy (w w' : World) :
    enemyStep w = Returns w' -> worldStep w w'.

(** Any number of changes of the world. *)
Inductive worldRun : World -> World -> Prop :=
| wr_refl (w : World) : worldRun w w
| wr_step (w w1 w2 : World) :
    worldRun w w1 -> worldStep w1 w2 -> worldRun w w2.

(** A world where the tanks face each other two cells apart, the actor below
    the opponent. *)
Definition duelWorld : World :=
  {| player := {| x := 4; y := 6; dir := 0; hp := 100 |};
     enemy := {| x := 4; y := 4; dir := 2; hp := 100 |};
     tick := 0; message := "" |}.

(** A world whose opponent has been destroyed. *)
Definition wonWorld : World :=
  {| player := {| x := 4; y := 6; dir := 0; hp := 70 |};
     enemy := {| x := 4; y := 4; dir := 2; hp := 0 |};
     tick := 0; message := "" |}.

(** A program of three statements that take one step each. *)
Definition straightProgram : Program :=
  {| stmts := [STurn "RIGHT"; SAttack; SNoop]; functions := ∅ |}.

(** A line as [tokenize] keeps it: not empty, and trimmed. *)
Definition trimmedLine (l : string) : Prop := nonEmpty l = true /\ trim l = l.

(** The two shapes of a token: a trimmed statement followed by [;], and a
    block made of a FUNCTION header, body lines and [END]. *)
Definition tokenShape (tok : string) : Prop :=
  (exists p, tok = p +:+ ";" /\ trimmedLine p)
  \/ (exists header body,
        tok = blockToken header body /\ trimmedLine header
        /\ test functionHeadRe header = true /\ Forall trimmedLine body).

(** A source whose FUNCTION block is not closed. *)
Definition openSource : string :=
  join (String LF EmptyString) ["TURN LEFT;"; "FUNCTION f:"; "  ATTACK;"].

(** The state a matcher reaches from position [p] after it has read all of
    [s]. *)
Fixpoint skipAll (s : string) (p : nat) (pv : option ascii)
  (cs : list (nat * string)) : mstate :=
  match s with
  | EmptyString => {| pos := p; prev := pv; rest := EmptyString; caps := cs |}
  | String c s' => skipAll s' (S p) (Some c) cs
  end.

(** [v] is what is left of [t] after some prefix. *)
Definition isSuffix (v t : string) : Prop := exists pre, t = pre +:+ v.

(** A character that [.] matches. *)
Definition isDot (c : ascii) : bool := negb (isLineTerminator c).

(** The literal zero. *)
Definition isZeroLiteral (e : Expr) : bool :=
  match e with ENumber (S754_zero false) => true | _ => false end.

(** Every assignment inside [s], at any depth, assigns the literal zero. *)
Fixpoint assignsZero (s : Stmt) : bool :=
  match s with
  | SAssign _ value => isZeroLiteral value
  | SIf _ thenStmt elseStmt =>
      assignsZero thenStmt
      && match elseStmt with Some e => assignsZero e | None => true end
  | SFunction _ body =>
      (fix all (l : list Stmt) : bool :=
         match l with
         | [] => true
         | s' :: l' => assignsZero s' && all l'
         end) body
  | _ => true
  end.

(** A token that ends with [;] or with a line feed and [END]. *)
Definition tokenEnd (t : string) : Prop :=
  endsWithChar t ";" = true \/ exists pre, t = pre +:+ String LF "END".

(** A function declaration. *)
Definition isFunction (s : Stmt) : bool :=
  match s with SFunction _ _ => true | _ => false end.

(** The table after the declarations among [ss], taken in order. *)
Fixpoint declare (ss : list Stmt) (table : gmap string (list Stmt))
  : gmap string (list Stmt) :=
  match ss with
  | [] => table
  | SFunction name body :: ss' => declare ss' (<[name := body]> table)
  | _ :: ss' => declare ss' table
  end.

(** The variables hold zero, or one under the name [ENEMY]. *)
Definition zeroVars (rt : Runtime) : Prop :=
  forall name v, vars rt !! name = Some v ->
  v = zero \/ (name = "ENEMY" /\ v = ofZ 1).

(** Every assignment of the program and of the frames assigns the literal
    zero. *)
Definition zeroCode (prog : Program) (rt : Runtime) : Prop :=
  forallb assignsZero (stmts prog) = true
  /\ (forall name body, functions prog !! name = Some body ->
      forallb assignsZero body = true)
  /\ Forall (fun f => forallb assignsZero (Frame.body f) = true) (stack rt).

(** A source that declares [f] twice and calls it before both. *)
Definition twiceSource : string :=
  join (String LF EmptyString)
    ["CALL f;"; "FUNCTION f:"; "ATTACK;"; "END"; "TURN LEFT;";
     "FUNCTION f:"; "SCAN_FOR_ENEMY;"; "END"].

(** The characters of the lines [ls], one more for each line: what the lines
    take in a text, separators included. *)
Fixpoint weight (ls : list string) : nat :=
  match ls with
  | [] => 0%nat
  | l :: ls' => S (String.length l + weight ls')
  end.

(** What is left to read and every capture made are at most [B] characters
    long. *)
Definition bounded (B : nat) (st : mstate) : Prop :=
  (String.length (rest st) <= B)%nat
  /\ Forall (fun c => (String.length (snd c) <= B)%nat) (caps st).

(** A top-level declaration of the name [__proto__] among [ss]. *)
Definition declaresProto (ss : list Stmt) : Prop :=
  exists body, In (SFunction "__proto__" body) ss.

(** The step takes the state out of what a [Runtime] holds: the active
    statement stores a function in a variable, or calls a name under which
    the table inherits something that is no statement list and not empty. *)
Definition leavesModel (prog : Program) (rt : Runtime) : bool :=
  match activeStmt prog rt with
  | Some (SAssign name value) =>
      match assignVar rt name (getVal value rt) with
      | Escapes => true
      | _ => false
      end
  | Some (SCall name) =>
      match callee prog name with Escapes => true | _ => false end
  | _ => false
  end.
(** * Properties *)

(** ** Line of sight *)

Lemma DIRS_at_cases (d : Z) (v : Z * Z) :
  DIRS_at d = Some v ->
  (d = 0 /\ v = (0, -1)) \/ (d = 1 /\ v = (1, 0))
  \/ (d = 2 /\ v = (0, 1)) \/ (d = 3 /\ v = (-1, 0)).
Proof.
  unfold DIRS_at. destruct (Z.ltb_spec d 0) as [|Hd]; [discriminate|].
  destruct (Z.to_nat d) as [|[|[|[|n]]]] eqn:E; simpl; intros [= <-].
  - left. split; [lia|reflexivity].
  - right; left. split; [lia|reflexivity].
  - right; right; left. split; [lia|reflexivity].
  - right; right; right. split; [lia|reflexivity].
Qed.

Lemma lineOfSight_column (a b : Tank) :
  x a = x b ->
  lineOfSight a b =
    {| seen := Z.abs (y b - y a) >? 0;
       distance := Z.abs (y b - y a);
       dirOk := (Z.sgn (y b - y a) <? 0) && (dir a =? 0)
                || (Z.sgn (y b - y a) >? 0) && (dir a =? 2) |}.
Proof. intros H. unfold lineOfSight. rewrite H, Z.eqb_refl. reflexivity. Qed.

Lemma lineOfSight_row (a b : Tank) :
  x a <> x b -> y a = y b ->
  lineOfSight a b =
    {| seen := Z.abs (x b - x a) >? 0;
       distance := Z.abs (x b - x a);
       dirOk := (Z.sgn (x b - x a) >? 0) && (dir a =? 1)
                || (Z.sgn (x b - x a) <? 0) && (dir a =? 3) |}.
Proof.
  intros Hx Hy. unfold lineOfSight.
  destruct (Z.eqb_spec (x a) (x b)); [contradiction|].
  rewrite Hy, Z.eqb_refl. reflexivity.
Qed.

Lemma lineOfSight_unaligned (a b : Tank) :
  x a <> x b -> y a <> y b ->
  lineOfSight a b = {| seen := false; distance := 999; dirOk := false |}.
Proof.
  intros Hx Hy. unfold lineOfSight.
  destruct (Z.eqb_spec (x a) (x b)); [contradiction|].
  destruct (Z.eqb_spec (y a) (y b)); [contradiction|]. reflexivity.
Qed.

Lemma facesToward_column (a b : Tank) :
  x a = x b -> y a <> y b ->
  ((Z.sgn (y b - y a) <? 0) && (dir a =? 0)
   || (Z.sgn (y b - y a) >? 0) && (dir a =? 2)) = true <-> facesToward a b.
Proof.
  intros Hx Hy. unfold facesToward. rewrite Hx, Z.sub_diag. simpl Z.sgn.
  split.
  - intros H. apply orb_true_iff in H as [H|H];
      apply andb_true_iff in H as [H1 H2]; apply Z.eqb_eq in H2; rewrite H2.
    + apply Z.ltb_lt in H1. replace (Z.sgn (y b - y a)) with (-1) by lia.
      reflexivity.
    + apply Z.gtb_lt in H1. replace (Z.sgn (y b - y a)) with 1 by lia.
      reflexivity.
  - intros H. apply DIRS_at_cases in H.
    destruct H as [[-> E]|[[-> E]|[[-> E]|[-> E]]]]; inversion E; lia.
Qed.

Lemma facesToward_row (a b : Tank) :
  x a <> x b -> y a = y b ->
  ((Z.sgn (x b - x a) >? 0) && (dir a =? 1)
   || (Z.sgn (x b - x a) <? 0) && (dir a =? 3)) = true <-> facesToward a b.
Proof.
  intros Hx Hy. unfold facesToward. rewrite Hy, Z.sub_diag. simpl Z.sgn.
  split.
  - intros H. apply orb_true_iff in H as [H|H];
      apply andb_true_iff in H as [H1 H2]; apply Z.eqb_eq in H2; rewrite H2.
    + apply Z.gtb_lt in H1. replace (Z.sgn (x b - x a)) with 1 by lia.
      reflexivity.
    + apply Z.ltb_lt in H1. replace (Z.sgn (x b - x a)) with (-1) by lia.
      reflexivity.
  - intros H. apply DIRS_at_cases in H.
    destruct H as [[-> E]|[[-> E]|[[-> E]|[-> E]]]]; inversion E; lia.
Qed.

(** C4. [lineOfSight a b] sees [b] exactly when the two tanks share one axis
    and not the other; the distance is then the offset along the shared line
    (which is the Manhattan distance) and [dirOk] holds exactly when [a] faces
    toward [b]; tanks aligned on neither axis give [seen = false],
    [dirOk = false] and the distance 999; tanks on the same cell give
    [seen = false]. *)
Theorem lineOfSight_spec (a b : Tank) :
  (seen (lineOfSight a b) = true <-> sharesOneAxis a b)
  /\ (x a = x b -> y a <> y b ->
      distance (lineOfSight a b) = Z.abs (y b - y a))
  /\ (x a <> x b -> y a = y b ->
      distance (lineOfSight a b) = Z.abs (x b - x a))
  /\ (sharesOneAxis a b ->
      distance (lineOfSight a b) = Z.abs (x b - x a) + Z.abs (y b - y a)
      /\ (dirOk (lineOfSight a b) = true <-> facesToward a b))
  /\ (x a <> x b -> y a <> y b ->
      lineOfSight a b = {| seen := false; distance := 999; dirOk := false |})
  /\ (x a = x b -> y a = y b -> seen (lineOfSight a b) = false).
Proof.
  repeat split.
  - intros H. unfold sharesOneAxis.
    destruct (Z.eq_dec (x a) (x b)) as [Hx|Hx].
    + rewrite (lineOfSight_column _ _ Hx) in H. simpl in H.
      apply Z.gtb_lt in H. left. split; [assumption|lia].
    + destruct (Z.eq_dec (y a) (y b)) as [Hy|Hy].
      * right. split; assumption.
      * rewrite (lineOfSight_unaligned _ _ Hx Hy) in H. discriminate.
  - intros [[Hx Hy]|[Hx Hy]].
    + rewrite (lineOfSight_column _ _ Hx). simpl. apply Z.gtb_lt. lia.
    + rewrite (lineOfSight_row _ _ Hx Hy). simpl. apply Z.gtb_lt. lia.
  - intros Hx _. rewrite (lineOfSight_column _ _ Hx). reflexivity.
  - intros Hx Hy. rewrite (lineOfSight_row _ _ Hx Hy). reflexivity.
  - destruct H as [[Hx Hy]|[Hx Hy]].
    + rewrite (lineOfSight_column _ _ Hx). simpl. rewrite Hx. lia.
    + rewrite (lineOfSight_row _ _ Hx Hy). simpl. rewrite Hy. lia.
  - destruct H as [[Hx Hy]|[Hx Hy]].
    + rewrite (lineOfSight_column _ _ Hx). simpl.
      apply (facesToward_column a b Hx Hy).
    + rewrite (lineOfSight_row _ _ Hx Hy). simpl.
      apply (facesToward_row a b Hx Hy).
  - destruct H as [[Hx Hy]|[Hx Hy]].
    + rewrite (lineOfSight_column _ _ Hx). simpl.
      apply (facesToward_column a b Hx Hy).
    + rewrite (lineOfSight_row _ _ Hx Hy). simpl.
      apply (facesToward_row a b Hx Hy).
  - apply lineOfSight_unaligned.
  - intros Hx Hy. rewrite (lineOfSight_column _ _ Hx). simpl.
    rewrite Hy, Z.sub_diag. reflexivity.
Qed.

(** ** Attack *)

Lemma tankAttack_hit (w : World) :
  attackHits w = true ->
  tankAttack w =
    setMessage (setEnemy w (setHp (enemy w) (Z.max 0 (hp (enemy w) - 40))))
      "ATTACK hit! Enemy -40 HP".
Proof. unfold attackHits, tankAttack. intros ->. reflexivity. Qed.

Lemma tankAttack_miss (w : World) :
  attackHits w = false -> tankAttack w = setMessage w "ATTACK missed.".
Proof. unfold attackHits, tankAttack. intros ->. reflexivity. Qed.

(** An attack moves and turns nobody, so the next one hits or misses alike. *)
Lemma attackHits_tankAttack (w : World) :
  attackHits (tankAttack w) = attackHits w.
Proof.
  destruct (attackHits w) eqn:E.
  - rewrite (tankAttack_hit w E). exact E.
  - rewrite (tankAttack_miss w E). exact E.
Qed.

(** C5. [tankAttack] takes 40 from the opponent's health, not below 0, when
    the line of sight from the actor is seen, rightly faced and at most 3
    long, and leaves that health alone otherwise; nothing else than the
    message changes.  From health 100 at distance 2, three attacks leave 60,
    20 and 0, each with the message of a hit. *)
Theorem tankAttack_spec (w : World) :
  (attackHits w = true ->
     hp (enemy (tankAttack w)) = Z.max 0 (hp (enemy w) - 40)
     /\ message (tankAttack w) = "ATTACK hit! Enemy -40 HP")
  /\ (attackHits w = false -> hp (enemy (tankAttack w)) = hp (enemy w))
  /\ player (tankAttack w) = player w
  /\ setHp (enemy (tankAttack w)) 0 = setHp (enemy w) 0
  /\ tick (tankAttack w) = tick w
  /\ (lineOfSight (player w) (enemy w)
        = {| seen := true; distance := 2; dirOk := true |} ->
      hp (enemy w) = 100 ->
      let w1 := tankAttack w in
      let w2 := tankAttack w1 in
      let w3 := tankAttack w2 in
      hp (enemy w1) = 60 /\ hp (enemy w2) = 20 /\ hp (enemy w3) = 0
      /\ message w1 = "ATTACK hit! Enemy -40 HP"
      /\ message w2 = "ATTACK hit! Enemy -40 HP"
      /\ message w3 = "ATTACK hit! Enemy -40 HP").
Proof.
  split; [|split; [|split; [|split; [|split]]]].
  - intros H. rewrite (tankAttack_hit w H). split; reflexivity.
  - intros H. rewrite (tankAttack_miss w H). reflexivity.
  - unfold tankAttack. destruct (_ && _); reflexivity.
  - unfold tankAttack. destruct (_ && _); reflexivity.
  - unfold tankAttack. destruct (_ && _); reflexivity.
  - intros Hlos Hhp w1 w2 w3.
    assert (H0 : attackHits w = true) by (unfold attackHits; rewrite Hlos; reflexivity).
    assert (H1 : attackHits w1 = true)
      by (unfold w1; rewrite attackHits_tankAttack; exact H0).
    assert (H2 : attackHits w2 = true)
      by (unfold w2; rewrite attackHits_tankAttack; exact H1).
    assert (E1 : hp (enemy w1) = 60)
      by (unfold w1; rewrite (tankAttack_hit w H0); simpl; lia).
    assert (E2 : hp (enemy w2) = 20)
      by (unfold w2; rewrite (tankAttack_hit w1 H1); simpl; lia).
    assert (E3 : hp (enemy w3) = 0)
      by (unfold w3; rewrite (tankAttack_hit w2 H2); simpl; lia).
    repeat split; try assumption.
    + unfold w1. rewrite (tankAttack_hit w H0). reflexivity.
    + unfold w2. rewrite (tankAttack_hit w1 H1). reflexivity.
    + unfold w3. rewrite (tankAttack_hit w2 H2). reflexivity.
Qed.

(** The scenario of C5 on a world: the opponent two cells above the actor,
    who faces up. *)
Example tankAttack_three_hits :
  let w := {| player := {| x := 4; y := 6; dir := 0; hp := 100 |};
              enemy := {| x := 4; y := 4; dir := 2; hp := 100 |};
              tick := 0; message := "" |} in
  map (fun n => hp (enemy (Nat.iter n tankAttack w))) [1; 2; 3; 4]%nat
  = [60; 20; 0; 0].
Proof. reflexivity. Qed.

(** ** Enemy policy *)

(** The comparison of the source, [Math.abs(dx) > Math.abs(dy)] on the signs
    of the offsets, and the facing it selects. *)
Lemma enemy_pref_chaseFacing (w : World) :
  let dx := Z.sgn (x (player w) - x (enemy w)) in
  let dy := Z.sgn (y (player w) - y (enemy w)) in
  (if Z.abs dx >? Z.abs dy then (if dx >? 0 then 1 else 3)
   else (if dy >? 0 then 2 else 0)) = chaseFacing w.
Proof.
  unfold chaseFacing. cbv zeta.
  destruct (Z.eqb_spec (y (player w)) (y (enemy w))) as [Hy|Hy];
  destruct (Z.eqb_spec (x (player w)) (x (enemy w))) as [Hx|Hx]; simpl;
  repeat match goal with
         | |- context [Z.gtb ?a ?b] => destruct (Z.gtb_spec a b)
         end; try reflexivity; lia.
Qed.

Lemma chaseFacing_range (w : World) :
  chaseFacing w = 0 \/ chaseFacing w = 1 \/ chaseFacing w = 2
  \/ chaseFacing w = 3.
Proof.
  unfold chaseFacing.
  destruct (_ && _); [destruct (_ >? _)|destruct (_ >? _)]; auto.
Qed.

Lemma enemyStep_moves (w : World) :
  0 < hp (enemy w) -> enemyFires w = false ->
  enemyStep w = Returns (setEnemy w (advanceAlong (enemy w) (chaseFacing w))).
Proof.
  intros Hhp Hf. unfold enemyStep.
  destruct (Z.leb_spec (hp (enemy w)) 0); [lia|].
  unfold enemyFires in Hf. rewrite Hf.
  pose proof (enemy_pref_chaseFacing w) as E. cbv zeta in E. rewrite E.
  unfold advanceAlong. simpl dir.
  destruct (chaseFacing_range w) as [R|[R|[R|R]]]; rewrite R; reflexivity.
Qed.

(** X30. The chase as the code has it, which compares the absolute values of
    the signs of the two offsets.  When the opponent is alive and does not
    fire, [enemyStep] turns it toward the actor along the row only if the
    actor is in its row and in another column, and along the column otherwise
    (down when the actor is below, up when it is above or on the same cell);
    the opponent then moves one cell along the new facing, both coordinates
    clamped to the grid, and nothing else changes. *)
Theorem enemyStep_chase (w : World) :
  0 < hp (enemy w) -> enemyFires w = false ->
  exists dx dy,
    DIRS_at (chaseFacing w) = Some (dx, dy)
    /\ enemyStep w =
         Returns (setEnemy w
           {| x := clamp (x (enemy w) + dx) 0 (GRID - 1);
              y := clamp (y (enemy w) + dy) 0 (GRID - 1);
              dir := chaseFacing w;
              hp := hp (enemy w) |})
    /\ (y (player w) = y (enemy w) -> x (enemy w) < x (player w) ->
        chaseFacing w = 1)
    /\ (y (player w) = y (enemy w) -> x (player w) < x (enemy w) ->
        chaseFacing w = 3)
    /\ (y (enemy w) < y (player w) -> chaseFacing w = 2)
    /\ (y (player w) < y (enemy w) -> chaseFacing w = 0)
    /\ (y (player w) = y (enemy w) -> x (player w) = x (enemy w) ->
        chaseFacing w = 0).
Proof.
  intros Hhp Hf.
  assert (exists dx dy, DIRS_at (chaseFacing w) = Some (dx, dy)) as (dx & dy & Hd).
  { destruct (chaseFacing_range w) as [R|[R|[R|R]]]; rewrite R;
      do 2 eexists; reflexivity. }
  exists dx, dy. split; [exact Hd|]. split.
  - rewrite (enemyStep_moves w Hhp Hf). unfold advanceAlong. rewrite Hd.
    reflexivity.
  - unfold chaseFacing. repeat split; intros;
      repeat match goal with
             | |- context [Z.eqb ?a ?b] => destruct (Z.eqb_spec a b)
             | |- context [Z.gtb ?a ?b] => destruct (Z.gtb_spec a b)
             end; simpl; try reflexivity; lia.
Qed.

(** X30 in [offAxisWorld], where the opponent is alive and does not fire. *)
Lemma enemyStep_chase_witness :
  exists dx dy,
    DIRS_at (chaseFacing offAxisWorld) = Some (dx, dy)
    /\ enemyStep offAxisWorld =
         Returns (setEnemy offAxisWorld
           {| x := clamp (x (enemy offAxisWorld) + dx) 0 (GRID - 1);
              y := clamp (y (enemy offAxisWorld) + dy) 0 (GRID - 1);
              dir := chaseFacing offAxisWorld;
              hp := hp (enemy offAxisWorld) |})
    /\ (y (player offAxisWorld) = y (enemy offAxisWorld) ->
        x (enemy offAxisWorld) < x (player offAxisWorld) ->
        chaseFacing offAxisWorld = 1)
    /\ (y (player offAxisWorld) = y (enemy offAxisWorld) ->
        x (player offAxisWorld) < x (enemy offAxisWorld) ->
        chaseFacing offAxisWorld = 3)
    /\ (y (enemy offAxisWorld) < y (player offAxisWorld) ->
        chaseFacing offAxisWorld = 2)
    /\ (y (player offAxisWorld) < y (enemy offAxisWorld) ->
        chaseFacing offAxisWorld = 0)
    /\ (y (player offAxisWorld) = y (enemy offAxisWorld) ->
        x (player offAxisWorld) = x (enemy offAxisWorld) ->
        chaseFacing offAxisWorld = 0).
Proof.
  apply (enemyStep_chase offAxisWorld); [simpl; lia | reflexivity].
Defined.

(** C1. [enemyStep] does not turn the opponent along the axis of the larger
    offset.  In [offAxisWorld] the actor is five columns away and one row
    below: the opponent is alive and does not fire, the larger offset is along
    the row, so that the opponent should turn right and move to (6, 5); the
    code turns it down and moves it to (5, 6). *)
Theorem enemyStep_ignores_larger_offset :
  0 < hp (enemy offAxisWorld)
  /\ enemyFires offAxisWorld = false
  /\ Z.abs (x (player offAxisWorld) - x (enemy offAxisWorld))
     > Z.abs (y (player offAxisWorld) - y (enemy offAxisWorld))
  /\ largerOffsetFacing offAxisWorld = 1
  /\ enemyStep offAxisWorld =
       Returns (setEnemy offAxisWorld {| x := 5; y := 6; dir := 2; hp := 100 |})
  /\ enemyStep offAxisWorld <>
       Returns (setEnemy offAxisWorld
                  (advanceAlong (enemy offAxisWorld)
                     (largerOffsetFacing offAxisWorld))).
Proof.
  repeat split; try reflexivity; try (simpl; lia).
  vm_compute. discriminate.
Qed.
(** ** Plain objects: what an assignment and a call can do *)

Lemma inherited_names (name : string) (m : member) :
  inherited name = Some m <-> In (name, m) Object_prototype.
Proof.
  unfold inherited. split.
  - intros H.
    destruct (List.find _ Object_prototype) as [[k v]|] eqn:E; [|discriminate].
    apply List.find_some in E. destruct E as [Hin Hk].
    simpl in Hk. apply String.eqb_eq in Hk. simpl in H. congruence.
  - intros Hin. simpl in Hin.
    repeat (destruct Hin as [Hin|Hin];
            [injection Hin as <- <-; reflexivity|]).
    contradiction.
Qed.

Lemma setVar_frame (rt : Runtime) (k : string) (v : number) :
  pc (setVar rt k v) = pc rt /\ stack (setVar rt k v) = stack rt
  /\ enemySeen (setVar rt k v) = enemySeen rt.
Proof. unfold setVar. destruct (callsSetter rt k); auto. Qed.

(** An assignment that stays in the model leaves the counter, the stack and
    [enemySeen] alone. *)
Lemma assignVar_frame (rt : Runtime) (k : string) (v : value) (rt1 : Runtime) :
  assignVar rt k v = Returns rt1 ->
  pc rt1 = pc rt /\ stack rt1 = stack rt /\ enemySeen rt1 = enemySeen rt.
Proof.
  destruct v as [n|m]; simpl.
  - intros H. injection H as <-. apply setVar_frame.
  - destruct (callsSetter rt k); [|discriminate].
    destruct m; [discriminate|]. intros H. injection H as <-. auto.
Qed.

Lemma advance_vars (rt : Runtime) :
  vars (advance rt) = vars rt /\ enemySeen (advance rt) = enemySeen rt.
Proof. unfold advance. destruct (stack rt); split; reflexivity. Qed.

Lemma lookupVar_advance (rt : Runtime) (name : string) :
  lookupVar (advance rt) name = lookupVar rt name.
Proof. unfold lookupVar. rewrite (proj1 (advance_vars rt)). reflexivity. Qed.

Lemma callsSetter_true (rt : Runtime) (k : string) :
  callsSetter rt k = true <-> k = "__proto__" /\ vars rt !! k = None.
Proof.
  unfold callsSetter. rewrite andb_true_iff, String.eqb_eq.
  destruct (vars rt !! k); split; intros [? ?]; split; congruence.
Qed.

(** What the assigned name reads after the assignment: the number stored, or
    [Object.prototype] when the setter of [__proto__] was called. *)
Lemma assignVar_read (rt : Runtime) (k : string) (v : value) (rt1 : Runtime) :
  assignVar rt k v = Returns rt1 ->
  if callsSetter rt k
  then rt1 = rt /\ lookupVar rt1 k = Some (VMember Prototype)
  else exists n, v = VNumber n /\ vars rt1 = <[k := n]> (vars rt)
                 /\ lookupVar rt1 k = Some (VNumber n).
Proof.
  intros H.
  assert (Hproto : callsSetter rt k = true ->
            lookupVar rt k = Some (VMember Prototype)).
  { intros Hc. apply callsSetter_true in Hc. destruct Hc as [-> Hn].
    unfold lookupVar. rewrite Hn. reflexivity. }
  destruct v as [n|m]; simpl in H.
  - injection H as <-. unfold setVar.
    destruct (callsSetter rt k) eqn:Hc; [split; [reflexivity|auto]|].
    exists n. split; [reflexivity|]. split; [reflexivity|].
    unfold lookupVar. simpl. rewrite lookup_insert_eq. reflexivity.
  - destruct (callsSetter rt k) eqn:Hc; [|discriminate].
    destruct m; [discriminate|]. injection H as <-. auto.
Qed.

Lemma assignVar_shown (rt : Runtime) (k : string) (v : value) (rt1 : Runtime) :
  assignVar rt k v = Returns rt1 ->
  exists text, showValue (lookupVar rt1 k) = Returns text.
Proof.
  intros H. pose proof (assignVar_read rt k v rt1 H) as R.
  destruct (callsSetter rt k).
  - destruct R as [_ ->]. eexists. reflexivity.
  - destruct R as (n & _ & _ & ->). eexists. reflexivity.
Qed.

(** The [assign] case of [execStmt], read backwards and forwards. *)
Lemma execStmt_assign_inv (w : World) (prog : Program) (rt : Runtime)
  (name : string) (value : Expr) (w' : World) (rt' : Runtime) (b : bool) :
  execStmt w prog rt (SAssign name value) = Returns (w', rt', b) ->
  exists rt1 text,
    assignVar rt name (getVal value rt) = Returns rt1
    /\ showValue (lookupVar rt1 name) = Returns text
    /\ w' = setMessage w ("$" +:+ name +:+ " = " +:+ text)
    /\ rt' = advance rt1 /\ b = true.
Proof.
  simpl. destruct (assignVar rt name (getVal value rt)) as [rt1| | |];
    try discriminate.
  simpl. rewrite lookupVar_advance.
  destruct (showValue (lookupVar rt1 name)) as [text| | |] eqn:Et;
    try discriminate.
  simpl. intros H. injection H as <- <- <-. exists rt1, text. auto 10.
Qed.

Lemma execStmt_assign (w : World) (prog : Program) (rt : Runtime)
  (name : string) (value : Expr) (rt1 : Runtime) :
  assignVar rt name (getVal value rt) = Returns rt1 ->
  exists text,
    showValue (lookupVar rt1 name) = Returns text
    /\ execStmt w prog rt (SAssign name value)
       = Returns (setMessage w ("$" +:+ name +:+ " = " +:+ text),
                  advance rt1, true).
Proof.
  intros H. destruct (assignVar_shown rt name _ rt1 H) as [text Ht].
  exists text. split; [exact Ht|].
  simpl. rewrite H. simpl. rewrite lookupVar_advance, Ht. reflexivity.
Qed.

(** The [call] case of [execStmt]. *)
Lemma execStmt_call_inv (w : World) (prog : Program) (rt : Runtime)
  (name : string) (w' : World) (rt' : Runtime) (b : bool) :
  execStmt w prog rt (SCall name) = Returns (w', rt', b) ->
  w' = setMessage w ("CALL " +:+ name) /\ b = true
  /\ ((callee prog name = Returns None /\ rt' = advance rt)
      \/ exists body,
           callee prog name = Returns (Some body)
           /\ rt' = push (advance rt) (frameAt name 0 body)).
Proof.
  simpl. destruct (callee prog name) as [[body|]| | |]; try discriminate;
    simpl; intros H; injection H as <- <- <-; eauto 6.
Qed.

(** The [if] case never leaves the model: a member is not zero, so the text
    of the condition is asked of a number only. *)
Lemma execStmt_if (w : World) (prog : Program) (rt : Runtime)
  (cond : Expr) (th : Stmt) (el : option Stmt) :
  execStmt w prog rt (SIf cond th el)
  = match chosenBranch cond th el rt with
    | Some s => Returns (w, push rt (ifFrame s), true)
    | None =>
        Returns (setMessage w
                   ("IF (" +:+ numberToString (toNumber (getVal cond rt))
                    +:+ ") no-op"),
                 advance rt, true)
    end.
Proof.
  simpl. unfold chosenBranch.
  destruct (getVal cond rt) as [n|m]; simpl; [|reflexivity].
  destruct (nonZero n); [reflexivity|]. destruct el; reflexivity.
Qed.

Lemma getVal_advance (e : Expr) (rt : Runtime) :
  getVal e (advance rt) = getVal e rt.
Proof. destruct e; [reflexivity|]. simpl. rewrite lookupVar_advance. reflexivity. Qed.

(** Reading a variable after a number was stored under another name, or
    under the same. *)
Lemma lookupVar_setVar_ne (rt : Runtime) (k other : string) (v : number) :
  other <> k -> lookupVar (setVar rt k v) other = lookupVar rt other.
Proof.
  intros Hne. unfold setVar. destruct (callsSetter rt k); [reflexivity|].
  unfold lookupVar. simpl. rewrite lookup_insert_ne by congruence.
  reflexivity.
Qed.

Lemma lookupVar_setVar_eq (rt : Runtime) (k : string) (v : number) :
  callsSetter rt k = false ->
  lookupVar (setVar rt k v) k = Some (VNumber v).
Proof.
  intros Hc. unfold setVar. rewrite Hc. unfold lookupVar. simpl.
  rewrite lookup_insert_eq. reflexivity.
Qed.

(** ** The stepper: fetching, finishing, popping *)

Lemma activeStmt_lt (prog : Program) (rt : Runtime) (s : Stmt) :
  activeStmt prog rt = Some s ->
  (length (activeList prog rt) <=? activePc rt)%nat = false.
Proof.
  unfold activeStmt. intros H. apply lookup_lt_Some in H.
  apply Nat.leb_gt. exact H.
Qed.

Lemma stepProgram_exec (w : World) (prog : Program) (rt : Runtime) (s : Stmt) :
  activeStmt prog rt = Some s -> stepProgram w prog rt = execStmt w prog rt s.
Proof.
  intros H. unfold stepProgram. rewrite (activeStmt_lt _ _ _ H).
  unfold activeStmt in H. rewrite H. reflexivity.
Qed.

Lemma stepProgram_finished (w : World) (prog : Program) (rt : Runtime) :
  stack rt = [] -> (length (stmts prog) <= pc rt)%nat ->
  stepProgram w prog rt = Returns (w, rt, false).
Proof.
  intros Hs Hpc. unfold stepProgram, activeList, activePc. rewrite Hs. simpl.
  apply Nat.leb_le in Hpc. rewrite Hpc. reflexivity.
Qed.

Lemma stepProgram_pop (w : World) (prog : Program) (rt : Runtime)
  (f : Frame.t) (below : list Frame.t) :
  stack rt = f :: below -> (length (Frame.body f) <= Frame.pc f)%nat ->
  stepProgram w prog rt = Returns (w, setStack rt below, true).
Proof.
  intros Hs Hpc. unfold stepProgram, activeList, activePc, pop. rewrite Hs.
  simpl. apply Nat.leb_le in Hpc. rewrite Hpc. reflexivity.
Qed.

Lemma stepN_finished (n : nat) (w : World) (prog : Program) (rt : Runtime) :
  stack rt = [] -> (length (stmts prog) <= pc rt)%nat ->
  stepN n prog w rt = Returns (w, rt).
Proof.
  intros Hs Hpc. induction n as [|n IH]; [reflexivity|].
  simpl. rewrite (stepProgram_finished w prog rt Hs Hpc). simpl. exact IH.
Qed.

(** C8. With an empty call stack and the top-level counter at or past the end
    of the program, [stepProgram] returns [false] and leaves the world and the
    runtime as they are, so any number of further calls does the same; with a
    frame on top whose counter is at or past the end of its body, it removes
    that frame alone, returns [true] and leaves the world as it is. *)
Theorem stepProgram_past_end (w : World) (prog : Program) (rt : Runtime) :
  (stack rt = [] -> (length (stmts prog) <= pc rt)%nat ->
     stepProgram w prog rt = Returns (w, rt, false)
     /\ forall n, stepN n prog w rt = Returns (w, rt))
  /\ (forall f below,
        stack rt = f :: below -> (length (Frame.body f) <= Frame.pc f)%nat ->
        stepProgram w prog rt =
          Returns (w,
                   {| pc := pc rt; stack := below; vars := vars rt;
                      enemySeen := enemySeen rt |},
                   true)).
Proof.
  split.
  - intros Hs Hpc. split.
    + apply stepProgram_finished; assumption.
    + intros n. apply stepN_finished; assumption.
  - intros f below Hs Hpc. apply (stepProgram_pop w prog rt f below Hs Hpc).
Qed.

(** The two cases of C8 on a finished one-statement program and on a drained
    frame. *)
Example stepProgram_past_end_examples :
  let prog := {| stmts := [SNoop]; functions := ∅ |} in
  let done := setPc makeRuntime 1 in
  let frame := {| Frame.name := "<if>"; Frame.pc := 1; Frame.body := [SAttack] |} in
  stepProgram makeInitialWorld prog done = Returns (makeInitialWorld, done, false)
  /\ stepProgram makeInitialWorld prog (push makeRuntime frame)
     = Returns (makeInitialWorld, makeRuntime, true).
Proof. split; reflexivity. Qed.

(** A move by [Infinity] never returns: the loop of [tankMove] has no end.  A
    move with a facing outside [DIRS] throws. *)
Example move_outcomes :
  (exists prog,
     parseProgram "MOVE Infinity FORWARD;" = Some prog
     /\ stmts prog = [SMove (ENumber (S754_infinity false)) "FORWARD"]
     /\ stepProgram makeInitialWorld prog makeRuntime = Diverges)
  /\ stepProgram
       (setPlayer makeInitialWorld (setDir (player makeInitialWorld) 7))
       {| stmts := [SMove (ENumber (ofZ 1)) "FORWARD"]; functions := ∅ |}
       makeRuntime
     = Throws.
Proof.
  split; [eexists; split; [vm_compute; reflexivity|]|]; vm_compute; auto.
Qed.

(** ** The stack below the top frame *)

Lemma advance_frame (rt : Runtime) (f : Frame.t) (below : list Frame.t) :
  stack rt = f :: below ->
  advance rt = setStack rt (incrFrame f :: below).
Proof. unfold advance. intros ->. reflexivity. Qed.

(** What one step does to a non-empty stack: it removes the top frame, or
    keeps it (perhaps with its counter advanced), or pushes one frame on it;
    the frames below and the top-level counter stay. *)
Lemma stepProgram_stack (w : World) (prog : Program) (rt : Runtime)
  (f : Frame.t) (below : list Frame.t)
  (w' : World) (rt' : Runtime) (b : bool) :
  stack rt = f :: below ->
  stepProgram w prog rt = Returns (w', rt', b) ->
  pc rt' = pc rt
  /\ (stack rt' = below
      \/ (exists f', stack rt' = f' :: below)
      \/ (exists g f', stack rt' = g :: f' :: below)).
Proof.
  intros Hs H. unfold stepProgram in H.
  destruct (length (activeList prog rt) <=? activePc rt)%nat.
  - rewrite Hs in H. simpl in H. injection H as <- <- <-.
    unfold pop. rewrite Hs. simpl. auto.
  - destruct (activeList prog rt !! activePc rt) as [s|]; [|discriminate].
    destruct s as [name value|amount d|d| | |cond th el|name| |name body].
    + apply execStmt_assign_inv in H.
      destruct H as (rt1 & text & Ha & _ & _ & -> & _).
      destruct (assignVar_frame rt name _ rt1 Ha) as (Hpc & Hst & _).
      rewrite Hs in Hst. rewrite (advance_frame rt1 f below Hst). simpl. eauto.
    + simpl in H. destruct (tankMove w d _); simpl in H; try discriminate.
      injection H as <- <- <-. rewrite (advance_frame rt f below Hs). simpl. eauto.
    + simpl in H.
      injection H as <- <- <-. rewrite (advance_frame rt f below Hs). simpl. eauto.
    + simpl in H.
      injection H as <- <- <-. unfold advance. simpl. rewrite Hs. simpl. eauto.
    + simpl in H.
      injection H as <- <- <-. rewrite (advance_frame rt f below Hs). simpl. eauto.
    + rewrite execStmt_if in H.
      destruct (chosenBranch cond th el rt).
      * injection H as <- <- <-. unfold push. simpl. rewrite Hs. eauto 6.
      * injection H as <- <- <-. rewrite (advance_frame rt f below Hs). simpl. eauto.
    + apply execStmt_call_inv in H.
      destruct H as (_ & _ & [[_ ->]|(body & _ & ->)]);
        rewrite (advance_frame rt f below Hs); simpl; eauto 6.
    + simpl in H.
      injection H as <- <- <-. rewrite (advance_frame rt f below Hs). simpl. eauto.
    + simpl in H.
      injection H as <- <- <-. rewrite (advance_frame rt f below Hs). simpl. eauto.
Qed.

(** While frames lie on a base stack, a step leaves the base and the
    top-level counter alone. *)
Lemma stepProgram_above (w : World) (prog : Program) (rt : Runtime)
  (base : list Frame.t) (pre : list Frame.t)
  (w' : World) (rt' : Runtime) (b : bool) :
  pre <> [] -> stack rt = (pre ++ base)%list ->
  stepProgram w prog rt = Returns (w', rt', b) ->
  pc rt' = pc rt /\ exists pre', stack rt' = (pre' ++ base)%list.
Proof.
  intros Hne Hs H. destruct pre as [|f pre]; [contradiction|].
  simpl in Hs.
  destruct (stepProgram_stack w prog rt f (pre ++ base)%list w' rt' b Hs H)
    as [Hpc [E|[[f' E]|[g [f' E]]]]]; split; try exact Hpc.
  - exists pre. exact E.
  - exists (f' :: pre). exact E.
  - exists (g :: f' :: pre). exact E.
Qed.

Lemma app_eq_self {A : Type} (pre base : list A) :
  (pre ++ base)%list = base -> pre = [].
Proof.
  intros H. apply (f_equal (@length A)) in H. rewrite length_app in H.
  destruct pre; [reflexivity|simpl in H; lia].
Qed.

Lemma stepN_S (n : nat) (prog : Program) (w : World) (rt : Runtime) :
  stepN (S n) prog w rt =
    call (w1, rt1, _) := stepProgram w prog rt in stepN n prog w1 rt1.
Proof. reflexivity. Qed.

Lemma stepN_S_last (n : nat) (prog : Program) (w : World) (rt : Runtime) :
  stepN (S n) prog w rt =
    call (w1, rt1) := stepN n prog w rt in
    call (w2, rt2, _) := stepProgram w1 prog rt1 in Returns (w2, rt2).
Proof.
  revert w rt. induction n as [|n IH]; intros w rt.
  - rewrite stepN_S. unfold stepN, bind.
    destruct (stepProgram w prog rt) as [[[w1 rt1] b]| | |]; reflexivity.
  - rewrite stepN_S. rewrite (stepN_S n).
    destruct (stepProgram w prog rt) as [[[w1 rt1] b]| | |]; try reflexivity.
    unfold bind at 1. rewrite IH. reflexivity.
Qed.

(** As long as the run has not come back to the base stack, it stays on top
    of it and the top-level counter keeps its value. *)
Lemma stepN_above (n : nat) (prog : Program) (w : World) (rt : Runtime)
  (base : list Frame.t) (w' : World) (rt' : Runtime) :
  (exists pre, stack rt = (pre ++ base)%list) ->
  stepN n prog w rt = Returns (w', rt') ->
  (forall k wk rtk, (k < n)%nat -> stepN k prog w rt = Returns (wk, rtk) ->
     stack rtk <> base) ->
  pc rt' = pc rt /\ exists pre, stack rt' = (pre ++ base)%list.
Proof.
  revert w' rt'. induction n as [|n IH]; intros w' rt' Hpre H Hnot.
  - simpl in H. injection H as <- <-. split; [reflexivity|exact Hpre].
  - rewrite stepN_S_last in H.
    destruct (stepN n prog w rt) as [[wn rtn]| | |] eqn:En; try discriminate.
    simpl in H.
    destruct (stepProgram wn prog rtn) as [[[w2 rt2] b]| | |] eqn:Es;
      try discriminate.
    simpl in H. injection H as <- <-.
    destruct (IH wn rtn Hpre eq_refl) as [Hpc [pre Hst]].
    { intros k wk rtk Hk. apply Hnot. lia. }
    assert (Hne : pre <> []).
    { intros ->. apply (Hnot n wn rtn); [lia|exact En|exact Hst]. }
    destruct (stepProgram_above wn prog rtn base pre w2 rt2 b Hne Hst Es)
      as [Hpc2 Hst2].
    split; [congruence|exact Hst2].
Qed.

(** ** Statements that take one step *)

Lemma activeStmt_frame (prog : Program) (rt : Runtime)
  (f : Frame.t) (below : list Frame.t) :
  stack rt = f :: below ->
  activeStmt prog rt = Frame.body f !! Frame.pc f.
Proof. unfold activeStmt, activeList, activePc. intros ->. reflexivity. Qed.

Lemma activeStmt_same (prog : Program) (rt rt' : Runtime) :
  stack rt' = stack rt -> pc rt' = pc rt ->
  activeStmt prog rt' = activeStmt prog rt.
Proof.
  unfold activeStmt, activeList, activePc. intros -> ->. reflexivity.
Qed.

Lemma stepProgram_oneStep (w : World) (prog : Program) (rt : Runtime)
  (f : Frame.t) (below : list Frame.t) (s : Stmt) :
  stack rt = f :: below ->
  Frame.body f !! Frame.pc f = Some s ->
  oneStep w prog rt s = true ->
  exists w' rt',
    stepProgram w prog rt = Returns (w', rt', true)
    /\ stack rt' = incrFrame f :: below /\ pc rt' = pc rt.
Proof.
  intros Hs Hf Hq.
  rewrite (stepProgram_exec w prog rt s)
    by (rewrite (activeStmt_frame prog rt f below Hs); exact Hf).
  destruct s as [name value|amount d|d| | |cond th el|name| |name body];
    simpl in Hq.
  - destruct (assignVar rt name (getVal value rt)) as [rt1| | |] eqn:Ha;
      try discriminate.
    destruct (execStmt_assign w prog rt name value rt1 Ha) as (text & _ & ->).
    destruct (assignVar_frame rt name _ rt1 Ha) as (Hpc & Hst & _).
    rewrite Hs in Hst.
    do 2 eexists. split; [reflexivity|].
    rewrite (advance_frame rt1 f below Hst). auto.
  - simpl. destruct (tankMove w d _) as [w1| | |]; try discriminate.
    do 2 eexists. split; [reflexivity|].
    rewrite (advance_frame rt f below Hs). auto.
  - do 2 eexists. split; [reflexivity|].
    rewrite (advance_frame rt f below Hs). auto.
  - do 2 eexists. split; [reflexivity|]. unfold advance. simpl. rewrite Hs. auto.
  - do 2 eexists. split; [reflexivity|].
    rewrite (advance_frame rt f below Hs). auto.
  - rewrite execStmt_if.
    destruct (chosenBranch cond th el rt); [discriminate|].
    do 2 eexists. split; [reflexivity|].
    rewrite (advance_frame rt f below Hs). auto.
  - simpl. destruct (callee prog name) as [[body|]| | |]; try discriminate.
    do 2 eexists. split; [reflexivity|].
    rewrite (advance_frame rt f below Hs). auto.
  - do 2 eexists. split; [reflexivity|].
    rewrite (advance_frame rt f below Hs). auto.
  - do 2 eexists. split; [reflexivity|].
    rewrite (advance_frame rt f below Hs). auto.
Qed.

(** ** Conditionals *)

Lemma stepProgram_if_push (w : World) (prog : Program) (rt : Runtime)
  (cond : Expr) (th : Stmt) (el : option Stmt) (s : Stmt) :
  activeStmt prog rt = Some (SIf cond th el) ->
  chosenBranch cond th el rt = Some s ->
  stepProgram w prog rt = Returns (w, push rt (ifFrame s), true).
Proof.
  intros Ha Hc. rewrite (stepProgram_exec w prog rt _ Ha).
  rewrite execStmt_if, Hc. reflexivity.
Qed.

(** C10. When the active statement is an [if] that selects a branch,
    [stepProgram] pushes the frame ["<if>"] holding that branch alone and
    changes nothing else: the enclosing counter does not move.  For as long
    as the run has not come back to the stack of the [if], the frames of that
    stack and the top-level counter stay as they were, so when the branch
    frame is gone the same [if] is the active statement again.  For a branch
    that takes one step this happens after three steps: select, execute,
    pop. *)
Theorem if_branch_never_advances (w : World) (prog : Program) (rt : Runtime)
  (cond : Expr) (th : Stmt) (el : option Stmt) (s : Stmt) :
  activeStmt prog rt = Some (SIf cond th el) ->
  chosenBranch cond th el rt = Some s ->
  let rtIf :=
    {| pc := pc rt; stack := ifFrame s :: stack rt; vars := vars rt;
       enemySeen := enemySeen rt |} in
  stepProgram w prog rt = Returns (w, rtIf, true)
  /\ (forall n w' rt',
        stepN n prog w rtIf = Returns (w', rt') ->
        (forall k wk rtk, (k < n)%nat ->
           stepN k prog w rtIf = Returns (wk, rtk) -> stack rtk <> stack rt) ->
        pc rt' = pc rt
        /\ (exists pre, stack rt' = (pre ++ stack rt)%list)
        /\ (stack rt' = stack rt ->
            activeStmt prog rt' = Some (SIf cond th el)))
  /\ (oneStep w prog rtIf s = true ->
      exists w' rt',
        stepN 3 prog w rt = Returns (w', rt')
        /\ stack rt' = stack rt /\ pc rt' = pc rt
        /\ activeStmt prog rt' = Some (SIf cond th el)).
Proof.
  intros Ha Hc rtIf.
  assert (Hstep : stepProgram w prog rt = Returns (w, rtIf, true))
    by exact (stepProgram_if_push w prog rt cond th el s Ha Hc).
  split; [exact Hstep|]. split.
  - intros n w' rt' Hn Hnot.
    destruct (stepN_above n prog w rtIf (stack rt) w' rt') as [Hpc Hpre];
      [exists [ifFrame s]; reflexivity|exact Hn|exact Hnot|].
    split; [exact Hpc|]. split; [exact Hpre|].
    intros Hst. rewrite (activeStmt_same prog rt rt' Hst Hpc). exact Ha.
  - intros Hq.
    destruct (stepProgram_oneStep w prog rtIf (ifFrame s) (stack rt) s
                eq_refl eq_refl Hq) as (w1 & rt1 & Hs1 & Hst1 & Hpc1).
    exists w1, (setStack rt1 (stack rt)).
    assert (Hpop : stepProgram w1 prog rt1
                   = Returns (w1, setStack rt1 (stack rt), true)).
    { apply (stepProgram_pop w1 prog rt1 (incrFrame (ifFrame s)) (stack rt) Hst1).
      simpl. lia. }
    split.
    + rewrite stepN_S, Hstep. unfold bind at 1.
      rewrite stepN_S, Hs1. unfold bind at 1.
      rewrite stepN_S, Hpop. reflexivity.
    + split; [reflexivity|]. split; [exact Hpc1|].
      rewrite (activeStmt_same prog rt (setStack rt1 (stack rt)) eq_refl Hpc1).
      exact Ha.
Qed.

(** C10 on [ifForever], from the initial world and a fresh runtime. *)
Lemma if_branch_never_advances_witness :
  let w := makeInitialWorld in
  let rt := makeRuntime in
  let rtIf :=
    {| pc := pc rt; stack := ifFrame SAttack :: stack rt; vars := vars rt;
       enemySeen := enemySeen rt |} in
  stepProgram w ifForever rt = Returns (w, rtIf, true)
  /\ (forall n w' rt',
        stepN n ifForever w rtIf = Returns (w', rt') ->
        (forall k wk rtk, (k < n)%nat ->
           stepN k ifForever w rtIf = Returns (wk, rtk) ->
           stack rtk <> stack rt) ->
        pc rt' = pc rt
        /\ (exists pre, stack rt' = (pre ++ stack rt)%list)
        /\ (stack rt' = stack rt ->
            activeStmt ifForever rt'
            = Some (SIf (ENumber (ofZ 1)) SAttack None)))
  /\ (oneStep w ifForever rtIf SAttack = true ->
      exists w' rt',
        stepN 3 ifForever w rt = Returns (w', rt')
        /\ stack rt' = stack rt /\ pc rt' = pc rt
        /\ activeStmt ifForever rt'
           = Some (SIf (ENumber (ofZ 1)) SAttack None)).
Proof.
  apply (if_branch_never_advances makeInitialWorld ifForever makeRuntime
           (ENumber (ofZ 1)) SAttack None SAttack); reflexivity.
Defined.

(** The loop of C10 run: after 3, 6 and 9 steps the counter is still 0 and
    the stack is empty again. *)
Example ifForever_loops :
  map (fun n =>
         match stepN n ifForever makeInitialWorld makeRuntime with
         | Returns (_, rt) => Some (pc rt, length (stack rt))
         | _ => None
         end) [1; 2; 3; 6; 9]%nat
  = [Some (0, 1); Some (0, 1); Some (0, 0); Some (0, 0); Some (0, 0)]%nat.
Proof. vm_compute. reflexivity. Qed.

(** ** Calls *)

Lemma advance_active (prog : Program) (rt : Runtime) :
  activeList prog (advance rt) = activeList prog rt
  /\ activePc (advance rt) = S (activePc rt).
Proof.
  unfold activeList, activePc, advance.
  destruct (stack rt) as [|f below] eqn:E; simpl; rewrite ?E; auto.
Qed.

Lemma stepN_drain (prog : Program) (name : string) (body : list Stmt)
  (below : list Frame.t) (m : nat) :
  forall (k : nat) (w : World) (rt : Runtime),
  stack rt = frameAt name k body :: below ->
  (k + m = length body)%nat ->
  (forall j wj rtj s, (j < m)%nat ->
     stepN j prog w rt = Returns (wj, rtj) ->
     body !! (k + j)%nat = Some s -> oneStep wj prog rtj s = true) ->
  forall j, (j <= m)%nat ->
    exists wj rtj,
      stepN j prog w rt = Returns (wj, rtj)
      /\ stack rtj = frameAt name (k + j) body :: below
      /\ pc rtj = pc rt.
Proof.
  induction m as [|m IH]; intros k w rt Hs Hlen Hq j Hj.
  - assert (j = 0)%nat as -> by lia. exists w, rt.
    rewrite Nat.add_0_r. auto.
  - destruct j as [|j].
    { exists w, rt. rewrite Nat.add_0_r. auto. }
    destruct (lookup_lt_is_Some_2 body k) as [s Hk]; [lia|].
    assert (Hq0 : oneStep w prog rt s = true).
    { apply (Hq 0%nat w rt s); [lia|reflexivity|].
      rewrite Nat.add_0_r. exact Hk. }
    destruct (stepProgram_oneStep w prog rt (frameAt name k body) below s
                Hs Hk Hq0) as (w1 & rt1 & Hs1 & Hst1 & Hpc1).
    destruct (IH (S k) w1 rt1 Hst1 ltac:(lia)) with (j := j)
      as (wj & rtj & Hrun & Hst & Hpc); [|lia|].
    { intros i wi rti si Hi Hrun Hb.
      apply (Hq (S i) wi rti si); [lia| |].
      - rewrite stepN_S, Hs1. exact Hrun.
      - replace (k + S i)%nat with (S k + i)%nat by lia. exact Hb. }
    exists wj, rtj. split; [|split].
    + rewrite stepN_S, Hs1. exact Hrun.
    + replace (k + S j)%nat with (S k + j)%nat by lia. exact Hst.
    + congruence.
Qed.

(** C3 (as the code has it). After the step that executes [CALL name] for a
    function of [N] statements, if each statement of the body, when its turn
    comes, takes one step (it is not a call of a name that the function table
    holds or inherits from [Object.prototype], not an [if] that selects a
    branch, not a move that throws or never ends, not an assignment that
    stores an inherited member), then the next [N] steps execute the body,
    with the frame of the function on top all along, and one more step pops
    that frame: control is back in the caller, at the statement after the
    call. *)
Theorem call_drains (w : World) (prog : Program) (rt : Runtime)
  (name : string) (body : list Stmt) :
  activeStmt prog rt = Some (SCall name) ->
  functions prog !! name = Some body ->
  let N := length body in
  let w0 := setMessage w ("CALL " +:+ name) in
  let rt0 := push (advance rt) (frameAt name 0 body) in
  (forall k wk rtk s, (k < N)%nat ->
     stepN k prog w0 rt0 = Returns (wk, rtk) ->
     body !! k = Some s -> oneStep wk prog rtk s = true) ->
  stepProgram w prog rt = Returns (w0, rt0, true)
  /\ (forall k, (k <= N)%nat ->
        exists wk rtk,
          stepN k prog w0 rt0 = Returns (wk, rtk)
          /\ stack rtk = frameAt name k body :: stack (advance rt)
          /\ pc rtk = pc (advance rt))
  /\ (exists w' rt',
        stepN (S N) prog w0 rt0 = Returns (w', rt')
        /\ stack rt' = stack (advance rt) /\ pc rt' = pc (advance rt)
        /\ activeList prog rt' = activeList prog rt
        /\ activePc rt' = S (activePc rt)).
Proof.
  intros Ha Hf N w0 rt0 Hq.
  assert (Hrun : forall k, (k <= N)%nat ->
            exists wk rtk,
              stepN k prog w0 rt0 = Returns (wk, rtk)
              /\ stack rtk = frameAt name k body :: stack (advance rt)
              /\ pc rtk = pc (advance rt)).
  { intros k Hk.
    apply (stepN_drain prog name body (stack (advance rt)) N 0%nat w0 rt0
             eq_refl eq_refl); [|exact Hk].
    intros j wj rtj s Hj. apply (Hq j wj rtj s Hj). }
  split; [|split].
  - rewrite (stepProgram_exec w prog rt _ Ha). simpl. unfold callee.
    rewrite Hf. reflexivity.
  - exact Hrun.
  - destruct (Hrun N (Nat.le_refl N)) as (wN & rtN & HN & Hst & Hpc).
    exists wN, (setStack rtN (stack (advance rt))).
    split.
    + rewrite stepN_S_last, HN. unfold bind at 1.
      rewrite (stepProgram_pop wN prog rtN (frameAt name N body)
                 (stack (advance rt)) Hst) by (simpl; lia).
      reflexivity.
    + split; [reflexivity|]. split; [exact Hpc|].
      destruct (advance_active prog rt) as [Hl Hp].
      unfold activeList, activePc in *. simpl. rewrite Hpc.
      split; assumption.
Qed.

(** C3 on [patrolProgram], from the initial world and a fresh runtime. *)
Lemma call_drains_witness :
  let w := makeInitialWorld in
  let rt := makeRuntime in
  let body := [STurn "RIGHT"; SAttack] in
  let N := length body in
  let w0 := setMessage w ("CALL " +:+ "Patrol") in
  let rt0 := push (advance rt) (frameAt "Patrol" 0 body) in
  stepProgram w patrolProgram rt = Returns (w0, rt0, true)
  /\ (forall k, (k <= N)%nat ->
        exists wk rtk,
          stepN k patrolProgram w0 rt0 = Returns (wk, rtk)
          /\ stack rtk = frameAt "Patrol" k body :: stack (advance rt)
          /\ pc rtk = pc (advance rt))
  /\ (exists w' rt',
        stepN (S N) patrolProgram w0 rt0 = Returns (w', rt')
        /\ stack rt' = stack (advance rt) /\ pc rt' = pc (advance rt)
        /\ activeList patrolProgram rt' = activeList patrolProgram rt
        /\ activePc rt' = S (activePc rt)).
Proof.
  apply (call_drains makeInitialWorld patrolProgram makeRuntime "Patrol"
           [STurn "RIGHT"; SAttack]); [reflexivity|reflexivity|].
  intros k wk rtk s Hk _ Hs.
  destruct k as [|[|k]]; simpl in Hs; [| |simpl in Hk; lia];
    injection Hs as <-; reflexivity.
Defined.

(** C3 (as stated) fails when the body calls another function: [Patrol] has
    one statement, yet two steps after [CALL Patrol] the frames of [Helper]
    and [Patrol] are both still on the stack; control is back after four. *)
Lemma call_drains_nested_counterexample :
  functions nestedProgram !! "Patrol" = Some [SCall "Helper"]
  /\ activeStmt nestedProgram makeRuntime = Some (SCall "Patrol")
  /\ match stepN 1 nestedProgram makeInitialWorld makeRuntime with
     | Returns (_, rt0) =>
         map Frame.name (stack rt0) = ["Patrol"] /\ pc rt0 = 1%nat
     | _ => False
     end
  /\ match stepN (1 + 2) nestedProgram makeInitialWorld makeRuntime with
     | Returns (_, rt2) => map Frame.name (stack rt2) = ["Helper"; "Patrol"]
     | _ => False
     end
  /\ match stepN (1 + 4) nestedProgram makeInitialWorld makeRuntime with
     | Returns (_, rt4) => stack rt4 = [] /\ pc rt4 = 1%nat
     | _ => False
     end.
Proof. vm_compute. repeat split. Qed.

(** A body that calls a name the table inherits: [toString], a built-in
    function without parameters, gets a frame of its own that the next step
    pops, so control is back after three steps, not two; for [constructor],
    which has a parameter, the step leaves the model. *)
Example call_inherited :
  let prog name :=
    {| stmts := [SCall "Patrol"]; functions := {["Patrol" := [SCall name]]} |} in
  map (fun n =>
         match stepN n (prog "toString") makeInitialWorld makeRuntime with
         | Returns (_, rt) => Some (map Frame.name (stack rt), pc rt)
         | _ => None
         end) [1; 2; 3; 4]%nat
  = [Some (["Patrol"], 1); Some (["toString"; "Patrol"], 1);
     Some (["Patrol"], 1); Some ([], 1)]%nat
  /\ stepN 2 (prog "constructor") makeInitialWorld makeRuntime = Escapes.
Proof. vm_compute. split; reflexivity. Qed.

(** ** The invariant of the world *)

Lemma clamp_grid (v : Z) : 0 <= clamp v 0 (GRID - 1) < GRID.
Proof. unfold clamp, GRID. lia. Qed.

Lemma moveOnce_ok (dx dy : Z) (p : Tank) : tankOk p -> tankOk (moveOnce dx dy p).
Proof.
  intros (_ & _ & Hhp & Hd). unfold moveOnce, tankOk. simpl.
  pose proof (clamp_grid (x p + dx)). pose proof (clamp_grid (y p + dy)). auto.
Qed.

Lemma iter_moveOnce_ok (n : nat) (dx dy : Z) (p : Tank) :
  tankOk p -> tankOk (Nat.iter n (moveOnce dx dy) p).
Proof.
  intros H. induction n as [|n IH]; [exact H|].
  simpl. apply moveOnce_ok. exact IH.
Qed.

(** A move of any amount in any direction keeps the actor on the grid. *)
Lemma tankMove_ok (w : World) (dirWord : string) (amount : number) (w' : World) :
  worldOk w -> tankMove w dirWord amount = Returns w' -> worldOk w'.
Proof.
  intros [Hp He] H. unfold tankMove in H.
  destruct (moveVector (player w) dirWord) as [[dx dy]| | |]; try discriminate.
  simpl in H. destruct (loopCount amount) as [n|]; try discriminate.
  injection H as <-. split; [|exact He].
  simpl. apply iter_moveOnce_ok. exact Hp.
Qed.

Lemma tankMoves_ok (moves : list (string * number)) :
  forall w w', worldOk w -> tankMoves w moves = Returns w' -> worldOk w'.
Proof.
  induction moves as [|[dirWord amount] rest IH]; intros w w' Hw H.
  - injection H as <-. exact Hw.
  - simpl in H. destruct (tankMove w dirWord amount) as [w1| | |] eqn:E;
      try discriminate.
    simpl in H. exact (IH w1 w' (tankMove_ok w dirWord amount w1 Hw E) H).
Qed.

Lemma tankTurn_ok (w : World) (side : string) : worldOk w -> worldOk (tankTurn w side).
Proof.
  intros [(Hx & Hy & Hhp & Hd) He]. split; [|exact He].
  unfold tankTurn, tankOk. simpl. repeat split; try lia.
  destruct (String.eqb side "RIGHT");
    destruct Hd as [-> | [-> | [-> | ->]]]; simpl; auto.
Qed.

Lemma tankAttack_ok (w : World) : worldOk w -> worldOk (tankAttack w).
Proof.
  intros [Hp (Hx & Hy & Hhp & Hd)]. unfold tankAttack.
  destruct (_ && _); split; try exact Hp; unfold tankOk; simpl;
    repeat split; try lia; exact Hd.
Qed.

Lemma setMessage_ok (w : World) (m : string) : worldOk w -> worldOk (setMessage w m).
Proof. intros H. exact H. Qed.

Lemma execStmt_ok (w : World) (prog : Program) (rt : Runtime) (s : Stmt)
  (w' : World) (rt' : Runtime) (b : bool) :
  worldOk w -> execStmt w prog rt s = Returns (w', rt', b) -> worldOk w'.
Proof.
  intros Hw H.
  destruct s as [name value|amount d|d| | |cond th el|name| |name body];
    [apply execStmt_assign_inv in H|simpl in H| | | |rewrite execStmt_if in H
    |apply execStmt_call_inv in H| |]; simpl in H.
  - destruct H as (rt1 & text & _ & _ & -> & _). exact Hw.
  - destruct (tankMove w d _) as [w1| | |] eqn:E; try discriminate.
    simpl in H. injection H as <- _ _.
    apply setMessage_ok. exact (tankMove_ok w d _ w1 Hw E).
  - injection H as <- _ _. apply setMessage_ok, tankTurn_ok. exact Hw.
  - injection H as <- _ _. exact Hw.
  - injection H as <- _ _. apply tankAttack_ok. exact Hw.
  - destruct (chosenBranch cond th el rt);
      injection H as <- _ _; exact Hw.
  - destruct H as (-> & _). exact Hw.
  - injection H as <- _ _. exact Hw.
  - injection H as <- _ _. exact Hw.
Qed.

Lemma stepProgram_ok (w : World) (prog : Program) (rt : Runtime)
  (w' : World) (rt' : Runtime) (b : bool) :
  worldOk w -> stepProgram w prog rt = Returns (w', rt', b) -> worldOk w'.
Proof.
  intros Hw H. unfold stepProgram in H.
  destruct (length (activeList prog rt) <=? activePc rt)%nat.
  - destruct (head (stack rt)); injection H as <- _ _; exact Hw.
  - destruct (activeList prog rt !! activePc rt) as [s|]; [|discriminate].
    exact (execStmt_ok w prog rt s w' rt' b Hw H).
Qed.

Lemma enemyStep_ok (w w' : World) :
  worldOk w -> enemyStep w = Returns w' -> worldOk w'.
Proof.
  intros [(Hx & Hy & Hhp & Hd) He] H.
  destruct (Z.leb_spec (hp (enemy w)) 0) as [Hdead|Halive].
  - unfold enemyStep in H. apply Z.leb_le in Hdead. rewrite Hdead in H.
    injection H as <-. split; [unfold tankOk; auto|exact He].
  - destruct (enemyFires w) eqn:Hf.
    + unfold enemyStep in H. apply Z.leb_gt in Halive. rewrite Halive in H.
      unfold enemyFires in Hf. rewrite Hf in H. injection H as <-.
      split; [|exact He]. unfold tankOk. simpl. repeat split; lia.
    + rewrite (enemyStep_moves w Halive Hf) in H. injection H as <-.
      split; [unfold tankOk; auto|].
      destruct He as (Hex & Hey & Hehp & Hed).
      unfold advanceAlong.
      destruct (chaseFacing_range w) as [R|[R|[R|R]]]; rewrite R; simpl;
        unfold tankOk; simpl;
        pose proof (clamp_grid (x (enemy w) + 0));
        pose proof (clamp_grid (x (enemy w) + 1));
        pose proof (clamp_grid (x (enemy w) + -1));
        pose proof (clamp_grid (y (enemy w) + 0));
        pose proof (clamp_grid (y (enemy w) + 1));
        pose proof (clamp_grid (y (enemy w) + -1));
        repeat split; try lia; auto.
Qed.

Lemma makeInitialWorld_ok : worldOk makeInitialWorld.
Proof. unfold worldOk, tankOk, makeInitialWorld, GRID. simpl. lia. Qed.

Lemma reachable_ok (w : World) : reachable w -> worldOk w.
Proof.
  induction 1 as [|w prog rt w' rt' b _ IH Hs|w w' _ IH He].
  - exact makeInitialWorld_ok.
  - exact (stepProgram_ok w prog rt w' rt' b IH Hs).
  - exact (enemyStep_ok w w' IH He).
Qed.

(** The enemy policy always returns. *)
Lemma enemyStep_returns (w : World) : exists w', enemyStep w = Returns w'.
Proof.
  destruct (Z.leb_spec (hp (enemy w)) 0) as [Hdead|Halive].
  - exists w. unfold enemyStep. apply Z.leb_le in Hdead. rewrite Hdead.
    reflexivity.
  - destruct (enemyFires w) eqn:Hf.
    + eexists. unfold enemyStep. apply Z.leb_gt in Halive. rewrite Halive.
      unfold enemyFires in Hf. rewrite Hf. reflexivity.
    + eexists. exact (enemyStep_moves w Halive Hf).
Qed.

(** With a facing among the four, no step throws. *)
Lemma moveVector_returns (p : Tank) (dirWord : string) :
  tankOk p -> exists v, moveVector p dirWord = Returns v.
Proof.
  intros (_ & _ & _ & Hd). unfold moveVector.
  repeat match goal with
         | |- context [String.eqb ?a ?b] => destruct (String.eqb a b)
         end;
    destruct Hd as [E|[E|[E|E]]]; rewrite ?E; simpl; eexists; reflexivity.
Qed.

Lemma assignVar_no_throw (rt : Runtime) (k : string) (v : value) :
  assignVar rt k v <> Throws.
Proof.
  destruct v as [n|m]; simpl; [discriminate|].
  destruct (callsSetter rt k); [destruct m|]; discriminate.
Qed.

Lemma callee_no_throw (prog : Program) (name : string) :
  callee prog name <> Throws.
Proof.
  unfold callee. destruct (functions prog !! name); [discriminate|].
  destruct (inherited name) as [[[|k]|]|]; discriminate.
Qed.

Lemma execStmt_no_throw (w : World) (prog : Program) (rt : Runtime) (s : Stmt) :
  tankOk (player w) -> execStmt w prog rt s <> Throws.
Proof.
  intros Hp.
  destruct s as [name value|amount d|d| | |cond th el|name| |name body];
    try discriminate.
  - simpl.
    destruct (assignVar rt name (getVal value rt)) as [rt1| | |] eqn:Ha;
      simpl; try discriminate.
    + rewrite lookupVar_advance.
      destruct (assignVar_shown rt name _ rt1 Ha) as [text ->]. discriminate.
    + destruct (assignVar_no_throw rt name _ Ha).
  - simpl. unfold tankMove.
    destruct (moveVector_returns (player w) d Hp) as [[dx dy] ->]. simpl.
    destruct (loopCount _); discriminate.
  - rewrite execStmt_if.
    destruct (chosenBranch cond th el rt); discriminate.
  - simpl. destruct (callee prog name) as [[body|]| | |] eqn:Hc; simpl;
      try discriminate.
    destruct (callee_no_throw prog name Hc).
Qed.

Lemma stepProgram_no_throw (w : World) (prog : Program) (rt : Runtime) :
  worldOk w -> stepProgram w prog rt <> Throws.
Proof.
  intros [Hp _]. unfold stepProgram.
  destruct (Nat.leb_spec (length (activeList prog rt)) (activePc rt)) as [|Hlt].
  - destruct (head (stack rt)); discriminate.
  - destruct (lookup_lt_is_Some_2 _ _ Hlt) as [s ->].
    apply execStmt_no_throw. exact Hp.
Qed.

(** C6. Every world reached from the initial one by calls of [stepProgram]
    (any program, any runtime) and of [enemyStep] has both tanks on the grid,
    with a health between 0 and 100 and a facing among 0, 1, 2, 3; there a
    move of any amount in any direction that returns leaves the actor on the
    grid, no step throws and the enemy policy returns. *)
Theorem reachable_worldOk (w : World) :
  reachable w ->
  worldOk w
  /\ (forall moves w',
        tankMoves w moves = Returns w' ->
        0 <= x (player w') < GRID /\ 0 <= y (player w') < GRID)
  /\ (forall prog rt, stepProgram w prog rt <> Throws)
  /\ (exists w', enemyStep w = Returns w').
Proof.
  intros H. pose proof (reachable_ok w H) as Hw.
  split; [exact Hw|]. split; [|split].
  - intros moves w' Hm.
    destruct (tankMoves_ok moves w w' Hw Hm) as [(Hx & Hy & _) _].
    split; assumption.
  - intros prog rt. apply stepProgram_no_throw. exact Hw.
  - apply enemyStep_returns.
Qed.

Lemma afterOneRound_reachable : reachable afterOneRound.
Proof.
  apply (reach_enemy
           {| player := {| x := 0; y := 17; dir := 0; hp := 100 |};
              enemy := enemy makeInitialWorld;
              tick := 0; message := "MOVE 30 LEFT" |}).
  - apply (reach_step makeInitialWorld moveLeftProgram makeRuntime _
             (advance makeRuntime) true reach_init).
    vm_compute. reflexivity.
  - vm_compute. reflexivity.
Defined.

(** C6 in [afterOneRound]. *)
Lemma reachable_worldOk_witness :
  worldOk afterOneRound
  /\ (forall moves w',
        tankMoves afterOneRound moves = Returns w' ->
        0 <= x (player w') < GRID /\ 0 <= y (player w') < GRID)
  /\ (forall prog rt, stepProgram afterOneRound prog rt <> Throws)
  /\ (exists w', enemyStep afterOneRound = Returns w').
Proof.
  apply (reachable_worldOk afterOneRound). exact afterOneRound_reachable.
Defined.

(** ** Strings *)

Lemma append_nil (t : string) : EmptyString +:+ t = t.
Proof. reflexivity. Qed.

Lemma append_cons (c : ascii) (s t : string) :
  String c s +:+ t = String c (s +:+ t).
Proof. reflexivity. Qed.

Lemma append_empty_r (s : string) : s +:+ EmptyString = s.
Proof.
  induction s as [|c s IH]; [reflexivity|].
  rewrite append_cons, IH. reflexivity.
Qed.

Lemma append_assoc (s t u : string) : (s +:+ t) +:+ u = s +:+ (t +:+ u).
Proof.
  induction s as [|c s IH]; [reflexivity|].
  rewrite !append_cons, IH. reflexivity.
Qed.

Lemma trimEnd_noSpace (s : string) :
  allChars (fun c => negb (isSpace c)) s = true -> trimEnd s = s.
Proof.
  induction s as [|c s IH]; [reflexivity|]. simpl.
  intros H. apply andb_true_iff in H as [Hc Hs]. rewrite (IH Hs).
  apply negb_true_iff in Hc. rewrite Hc. destruct s; reflexivity.
Qed.

Lemma trim_noSpace (s : string) :
  allChars (fun c => negb (isSpace c)) s = true -> trim s = s.
Proof.
  intros H. unfold trim.
  assert (E : trimStart s = s).
  { destruct s as [|c s]; [reflexivity|]. simpl in *.
    apply andb_true_iff in H as [Hc _]. apply negb_true_iff in Hc.
    rewrite Hc. reflexivity. }
  rewrite E. apply trimEnd_noSpace. exact H.
Qed.

Lemma isDigit_cases (c : ascii) :
  isDigit c = true ->
  c = "0"%char \/ c = "1"%char \/ c = "2"%char \/ c = "3"%char \/ c = "4"%char
  \/ c = "5"%char \/ c = "6"%char \/ c = "7"%char \/ c = "8"%char \/ c = "9"%char.
Proof.
  destruct c as [[] [] [] [] [] [] [] []]; vm_compute; intros H;
    try discriminate; tauto.
Qed.

(** The ten cases of a decimal digit. *)
Ltac digitCases c H :=
  destruct (isDigit_cases c H)
    as [->|[->|[->|[->|[->|[->|[->|[->|[->| ->]]]]]]]]].

Lemma digits_noSpace (s : string) :
  allChars isDigit s = true -> allChars (fun c => negb (isSpace c)) s = true.
Proof.
  induction s as [|c s IH]; [reflexivity|]. simpl. intros H.
  apply andb_true_iff in H as [Hc Hs]. rewrite (IH Hs), andb_true_r.
  digitCases c Hc; reflexivity.
Qed.

Lemma spanDigits_all (s : string) :
  allChars isDigit s = true -> spanDigits s = (s, EmptyString).
Proof.
  induction s as [|c s IH]; [reflexivity|]. simpl. intros H.
  apply andb_true_iff in H as [Hc Hs]. rewrite Hc, (IH Hs). reflexivity.
Qed.

(** ** Numbers *)

(** Rounding returns a zero, a finite number or an infinity. *)
Lemma shr_1_nonneg (mrs : shr_record) : 0 <= shr_m mrs -> 0 <= shr_m (shr_1 mrs).
Proof.
  destruct mrs as [m r s]. simpl. intros H.
  destruct m as [|[p|p|]|p]; simpl; lia.
Qed.

Lemma iter_pos_shr_1_nonneg (p : positive) :
  forall mrs, 0 <= shr_m mrs -> 0 <= shr_m (SpecFloat.iter_pos shr_1 p mrs).
Proof.
  induction p as [p IH|p IH|]; intros mrs H; simpl.
  - apply IH, IH, shr_1_nonneg, H.
  - apply IH, IH, H.
  - apply shr_1_nonneg, H.
Qed.

Lemma shr_fexp_nonneg (prec emax m e : Z) (l : location) :
  0 <= m -> 0 <= shr_m (fst (shr_fexp prec emax m e l)).
Proof.
  intros H. unfold shr_fexp, shr.
  assert (H0 : 0 <= shr_m (shr_record_of_loc m l))
    by (destruct l as [|[]]; exact H).
  destruct (fexp prec emax (Zdigits2 m + e) - e) as [|p|p]; simpl;
    try exact H0.
  apply iter_pos_shr_1_nonneg, H0.
Qed.

Lemma binary_round_aux_not_NaN (prec emax : Z) (sx : bool) (mx ex : Z)
  (lx : location) :
  0 <= mx -> binary_round_aux prec emax sx mx ex lx <> S754_nan.
Proof.
  intros H. unfold binary_round_aux.
  pose proof (shr_fexp_nonneg prec emax mx ex lx H) as H1.
  destruct (shr_fexp prec emax mx ex lx) as [mrs' e']. simpl in H1.
  assert (H2 : 0 <= round_nearest_even (shr_m mrs') (loc_of_shr_record mrs')).
  { unfold round_nearest_even.
    destruct (loc_of_shr_record mrs') as [|[]]; try destruct (Z.even _); lia. }
  pose proof (shr_fexp_nonneg prec emax _ e' loc_Exact H2) as H3.
  destruct (shr_fexp prec emax _ e' loc_Exact) as [mrs'' e'']. simpl in H3.
  destruct (shr_m mrs'') as [|m|m]; try discriminate; [|lia].
  destruct (e'' <=? emax - prec); discriminate.
Qed.

Lemma roundBinary_not_NaN (m e : Z) (negZero : bool) :
  isNaN (roundBinary m e negZero) = false.
Proof.
  assert (H : roundBinary m e negZero <> S754_nan).
  { unfold roundBinary, binary_normalize.
    destruct m as [|p|p]; [discriminate| |]; unfold binary_round;
      destruct (shl_align _ _ _) as [mz ez];
      apply binary_round_aux_not_NaN; lia. }
  destruct (roundBinary m e negZero); try reflexivity. contradiction.
Qed.

(** ** Expressions *)

(** A pattern anchored at the start matches at the start or nowhere. *)
Lemma searchFrom_Bol (r : regex) (p : nat) (c : ascii) (s : string) :
  searchFrom (Seq Bol r) p (Some c) s = None.
Proof.
  revert p c. induction s as [|d s IH]; intros p c; simpl.
  - reflexivity.
  - apply IH.
Qed.

Lemma test_Bol (r : regex) (s : string) :
  test (Seq Bol r) s =
    match rmatch r {| pos := 0; prev := None; rest := s; caps := [] |} Some with
    | Some _ => true
    | None => false
    end.
Proof.
  unfold test, exec. destruct s as [|c s]; simpl.
  - destruct (rmatch r _ Some); reflexivity.
  - destruct (rmatch r _ Some); [reflexivity|].
    rewrite searchFrom_Bol. reflexivity.
Qed.

(** [[A-Za-z0-9_]*$]: the greedy star reaches the end exactly when every
    remaining character is a word character. *)
Lemma star_word_eol (fuel : nat) (s : string) :
  forall (p : nat) (pv : option ascii) (cs : list (nat * string)),
  (String.length s < fuel)%nat ->
  match starLoop true (rmatch (Chr isWordChar)) fuel
          {| pos := p; prev := pv; rest := s; caps := cs |}
          (fun st => rmatch Eol st Some) with
  | Some _ => true
  | None => false
  end = allChars isWordChar s.
Proof.
  set (it := rmatch (Chr isWordChar)).
  revert fuel. induction s as [|c s IH]; intros fuel p pv cs Hf.
  - destruct fuel as [|fuel]; [simpl in Hf; lia|]. reflexivity.
  - destruct fuel as [|fuel]; [simpl in Hf; lia|].
    simpl in Hf. cbn [starLoop]. unfold it at 1. cbn [rmatch rest pos].
    cbn [allChars]. destruct (isWordChar c); [|reflexivity].
    rewrite (proj2 (Nat.ltb_lt p (S p))) by lia. simpl andb.
    specialize (IH fuel (S p) (Some c) cs ltac:(lia)).
    destruct (starLoop true it fuel _ _); simpl; exact IH.
Qed.

Lemma varRe_isVarToken (v : string) : test varRe v = isVarToken v.
Proof.
  unfold varRe. cbn [seqs]. rewrite test_Bol.
  destruct v as [|c v]; [reflexivity|].
  cbn [rmatch chr rest]. unfold isVarToken.
  destruct (Ascii.eqb_spec c "$") as [->|Hc].
  - destruct v as [|d v]; [reflexivity|].
    unfold identifier. cbn [rmatch rest pos caps].
    destruct (isIdentStart d); [|reflexivity]. simpl andb.
    apply star_word_eol. lia.
  - destruct c as [[] [] [] [] [] [] [] []]; try reflexivity.
    contradiction Hc. reflexivity.
Qed.

Lemma parseExpr_cases (tok : string) :
  parseExpr tok =
    if isVarToken (trim tok) then EVar (slice1 (trim tok))
    else ENumber (if isNaN (Number (trim tok)) then zero else Number (trim tok)).
Proof.
  unfold parseExpr. rewrite varRe_isVarToken.
  destruct (isVarToken (trim tok)); [reflexivity|].
  destruct (isNaN (Number (trim tok))); reflexivity.
Qed.

(** A token made of decimal digits is read as the integer it writes. *)
Lemma Number_digits (ds : string) (z : Z) :
  nonEmpty ds = true -> allChars isDigit ds = true ->
  digitsIn 10 0 ds = Some z -> Number ds = ofZ z.
Proof.
  intros Hne Hd Hz. unfold Number.
  rewrite (trim_noSpace ds (digits_noSpace ds Hd)).
  destruct ds as [|c ds]; [discriminate|].
  assert (Hc : isDigit c = true)
    by (simpl in Hd; apply andb_true_iff in Hd; tauto).
  assert (Hbase : nonDecimalBase (String c ds) = None).
  { destruct ds as [|d ds]; [digitCases c Hc; reflexivity|].
    assert (Hd2 : isDigit d = true).
    { simpl in Hd. apply andb_true_iff in Hd as [_ Hd].
      apply andb_true_iff in Hd. tauto. }
    digitCases c Hc; try reflexivity.
    digitCases d Hd2; reflexivity. }
  rewrite Hbase. unfold strDecimalLiteral.
  assert (Hsign : match String c ds with
                  | String "+" s' => (false, s')
                  | String "-" s' => (true, s')
                  | _ => (false, String c ds)
                  end = (false, String c ds)).
  { digitCases c Hc; reflexivity. }
  rewrite Hsign.
  assert (Hinf : String.eqb (String c ds) "Infinity" = false).
  { digitCases c Hc; reflexivity. }
  rewrite Hinf. unfold unsignedDecimal. rewrite (spanDigits_all _ Hd).
  cbn [nonEmpty negb andb spanDigits exponentPart String.length].
  rewrite append_empty_r, Hz.
  replace (0 - Z.of_nat 0) with 0 by reflexivity.
  destruct (Z.eqb_spec z 0) as [->|Hz0]; [reflexivity|].
  unfold roundDecimal. cbn [Z.leb Z.compare]. 
  replace (z * 10 ^ 0) with z by (rewrite Z.pow_0_r; lia).
  reflexivity.
Qed.

(** The names that [Object.prototype] gives to every plain object. *)
Lemma inherited_None (name : string) :
  inherited name = None <-> ~ In name (map fst Object_prototype).
Proof.
  split.
  - intros H Hin. apply in_map_iff in Hin as [[k m] [Hk Hin]].
    simpl in Hk. subst k. apply inherited_names in Hin. congruence.
  - intros H. destruct (inherited name) as [m|] eqn:E; [|reflexivity].
    contradiction H. apply inherited_names in E.
    apply in_map_iff. exists (name, m). auto.
Qed.

(** C7 (as the code has it). [parseExpr] and [getVal] are total.  For a token
    that, trimmed, is [$] followed by an identifier, [parseExpr] returns the
    reference to the variable so named; for any other token it returns the
    number that [Number] reads from the trimmed token, which need not be an
    integer, and the literal 0 when [Number] reads NaN; a token of decimal
    digits gives the integer it writes.  [getVal] returns a literal's value,
    the stored value of a bound variable, and 0 for a variable that is not
    bound and whose name is none of the twelve that [Object.prototype] gives
    to [rt.vars]; what it returns is a number in every case but that of an
    unbound variable of one of those names, where it is the inherited
    member. *)
Theorem parseExpr_getVal_total :
  (forall tok,
     (isVarToken (trim tok) = true ->
      exists c name,
        trim tok = String "$" (String c name)
        /\ isIdentStart c = true /\ allChars isWordChar name = true
        /\ parseExpr tok = EVar (String c name))
     /\ (isVarToken (trim tok) = false ->
         isNaN (Number (trim tok)) = false ->
         parseExpr tok = ENumber (Number (trim tok)))
     /\ (isVarToken (trim tok) = false ->
         isNaN (Number (trim tok)) = true ->
         parseExpr tok = ENumber zero))
  /\ (forall ds z,
        nonEmpty ds = true -> allChars isDigit ds = true ->
        digitsIn 10 0 ds = Some z -> parseExpr ds = ENumber (ofZ z))
  /\ (forall n rt, getVal (ENumber n) rt = VNumber n)
  /\ (forall name rt v,
        vars rt !! name = Some v -> getVal (EVar name) rt = VNumber v)
  /\ (forall name rt,
        vars rt !! name = None ->
        ~ In name
            ["constructor"; "__defineGetter__"; "__defineSetter__";
             "hasOwnProperty"; "__lookupGetter__"; "__lookupSetter__";
             "isPrototypeOf"; "propertyIsEnumerable"; "toString"; "valueOf";
             "__proto__"; "toLocaleString"] ->
        getVal (EVar name) rt = VNumber zero)
  /\ (forall e rt,
        (exists n, getVal e rt = VNumber n)
        \/ (exists name m,
              e = EVar name /\ vars rt !! name = None
              /\ In (name, m) Object_prototype
              /\ getVal e rt = VMember m)).
Proof.
  split; [|split; [|split; [|split; [|split]]]].
  - intros tok. rewrite parseExpr_cases. split; [|split].
    + intros H. rewrite H.
      destruct (trim tok) as [|d [|c name]]; try discriminate;
        unfold isVarToken in H;
        destruct (Ascii.eqb_spec d "$") as [->|Hd].
      * discriminate.
      * destruct d as [[] [] [] [] [] [] [] []]; discriminate.
      * apply andb_true_iff in H as [H1 H2]. exists c, name. auto.
      * destruct d as [[] [] [] [] [] [] [] []]; try discriminate.
        contradiction Hd. reflexivity.
    + intros -> ->. reflexivity.
    + intros -> ->. reflexivity.
  - intros ds z Hne Hd Hz. rewrite parseExpr_cases.
    rewrite (trim_noSpace ds (digits_noSpace ds Hd)).
    rewrite (Number_digits ds z Hne Hd Hz).
    unfold ofZ. rewrite roundBinary_not_NaN.
    destruct ds as [|c ds]; [discriminate|].
    assert (Hc : isDigit c = true)
      by (simpl in Hd; apply andb_true_iff in Hd; tauto).
    digitCases c Hc; reflexivity.
  - reflexivity.
  - intros name rt v H. unfold getVal, lookupVar. rewrite H. reflexivity.
  - intros name rt H Hn. unfold getVal, lookupVar. rewrite H.
    rewrite (proj2 (inherited_None name) Hn). reflexivity.
  - intros [n|name] rt; [left; exists n; reflexivity|].
    unfold getVal, lookupVar.
    destruct (vars rt !! name) as [v|] eqn:Hv; [left; exists v; reflexivity|].
    destruct (inherited name) as [m|] eqn:Hm.
    + right. exists name, m. apply inherited_names in Hm. auto.
    + left. exists zero. reflexivity.
Qed.

(** What [parseExpr] makes of some tokens. *)
Example parseExpr_examples :
  map parseExpr ["$MOVEMENT"; " 42 "; "0x10"; "1e3"; ""; "abc"; "$9"; "2;"]
  = [EVar "MOVEMENT"; ENumber (ofZ 42); ENumber (ofZ 16); ENumber (ofZ 1000);
     ENumber zero; ENumber zero; ENumber zero; ENumber zero].
Proof. vm_compute. reflexivity. Qed.

(** C7 (as stated) fails: the token [2.5] is no variable reference, and what
    [parseExpr] returns for it is the double 2.5, which is not an integer:
    neither the 2 that reading the leading integer gives nor the 0 of a
    failed parse.  And in a fresh runtime, where no variable is bound,
    [getVal] of [$constructor] is not 0 but the function that
    [Object.prototype] holds under that name. *)
Lemma parseExpr_fraction_counterexample :
  isVarToken (trim "2.5") = false
  /\ parseExpr "2.5" = ENumber (S754_finite false 5629499534213120 (-51))
  /\ isInteger (S754_finite false 5629499534213120 (-51)) = false
  /\ Math_floor (S754_finite false 5629499534213120 (-51)) = ofZ 2
  /\ parseExpr "2.5" <> ENumber (ofZ 2)
  /\ parseExpr "2.5" <> ENumber zero
  /\ parseExpr "$constructor" = EVar "constructor"
  /\ vars makeRuntime !! "constructor" = None
  /\ getVal (EVar "constructor") makeRuntime = VMember (Builtin 1)
  /\ getVal (EVar "constructor") makeRuntime <> VNumber zero.
Proof.
  repeat split; try (vm_compute; reflexivity); vm_compute; discriminate.
Qed.

(** ** Lines of a source text *)

(** Whatever a match returns, its continuation returned it. *)
Lemma starLoop_from_k (P : mstate -> Prop) (g : bool) (iter : matcher)
  (k : mstate -> option mstate) :
  (forall st k' res, (forall st' res', k' st' = Some res' -> P res') ->
     iter st k' = Some res -> P res) ->
  (forall st res, k st = Some res -> P res) ->
  forall fuel st res, starLoop g iter fuel st k = Some res -> P res.
Proof.
  intros Hiter Hk. induction fuel as [|fuel IH]; intros st res H.
  - exact (Hk st res H).
  - cbn [starLoop] in H.
    assert (Hmore : forall res',
      iter st (fun st' => if (pos st <? pos st')%nat
                          then starLoop g iter fuel st' k else None)
      = Some res' -> P res').
    { intros res' Hm. refine (Hiter st _ res' _ Hm).
      intros st' r Hr. destruct (pos st <? pos st')%nat; [|discriminate].
      exact (IH st' r Hr). }
    destruct g.
    + destruct (iter st _) as [r|] eqn:E; simpl in H.
      * injection H as <-. apply Hmore. reflexivity.
      * exact (Hk st res H).
    + destruct (k st) as [r|] eqn:E; simpl in H.
      * injection H as <-. exact (Hk st r E).
      * apply Hmore. exact H.
Qed.

Lemma rmatch_from_k (P : mstate -> Prop) (r : regex) :
  forall st k res,
  (forall st' res', k st' = Some res' -> P res') ->
  rmatch r st k = Some res -> P res.
Proof.
  induction r as [p| |r1 IH1 r2 IH2|r1 IH1 r2 IH2|g r1 IH1|n r1 IH1| | |];
    intros st k res Hk H; cbn [rmatch] in H.
  - destruct (rest st) as [|c s']; [discriminate|].
    destruct (p c); [|discriminate]. exact (Hk _ _ H).
  - exact (Hk _ _ H).
  - refine (IH1 st _ res _ H).
    intros st1 r Hr. exact (IH2 st1 k r Hk Hr).
  - destruct (rmatch r1 st k) as [r|] eqn:E; simpl in H.
    + injection H as <-. exact (IH1 st k r Hk E).
    + exact (IH2 st k res Hk H).
  - refine (starLoop_from_k P g (rmatch r1) k _ Hk _ st res H).
    intros st0 k' r Hk' Hr. exact (IH1 st0 k' r Hk' Hr).
  - refine (IH1 st _ res _ H).
    intros st1 r Hr. exact (Hk _ _ Hr).
  - destruct (prev st); [discriminate|]. exact (Hk _ _ H).
  - destruct (rest st); [|discriminate]. exact (Hk _ _ H).
  - destruct (xorb _ _); [|discriminate]. exact (Hk _ _ H).
Qed.

Lemma searchFrom_start (r : regex) (s : string) :
  forall p pv q st,
  searchFrom r p pv s = Some (q, st) ->
  exists pv' s',
    rmatch r {| pos := q; prev := pv'; rest := s'; caps := [] |} Some = Some st.
Proof.
  induction s as [|c s IH]; intros p pv q st H; cbn [searchFrom] in H.
  - destruct (rmatch r _ Some) as [st0|] eqn:E; [|discriminate].
    injection H as <- <-. eauto.
  - destruct (rmatch r _ Some) as [st0|] eqn:E.
    + injection H as <- <-. eauto.
    + exact (IH _ _ _ _ H).
Qed.

Lemma rmatch_Seq (r1 r2 : regex) (st : mstate) (k : mstate -> option mstate) :
  rmatch (Seq r1 r2) st k = rmatch r1 st (fun st1 => rmatch r2 st1 k).
Proof. reflexivity. Qed.

(** A comment runs to the end of its line. *)
Lemma commentRe_rest (s : string) (q : nat) (st : mstate) :
  exec commentRe s = Some (q, st) -> rest st = EmptyString.
Proof.
  intros H. apply searchFrom_start in H as (pv & s' & H).
  unfold commentRe in H. cbn [seqs] in H. rewrite rmatch_Seq in H.
  refine (rmatch_from_k (fun st => rest st = EmptyString) _ _ _ st _ H).
  intros st1 r1 H1. rewrite rmatch_Seq in H1.
  refine (rmatch_from_k (fun st => rest st = EmptyString) _ _ _ r1 _ H1).
  intros st2 r2 H2. cbn [rmatch] in H2.
  destruct (rest st2) eqn:E; [|discriminate]. injection H2 as <-. exact E.
Qed.

Lemma noLF_prefix (s : string) :
  forall n, noLF s = true -> noLF (substring 0 n s) = true.
Proof.
  induction s as [|c s IH]; intros n H.
  - destruct n; reflexivity.
  - destruct n as [|n]; [reflexivity|].
    unfold noLF in *. simpl in *. apply andb_true_iff in H as [Hc Hs].
    rewrite Hc. exact (IH n Hs).
Qed.

Lemma removeFirst_comment_noLF (l : string) :
  noLF l = true -> noLF (removeFirst commentRe l) = true.
Proof.
  intros H. unfold removeFirst.
  destruct (exec commentRe l) as [[p st]|] eqn:E; [|exact H].
  rewrite (commentRe_rest l p st E), append_empty_r.
  apply noLF_prefix. exact H.
Qed.

(** Splitting at line feeds: the pieces hold none, and joining them gives
    the text back. *)
Lemma splitOn_noLF (s : string) :
  forall cur, noLF cur = true -> forallb noLF (splitOn LF cur s) = true.
Proof.
  induction s as [|c s IH]; intros cur Hcur; simpl.
  - rewrite Hcur. reflexivity.
  - destruct (Ascii.eqb_spec c LF) as [->|Hc]; simpl.
    + rewrite Hcur. apply IH. reflexivity.
    + apply IH. unfold noLF in *.
      clear IH. induction cur as [|d cur IHc].
      * rewrite append_nil. simpl. apply Ascii.eqb_neq in Hc. rewrite Hc.
        reflexivity.
      * rewrite append_cons. simpl in *.
        apply andb_true_iff in Hcur as [Hd Hcur]. rewrite Hd. exact (IHc Hcur).
Qed.

Lemma splitOn_line (l : string) :
  forall cur r, noLF l = true ->
  splitOn LF cur (l +:+ r) = splitOn LF (cur +:+ l) r.
Proof.
  induction l as [|c l IH]; intros cur r H.
  - rewrite append_nil, append_empty_r. reflexivity.
  - unfold noLF in H. simpl in H. apply andb_true_iff in H as [Hc Hl].
    apply negb_true_iff in Hc. rewrite append_cons. cbn [splitOn]. rewrite Hc.
    rewrite (IH _ r Hl), append_assoc. reflexivity.
Qed.

Lemma split_join (ls : list string) :
  ls <> [] -> forallb noLF ls = true ->
  split (join (String LF EmptyString) ls) LF = ls.
Proof.
  unfold split. induction ls as [|l ls IH]; intros Hne H; [contradiction|].
  simpl in H. apply andb_true_iff in H as [Hl Hls].
  destruct ls as [|l' ls].
  - simpl. rewrite <- (append_empty_r l) at 1.
    rewrite (splitOn_line l EmptyString EmptyString Hl). reflexivity.
  - change (join (String LF EmptyString) (l :: l' :: ls))
      with (l +:+ String LF EmptyString +:+ join (String LF EmptyString) (l' :: ls)).
    rewrite (splitOn_line l EmptyString _ Hl), append_nil, append_cons.
    cbn [splitOn]. rewrite Ascii.eqb_refl. f_equal.
    apply IH; [discriminate|exact Hls].
Qed.

Lemma splitOn_nonempty (s : string) (cur : string) : splitOn LF cur s <> [].
Proof.
  revert cur. induction s as [|c s IH]; intros cur; simpl; [discriminate|].
  destruct (c =? LF)%char; [discriminate|apply IH].
Qed.

(** Runs of line feeds give the same lines as single line feeds once the
    blank lines are dropped. *)
Lemma splitLFRuns_splitOn (s : string) :
  (forall cur,
     List.filter nonEmpty (map trim (splitLFRuns false cur s))
     = List.filter nonEmpty (map trim (splitOn LF cur s)))
  /\ List.filter nonEmpty (map trim (splitLFRuns true EmptyString s))
     = List.filter nonEmpty (map trim (splitOn LF EmptyString s)).
Proof.
  induction s as [|c s [IHf IHt]]; [split; reflexivity|].
  split; [intros cur|]; cbn [splitLFRuns splitOn];
    destruct (c =? LF)%char.
  - cbn [map List.filter]. rewrite IHt. reflexivity.
  - apply IHf.
  - cbn [map List.filter]. simpl. exact IHt.
  - apply IHf.
Qed.

Lemma sourceLines_cleanLines (code : string) :
  sourceLines code = cleanLines (split code LF).
Proof.
  unfold sourceLines, stripComments, splitLines, cleanLines, cleanLine.
  rewrite (proj1 (splitLFRuns_splitOn _) EmptyString).
  change (splitOn LF EmptyString ?s) with (split s LF).
  rewrite split_join.
  - rewrite map_map. reflexivity.
  - unfold split. intros H. apply map_eq_nil in H.
    exact (splitOn_nonempty code EmptyString H).
  - assert (H : forallb noLF (split code LF) = true)
      by (apply splitOn_noLF; reflexivity).
    induction (split code LF) as [|l ls IH]; [reflexivity|].
    simpl in *. apply andb_true_iff in H as [Hl Hls].
    rewrite (removeFirst_comment_noLF l Hl). exact (IH Hls).
Qed.

(** ** The lexer *)

Lemma tokenizeLines_cons (line : string) (rest : list string) :
  tokenizeLines (line :: rest) =
    if test functionHeadRe line then blockLoop line [] rest
    else (statementTokens line ++ tokenizeLines rest)%list.
Proof.
  cbn [tokenizeLines]. destruct (test functionHeadRe line); [|reflexivity].
  match goal with
  | |- ?inner [] rest = _ =>
      assert (H : forall ls body, inner body ls = blockLoop line body ls)
  end.
  { induction ls as [|l ls IH]; intros body; [reflexivity|].
    cbn [blockLoop]. destruct (test endRe l); [reflexivity|]. apply IH. }
  apply H.
Qed.

(** A body without a closing line, then a closing line: one token. *)
Lemma blockLoop_block (header : string) (body : list string) :
  forall (acc : list string) (endl : string) (post : list string),
  forallb (fun l => negb (test endRe l)) body = true ->
  test endRe endl = true ->
  blockLoop header acc (body ++ endl :: post)%list
  = blockToken header (acc ++ body)%list :: tokenizeLines post.
Proof.
  induction body as [|l body IH]; intros acc endl post Hb He.
  - simpl. rewrite He, app_nil_r. reflexivity.
  - simpl in Hb. apply andb_true_iff in Hb as [Hl Hb].
    apply negb_true_iff in Hl. simpl. rewrite Hl.
    rewrite (IH (acc ++ [l])%list endl post Hb He).
    rewrite <- app_assoc. reflexivity.
Qed.

(** Lines after which no block is open are tokenized on their own. *)
Lemma tokenize_prefix (pre : list string) :
  forall rest : list string,
  (openAfter false pre = false ->
   tokenizeLines (pre ++ rest)%list
   = (tokenizeLines pre ++ tokenizeLines rest)%list)
  /\ (forall header acc,
        openAfter true pre = false ->
        blockLoop header acc (pre ++ rest)%list
        = (blockLoop header acc pre ++ tokenizeLines rest)%list).
Proof.
  induction pre as [|l pre IH]; intros rest.
  - split; [reflexivity|discriminate].
  - destruct (IH rest) as [IHtop IHblock]. split.
    + intros H. simpl in H.
      change ((l :: pre) ++ rest)%list with (l :: (pre ++ rest))%list.
      rewrite !tokenizeLines_cons.
      destruct (test functionHeadRe l).
      * apply IHblock. exact H.
      * rewrite (IHtop H), app_assoc. reflexivity.
    + intros header acc H. simpl in H.
      change ((l :: pre) ++ rest)%list with (l :: (pre ++ rest))%list.
      cbn [blockLoop]. destruct (test endRe l); simpl in H.
      * rewrite (IHtop H). reflexivity.
      * apply IHblock. exact H.
Qed.

Lemma tokenizeLines_function_block (pre : list string) (header : string)
  (body : list string) (endl : string) (post : list string) :
  openAfter false pre = false ->
  test functionHeadRe header = true ->
  forallb (fun l => negb (test endRe l)) body = true ->
  test endRe endl = true ->
  tokenizeLines (pre ++ header :: body ++ endl :: post)%list
  = (tokenizeLines pre ++ [blockToken header body] ++ tokenizeLines post)%list.
Proof.
  intros Hpre Hh Hb He.
  rewrite (proj1 (tokenize_prefix pre _) Hpre). f_equal.
  rewrite tokenizeLines_cons, Hh.
  rewrite (blockLoop_block header body [] endl post Hb He). reflexivity.
Qed.

Lemma cleanLines_app (a b : list string) :
  cleanLines (a ++ b)%list = (cleanLines a ++ cleanLines b)%list.
Proof. unfold cleanLines. rewrite map_app, List.filter_app. reflexivity. Qed.

Lemma cleanLines_cons (l : string) (ls : list string) :
  nonEmpty (cleanLine l) = true ->
  cleanLines (l :: ls) = cleanLine l :: cleanLines ls.
Proof. intros H. unfold cleanLines. simpl. rewrite H. reflexivity. Qed.

Lemma functionHead_nonEmpty (l : string) :
  test functionHeadRe l = true -> nonEmpty l = true.
Proof. destruct l; [discriminate|reflexivity]. Qed.




Example tokenize_patrolSource :
  tokenize patrolSource
  = ["X = 1;";
     join (String LF EmptyString)
       ["FUNCTION Patrol:"; "MOVE 1 LEFT;"; "MOVE 1 RIGHT; TURN LEFT;"; "END"];
     "CALL Patrol;"].
Proof. vm_compute. reflexivity. Qed.

(** A header inside an open block is a body line like any other:
    [nestedSource] is the one block of [f], and one token. *)
Example tokenize_nestedSource :
  split nestedSource LF = ["FUNCTION f:"; "FUNCTION g:"; "END"]
  /\ openAfter false (cleanLines ["FUNCTION f:"]) = true
  /\ tokenize nestedSource
     = [join (String LF EmptyString) ["FUNCTION f:"; "FUNCTION g:"; "END"]].
Proof. vm_compute. repeat split. Qed.

(** ** The sample program *)

(** The pattern of an assignment gives the terminating [;] to its greedy
    group, and [Number] reads NaN from [2;]. *)
Example assign_capture :
  matchRe assignRe "MOVEMENT = 2;" = Some [(2%nat, "2;"); (1%nat, "MOVEMENT")]
  /\ Number "2;" = NaN
  /\ parseStmt 2 "MOVEMENT = 2;" = Parsed (SAssign "MOVEMENT" (ENumber zero))
  /\ parseStmt 2 "COPY = $MOVEMENT;" = Parsed (SAssign "COPY" (ENumber zero))
  /\ parseStmt 2 "MOVE 2 FORWARD;" = Parsed (SMove (ENumber (ofZ 2)) "FORWARD").
Proof. vm_compute. repeat split. Qed.

(** C2 (what the code does). The sample parses to an assignment of 0, not of
    2, and from the initial world, where the tanks share no axis, five steps
    go: store MOVEMENT=0; store ENEMY=0 with the message "No enemy in
    sight."; push the frame of [MOVE $MOVEMENT FORWARD]; execute that move,
    which moves the actor by 0 cells and reports "MOVE 0 FORWARD"; pop the
    frame. *)
Theorem scenario_run :
  exists prog,
    parseProgram scenarioSource = Some prog
    /\ stmts prog
       = [SAssign "MOVEMENT" (ENumber zero); SScan;
          SIf (EVar "ENEMY") SAttack (Some (SMove (EVar "MOVEMENT") "FORWARD"))]
    /\ zero <> ofZ 2
    /\ x (player makeInitialWorld) <> x (enemy makeInitialWorld)
    /\ y (player makeInitialWorld) <> y (enemy makeInitialWorld)
    /\ observe 1 prog
       = Some (Some zero, None, "$MOVEMENT = 0", (2, 17), [], 1%nat)
    /\ observe 2 prog
       = Some (Some zero, Some zero, "No enemy in sight.", (2, 17), [], 2%nat)
    /\ observe 3 prog
       = Some (Some zero, Some zero, "No enemy in sight.", (2, 17),
               [("<if>", 0%nat, [SMove (EVar "MOVEMENT") "FORWARD"])], 2%nat)
    /\ observe 4 prog
       = Some (Some zero, Some zero, "MOVE 0 FORWARD", (2, 17),
               [("<if>", 1%nat, [SMove (EVar "MOVEMENT") "FORWARD"])], 2%nat)
    /\ observe 5 prog
       = Some (Some zero, Some zero, "MOVE 0 FORWARD", (2, 17), [], 2%nat).
Proof.
  eexists. split; [vm_compute; reflexivity|].
  vm_compute. repeat split; discriminate.
Qed.

(** With the literal 2 in place of the parsed 0 the run is the one the sample
    is written for: the actor moves two cells up. *)
Example scenario_with_two :
  let prog :=
    {| stmts := [SAssign "MOVEMENT" (ENumber (ofZ 2)); SScan;
                 SIf (EVar "ENEMY") SAttack
                   (Some (SMove (EVar "MOVEMENT") "FORWARD"))];
       functions := ∅ |} in
  observe 4 prog
  = Some (Some (ofZ 2), Some zero, "MOVE 2 FORWARD", (2, 15),
          [("<if>", 1%nat, [SMove (EVar "MOVEMENT") "FORWARD"])], 2%nat).
Proof. vm_compute. reflexivity. Qed.

(** ** Clamping *)

(** X1. For bounds in order [clamp] returns a value within them, returns its
    argument exactly when that is within them, and is idempotent; clamped
    coordinates are [inBounds]; with the bounds out of order it returns the
    lower one. *)
Theorem clamp_spec (v lo hi : Z) :
  (lo <= hi ->
     lo <= clamp v lo hi <= hi
     /\ (clamp v lo hi = v <-> lo <= v <= hi)
     /\ clamp (clamp v lo hi) lo hi = clamp v lo hi)
  /\ (hi < lo -> clamp v lo hi = lo)
  /\ (forall w, inBounds (clamp v 0 (GRID - 1)) (clamp w 0 (GRID - 1)) = true).
Proof.
  unfold clamp, inBounds, GRID. repeat split; lia.
Qed.

(** ** Line of sight, both ways *)

(** X2. Line of sight is symmetric in what it sees and in the distance: [a]
    sees [b] exactly when [b] sees [a], at the same distance. *)
Theorem lineOfSight_symmetric (a b : Tank) :
  seen (lineOfSight a b) = seen (lineOfSight b a)
  /\ distance (lineOfSight a b) = distance (lineOfSight b a).
Proof.
  unfold lineOfSight.
  destruct (Z.eqb_spec (x a) (x b)) as [Hx|Hx];
    destruct (Z.eqb_spec (x b) (x a)) as [Hx'|Hx']; try congruence;
    [|destruct (Z.eqb_spec (y a) (y b)) as [Hy|Hy];
      destruct (Z.eqb_spec (y b) (y a)) as [Hy'|Hy']; try congruence];
    simpl; split; try reflexivity;
    repeat match goal with
           | |- context [Z.gtb ?u ?v] => destruct (Z.gtb_spec u v)
           end; try reflexivity; lia.
Qed.

Lemma lineOfSight_dirOk_seen (a b : Tank) :
  dirOk (lineOfSight a b) = true ->
  seen (lineOfSight a b) = true /\ 1 <= distance (lineOfSight a b).
Proof.
  unfold lineOfSight.
  destruct (x a =? x b); [|destruct (y a =? y b)]; simpl; intros H;
    try discriminate;
    (apply orb_true_iff in H as [H|H]; apply andb_true_iff in H as [H _];
     [split; [apply Z.gtb_lt|]; lia ..]).
Qed.

(** X3. A rightly faced target is a seen one: [dirOk] implies [seen], a
    distance of at least 1 and a facing toward the target; and two tanks that
    rightly face each other have opposite facings. *)
Theorem lineOfSight_dirOk (a b : Tank) :
  dirOk (lineOfSight a b) = true ->
  seen (lineOfSight a b) = true
  /\ 1 <= distance (lineOfSight a b)
  /\ facesToward a b
  /\ (dirOk (lineOfSight b a) = true ->
      Z.abs (dir a - dir b) = 2).
Proof.
  intros H. destruct (lineOfSight_dirOk_seen a b H) as [Hs Hd].
  split; [exact Hs|]. split; [exact Hd|].
  split.
  { destruct (Z.eq_dec (x a) (x b)) as [Hx|Hx].
    - assert (Hy : y a <> y b).
      { rewrite (lineOfSight_column a b Hx) in Hd. simpl in Hd. lia. }
      rewrite (lineOfSight_column a b Hx) in H.
      apply (facesToward_column a b Hx Hy). exact H.
    - destruct (Z.eq_dec (y a) (y b)) as [Hy|Hy].
      + rewrite (lineOfSight_row a b Hx Hy) in H.
        apply (facesToward_row a b Hx Hy). exact H.
      + rewrite (lineOfSight_unaligned a b Hx Hy) in H. discriminate. }
  intros H'.
  unfold lineOfSight in H, H'.
  destruct (Z.eqb_spec (x a) (x b)) as [Hx|Hx];
    destruct (Z.eqb_spec (x b) (x a)) as [Hx'|Hx']; try congruence;
    [|destruct (Z.eqb_spec (y a) (y b)) as [Hy|Hy];
      destruct (Z.eqb_spec (y b) (y a)) as [Hy'|Hy']; try congruence];
    simpl in H, H'; try discriminate;
    apply orb_true_iff in H as [H|H]; apply andb_true_iff in H as [H1 H2];
    apply orb_true_iff in H' as [H'|H']; apply andb_true_iff in H' as [H1' H2'];
    apply Z.eqb_eq in H2, H2'; rewrite H2, H2'; try reflexivity;
    repeat match goal with
           | Hc : (_ <? _) = true |- _ => apply Z.ltb_lt in Hc
           | Hc : (_ >? _) = true |- _ => apply Z.gtb_lt in Hc
           end; lia.
Qed.

(** X3 for the two tanks of [duelWorld]. *)
Lemma lineOfSight_dirOk_witness :
  seen (lineOfSight (player duelWorld) (enemy duelWorld)) = true
  /\ 1 <= distance (lineOfSight (player duelWorld) (enemy duelWorld))
  /\ facesToward (player duelWorld) (enemy duelWorld)
  /\ (dirOk (lineOfSight (enemy duelWorld) (player duelWorld)) = true ->
      Z.abs (dir (player duelWorld) - dir (enemy duelWorld)) = 2).
Proof.
  apply (lineOfSight_dirOk (player duelWorld) (enemy duelWorld)). reflexivity.
Defined.

(** ** Turning *)

Lemma rem4_cases (d : Z) :
  d = 0 \/ d = 1 \/ d = 2 \/ d = 3 ->
  Z.rem (d + 1) 4 = (d + 1) mod 4 /\ Z.rem (d + 3) 4 = (d + 3) mod 4.
Proof. intros [-> | [-> | [-> | ->]]]; split; reflexivity. Qed.

(** X4. With a facing among the four, turning right then left, or left then
    right, gives the facing back, four turns to the same side too, and one
    turn left is three turns right; a turn changes the facing of the actor
    and nothing else, and any side other than ["RIGHT"] turns left. *)
Theorem tankTurn_spec (w : World) (side : string) :
  tankOk (player w) ->
  tankTurn (tankTurn w "RIGHT") "LEFT" = w
  /\ tankTurn (tankTurn w "LEFT") "RIGHT" = w
  /\ Nat.iter 4 (fun v => tankTurn v side) w = w
  /\ tankTurn w "LEFT" = Nat.iter 3 (fun v => tankTurn v "RIGHT") w
  /\ setDir (player (tankTurn w side)) 0 = setDir (player w) 0
  /\ setPlayer (tankTurn w side) (player w) = w
  /\ (side <> "RIGHT" -> tankTurn w side = tankTurn w "LEFT").
Proof.
  intros (_ & _ & _ & Hd). destruct w as [[px py pd ph] e t m]. simpl in Hd.
  unfold tankTurn. simpl.
  repeat split; try reflexivity.
  - destruct Hd as [-> | [-> | [-> | ->]]]; reflexivity.
  - destruct Hd as [-> | [-> | [-> | ->]]]; reflexivity.
  - destruct (String.eqb side "RIGHT");
      destruct Hd as [-> | [-> | [-> | ->]]]; reflexivity.
  - destruct Hd as [-> | [-> | [-> | ->]]]; reflexivity.
  - intros Hs. apply String.eqb_neq in Hs. rewrite Hs. reflexivity.
Qed.

(** X4 in the initial world. *)
Lemma tankTurn_spec_witness :
  tankTurn (tankTurn makeInitialWorld "RIGHT") "LEFT" = makeInitialWorld
  /\ tankTurn (tankTurn makeInitialWorld "LEFT") "RIGHT" = makeInitialWorld
  /\ Nat.iter 4 (fun v => tankTurn v "RIGHT") makeInitialWorld
     = makeInitialWorld
  /\ tankTurn makeInitialWorld "LEFT"
     = Nat.iter 3 (fun v => tankTurn v "RIGHT") makeInitialWorld
  /\ setDir (player (tankTurn makeInitialWorld "RIGHT")) 0
     = setDir (player makeInitialWorld) 0
  /\ setPlayer (tankTurn makeInitialWorld "RIGHT") (player makeInitialWorld)
     = makeInitialWorld
  /\ ("RIGHT" <> "RIGHT" ->
      tankTurn makeInitialWorld "RIGHT" = tankTurn makeInitialWorld "LEFT").
Proof.
  apply (tankTurn_spec makeInitialWorld "RIGHT").
  unfold tankOk, makeInitialWorld, GRID. simpl. lia.
Defined.

(** ** Moving *)

Lemma moveVector_unit (p : Tank) (dirWord : string) :
  tankOk p ->
  exists dx dy,
    moveVector p dirWord = Returns (dx, dy)
    /\ -1 <= dx <= 1 /\ -1 <= dy <= 1.
Proof.
  intros (_ & _ & _ & Hd). unfold moveVector.
  repeat match goal with
         | |- context [String.eqb ?a ?b] => destruct (String.eqb a b)
         end;
    destruct Hd as [E|[E|[E|E]]]; rewrite ?E; simpl;
    do 2 eexists; (split; [reflexivity|lia]).
Qed.

Lemma iter_moveOnce_jump (n : nat) (dx dy : Z) (p : Tank) :
  0 <= x p < GRID -> 0 <= y p < GRID ->
  -1 <= dx <= 1 -> -1 <= dy <= 1 ->
  Nat.iter n (moveOnce dx dy) p = jump p dx dy n.
Proof.
  intros Hx Hy Hdx Hdy. unfold jump. induction n as [|n IH].
  - simpl. unfold clamp, GRID in *. destruct p as [px py pd ph]. simpl in *.
    unfold setPos. simpl. f_equal; lia.
  - rewrite Nat.iter_succ, IH. unfold moveOnce, setPos. simpl.
    unfold clamp, GRID in *. f_equal; nia.
Qed.



Lemma moveVector_back (p : Tank) (dirWord back : string) (dx dy : Z) :
  In (dirWord, back)
     [("FORWARD", "BACKWARD"); ("BACKWARD", "FORWARD");
      ("LEFT", "RIGHT"); ("RIGHT", "LEFT")] ->
  tankOk p ->
  moveVector p dirWord = Returns (dx, dy) ->
  moveVector p back = Returns (- dx, - dy).
Proof.
  intros Hin (_ & _ & _ & Hd) Hv.
  simpl in Hin.
  destruct Hin as [E|[E|[E|[E|[]]]]]; injection E as <- <-;
    destruct Hd as [D|[D|[D|D]]]; unfold moveVector in *; rewrite D in *;
    simpl in *; injection Hv as <- <-; reflexivity.
Qed.

Lemma setPlayer_player (w : World) : setPlayer w (player w) = w.
Proof. destruct w; reflexivity. Qed.

(** X6. When the straight path of a move stays on the grid, the same amount
    in the opposite direction word brings the tank back: the world is the one
    before the two moves, whichever of the four words came first. *)
Theorem tankMove_back (w : World) (dirWord back : string) (amount : number)
  (n : nat) (dx dy : Z) :
  In (dirWord, back)
     [("FORWARD", "BACKWARD"); ("BACKWARD", "FORWARD");
      ("LEFT", "RIGHT"); ("RIGHT", "LEFT")] ->
  tankOk (player w) ->
  loopCount amount = Some n ->
  moveVector (player w) dirWord = Returns (dx, dy) ->
  inBounds (x (player w) + Z.of_nat n * dx) (y (player w) + Z.of_nat n * dy)
  = true ->
  exists w1,
    tankMove w dirWord amount = Returns w1
    /\ player w1 = setPos (player w) (x (player w) + Z.of_nat n * dx)
                     (y (player w) + Z.of_nat n * dy)
    /\ tankMove w1 back amount = Returns w.
Proof.
  intros Hin Hp Hn Hv Hb.
  pose proof (moveVector_back (player w) dirWord back dx dy Hin Hp Hv) as Hv'.
  destruct (moveVector_unit (player w) dirWord Hp)
    as (dx0 & dy0 & Hv0 & Hdx & Hdy).
  rewrite Hv in Hv0. injection Hv0 as <- <-.
  destruct Hp as (Hx & Hy & Hhp & Hd).
  unfold inBounds, GRID in Hb.
  apply andb_prop in Hb as [Hb Hb4]. apply andb_prop in Hb as [Hb Hb3].
  apply andb_prop in Hb as [Hb1 Hb2].
  apply Z.geb_le in Hb1, Hb3. apply Z.ltb_lt in Hb2, Hb4.
  set (p1 := setPos (player w) (x (player w) + Z.of_nat n * dx)
               (y (player w) + Z.of_nat n * dy)).
  assert (Hj : jump (player w) dx dy n = p1).
  { unfold jump, p1, clamp, GRID. f_equal; lia. }
  exists (setPlayer w p1). split; [|split; [reflexivity|]].
  - unfold tankMove. rewrite Hv. cbn [bind]. rewrite Hn.
    rewrite (iter_moveOnce_jump n dx dy (player w) Hx Hy Hdx Hdy), Hj.
    reflexivity.
  - unfold tankMove.
    change (player (setPlayer w p1)) with p1.
    assert (Hvb : moveVector p1 back = Returns (- dx, - dy)).
    { unfold moveVector in *. exact Hv'. }
    rewrite Hvb. cbn [bind]. rewrite Hn.
    rewrite (iter_moveOnce_jump n (- dx) (- dy) p1);
      [|unfold p1, GRID; simpl; lia|unfold p1, GRID; simpl; lia|lia|lia].
    assert (Hj' : jump p1 (- dx) (- dy) n = player w).
    { unfold jump, p1, clamp, GRID, setPos in *. simpl.
      destruct (player w) as [px py pd ph]. simpl in *. f_equal; lia. }
    rewrite Hj'. destruct w; reflexivity.
Qed.

(** X6 for [MOVE 5 FORWARD] then [MOVE 5 BACKWARD] in the initial world. *)
Lemma tankMove_back_witness :
  exists w1,
    tankMove makeInitialWorld "FORWARD" (ofZ 5) = Returns w1
    /\ player w1 = setPos (player makeInitialWorld)
                     (x (player makeInitialWorld) + Z.of_nat 5 * 0)
                     (y (player makeInitialWorld) + Z.of_nat 5 * -1)
    /\ tankMove w1 "BACKWARD" (ofZ 5) = Returns makeInitialWorld.
Proof.
  apply (tankMove_back makeInitialWorld "FORWARD" "BACKWARD" (ofZ 5) 5 0 (-1)).
  - simpl. left. reflexivity.
  - unfold tankOk, makeInitialWorld, GRID. simpl. lia.
  - reflexivity.
  - reflexivity.
  - reflexivity.
Defined.

(** ** Amounts that move nothing *)

Lemma binary_round_aux_sign (prec emax : Z) (sx : bool) (mx ex : Z)
  (lx : location) :
  0 <= mx -> isNegative (binary_round_aux prec emax sx mx ex lx) = sx.
Proof.
  intros H. unfold binary_round_aux.
  pose proof (shr_fexp_nonneg prec emax mx ex lx H) as H1.
  destruct (shr_fexp prec emax mx ex lx) as [mrs' e']. simpl in H1.
  assert (H2 : 0 <= round_nearest_even (shr_m mrs') (loc_of_shr_record mrs')).
  { unfold round_nearest_even.
    destruct (loc_of_shr_record mrs') as [|[]]; try destruct (Z.even _); lia. }
  pose proof (shr_fexp_nonneg prec emax _ e' loc_Exact H2) as H3.
  destruct (shr_fexp prec emax _ e' loc_Exact) as [mrs'' e'']. simpl in H3.
  destruct (shr_m mrs'') as [|m|m]; [reflexivity| |lia].
  destruct (e'' <=? emax - prec); reflexivity.
Qed.

Lemma roundBinary_negative (m e : Z) (negZero : bool) :
  m < 0 -> isNegative (roundBinary m e negZero) = true.
Proof.
  intros H. unfold roundBinary, binary_normalize.
  destruct m as [|p|p]; try lia. unfold binary_round.
  destruct (shl_align _ _ _) as [mz ez].
  apply binary_round_aux_sign. lia.
Qed.

Lemma Math_floor_negative (v : number) :
  isNegative v = true -> isNegative (Math_floor v) = true.
Proof.
  destruct v as [s|s| |s m e]; simpl; try (intros H; exact H).
  intros ->. destruct (0 <=? e) eqn:E; [reflexivity|].
  apply roundBinary_negative. apply Z.leb_gt in E.
  assert (0 < 2 ^ (- e)) by (apply Z.pow_pos_nonneg; lia).
  apply Z.div_lt_upper_bound; lia.
Qed.

Lemma Math_max_zero_negative (v : number) :
  isNegative v = true -> Math_max zero v = zero.
Proof. destruct v as [s|s| |s m e]; simpl; intros H; subst; try discriminate; reflexivity. Qed.

Lemma amount_nothing (v : number) :
  isNegative v = true \/ v = NaN \/ v = zero ->
  loopCount (Math_max zero (Math_floor v)) = Some 0%nat.
Proof.
  intros [H | [-> | ->]]; [|reflexivity|reflexivity].
  rewrite (Math_max_zero_negative _ (Math_floor_negative v H)). reflexivity.
Qed.

(** A variable never assigned reads as 0, or as a member of
    [Object.prototype], which is not a number. *)
Lemma getVal_unbound (name : string) (rt : Runtime) :
  vars rt !! name = None ->
  toNumber (getVal (EVar name) rt) = zero
  \/ toNumber (getVal (EVar name) rt) = NaN.
Proof.
  intros H. unfold getVal, lookupVar. rewrite H.
  destruct (inherited name); [right|left]; reflexivity.
Qed.

(** X7. A [MOVE] whose amount is negative, not a number or zero, as that of a
    variable never assigned (0, or under an inherited name a member of
    [Object.prototype], which is not a number), runs the loop of [tankMove]
    no time: the step returns, and changes the message and the counter
    only. *)
Theorem move_nothing (w : World) (prog : Program) (rt : Runtime)
  (amount : Expr) (d : string) :
  tankOk (player w) ->
  activeStmt prog rt = Some (SMove amount d) ->
  isNegative (toNumber (getVal amount rt)) = true
  \/ toNumber (getVal amount rt) = NaN
  \/ toNumber (getVal amount rt) = zero
  \/ (exists name, amount = EVar name /\ vars rt !! name = None) ->
  exists m,
    stepProgram w prog rt = Returns (setMessage w m, advance rt, true).
Proof.
  intros Hp Hs Hv.
  assert (Hv' : isNegative (toNumber (getVal amount rt)) = true
                \/ toNumber (getVal amount rt) = NaN
                \/ toNumber (getVal amount rt) = zero).
  { destruct Hv as [H|[H|[H|(name & -> & H)]]]; auto.
    destruct (getVal_unbound name rt H); auto. }
  rewrite (stepProgram_exec w prog rt _ Hs). cbn [execStmt].
  destruct (moveVector_returns (player w) d Hp) as ([dx dy] & Hmv).
  unfold tankMove. rewrite Hmv. cbn [bind].
  rewrite (amount_nothing _ Hv'). cbn [Nat.iter bind].
  eexists. simpl. rewrite setPlayer_player. reflexivity.
Qed.

(** X7 for [MOVE -3 FORWARD] in the initial world. *)
Lemma move_nothing_witness :
  exists m,
    stepProgram makeInitialWorld
      {| stmts := [SMove (ENumber (ofZ (-3))) "FORWARD"]; functions := ∅ |}
      makeRuntime
    = Returns (setMessage makeInitialWorld m, advance makeRuntime, true).
Proof.
  apply (move_nothing makeInitialWorld
           {| stmts := [SMove (ENumber (ofZ (-3))) "FORWARD"];
              functions := ∅ |}
           makeRuntime (ENumber (ofZ (-3))) "FORWARD").
  - unfold tankOk, makeInitialWorld, GRID. simpl. lia.
  - reflexivity.
  - left. reflexivity.
Defined.

(** A variable never assigned and named as a member of [Object.prototype]:
    an [IF] on it selects the THEN branch, a [MOVE] by it moves by [NaN]
    cells, that is by none. *)
Example inherited_reads :
  chosenBranch (EVar "constructor") SAttack None makeRuntime = Some SAttack
  /\ chosenBranch (EVar "nothing") SAttack None makeRuntime = None
  /\ stepProgram makeInitialWorld
       {| stmts := [SMove (EVar "toString") "FORWARD"]; functions := ∅ |}
       makeRuntime
     = Returns (setMessage makeInitialWorld "MOVE NaN FORWARD",
                advance makeRuntime, true).
Proof. vm_compute. repeat split. Qed.

(** ** What a step touches *)

Lemma iter_moveOnce_keeps (n : nat) (dx dy : Z) (p : Tank) :
  dir (Nat.iter n (moveOnce dx dy) p) = dir p
  /\ hp (Nat.iter n (moveOnce dx dy) p) = hp p.
Proof.
  induction n as [|n [IHd IHh]]; [split; reflexivity|].
  rewrite Nat.iter_succ. unfold moveOnce at 1 3. simpl. split; assumption.
Qed.

Lemma tankMove_effect (w : World) (dirWord : string) (amount : number)
  (w' : World) :
  tankMove w dirWord amount = Returns w' ->
  enemy w' = enemy w /\ tick w' = tick w /\ message w' = message w
  /\ dir (player w') = dir (player w) /\ hp (player w') = hp (player w).
Proof.
  unfold tankMove. destruct (moveVector (player w) dirWord) as [[dx dy]| | |];
    try discriminate.
  cbn [bind]. destruct (loopCount amount) as [n|]; try discriminate.
  intros H. injection H as <-. simpl.
  destruct (iter_moveOnce_keeps n dx dy (player w)) as [Hd Hh]. auto.
Qed.

Lemma tankAttack_effect (w : World) :
  player (tankAttack w) = player w /\ tick (tankAttack w) = tick w
  /\ (enemy (tankAttack w) = enemy w
      \/ (attackHits w = true
          /\ enemy (tankAttack w)
             = setHp (enemy w) (Z.max 0 (hp (enemy w) - 40)))).
Proof.
  destruct (attackHits w) eqn:E.
  - rewrite (tankAttack_hit w E). simpl. auto.
  - rewrite (tankAttack_miss w E). simpl. auto.
Qed.

Lemma execStmt_effect (w : World) (prog : Program) (rt : Runtime) (s : Stmt)
  (w' : World) (rt' : Runtime) (b : bool) :
  execStmt w prog rt s = Returns (w', rt', b) ->
  hp (player w') = hp (player w) /\ tick w' = tick w
  /\ (enemy w' = enemy w
      \/ (s = SAttack /\ attackHits w = true
          /\ enemy w' = setHp (enemy w) (Z.max 0 (hp (enemy w) - 40)))).
Proof.
  intros H.
  destruct s as [name value|amount d|d| | |cond th el|name| |name body];
    [apply execStmt_assign_inv in H|simpl in H| | | |rewrite execStmt_if in H
    |apply execStmt_call_inv in H| |]; simpl in H.
  - destruct H as (rt1 & text & _ & _ & -> & _). simpl. auto.
  - destruct (tankMove w d _) as [w1| | |] eqn:E; try discriminate.
    simpl in H. injection H as <- _ _.
    destruct (tankMove_effect _ _ _ _ E) as (He & Ht & _ & _ & Hh).
    simpl. auto.
  - injection H as <- _ _. simpl. auto.
  - injection H as <- _ _. simpl. auto.
  - injection H as <- _ _.
    destruct (tankAttack_effect w) as (Hp & Ht & [He|[Ha He]]).
    + rewrite Hp. auto.
    + rewrite Hp. split; [reflexivity|]. split; [exact Ht|]. right. auto.
  - destruct (chosenBranch cond th el rt);
      injection H as <- _ _; simpl; auto.
  - destruct H as (-> & _). simpl. auto.
  - injection H as <- _ _. auto.
  - injection H as <- _ _. auto.
Qed.

Lemma stepProgram_effect (w : World) (prog : Program) (rt : Runtime)
  (w' : World) (rt' : Runtime) (b : bool) :
  stepProgram w prog rt = Returns (w', rt', b) ->
  hp (player w') = hp (player w) /\ tick w' = tick w
  /\ (enemy w' = enemy w
      \/ (activeStmt prog rt = Some SAttack /\ attackHits w = true
          /\ enemy w' = setHp (enemy w) (Z.max 0 (hp (enemy w) - 40)))).
Proof.
  intros H. unfold stepProgram in H.
  destruct (length (activeList prog rt) <=? activePc rt)%nat.
  - destruct (head (stack rt)); injection H as <- _ _; auto.
  - destruct (activeList prog rt !! activePc rt) as [s|] eqn:E;
      try discriminate.
    destruct (execStmt_effect w prog rt s w' rt' b H) as (Hh & Ht & [He|(-> & Ha & He)]);
      auto.
    split; [exact Hh|]. split; [exact Ht|]. right. auto.
Qed.

Lemma enemyStep_effect (w w' : World) :
  enemyStep w = Returns w' ->
  tick w' = tick w
  /\ (w' = w
      \/ (0 < hp (enemy w) /\ enemyFires w = true /\ enemy w' = enemy w
          /\ player w' = setHp (player w) (Z.max 0 (hp (player w) - 15))
          /\ message w' = message w +:+ " | Enemy fires (-15 HP)")
      \/ (0 < hp (enemy w) /\ enemyFires w = false /\ player w' = player w
          /\ message w' = message w
          /\ enemy w' = advanceAlong (enemy w) (chaseFacing w))).
Proof.
  intros H.
  destruct (Z.leb_spec (hp (enemy w)) 0) as [Hdead|Halive].
  - unfold enemyStep in H. apply Z.leb_le in Hdead. rewrite Hdead in H.
    injection H as <-. auto.
  - destruct (enemyFires w) eqn:Hf.
    + unfold enemyStep in H. pose proof Halive as Ha.
      apply Z.leb_gt in Halive. rewrite Halive in H.
      unfold enemyFires in Hf. rewrite Hf in H. injection H as <-.
      simpl. split; [reflexivity|]. right. left. auto.
    + rewrite (enemyStep_moves w Halive Hf) in H. injection H as <-.
      simpl. split; [reflexivity|]. right. right. auto.
Qed.

(** X8. A step of the program never changes the health of the actor, the
    tick, or the cell and the facing of the opponent; the health of the
    opponent changes only when the statement is [ATTACK] and the attack hits,
    and then to [max 0 (hp - 40)]. *)
Theorem stepProgram_frame (w : World) (prog : Program) (rt : Runtime)
  (w' : World) (rt' : Runtime) (b : bool) :
  stepProgram w prog rt = Returns (w', rt', b) ->
  hp (player w') = hp (player w)
  /\ tick w' = tick w
  /\ setHp (enemy w') 0 = setHp (enemy w) 0
  /\ (activeStmt prog rt <> Some SAttack \/ attackHits w = false ->
      enemy w' = enemy w)
  /\ (activeStmt prog rt = Some SAttack -> attackHits w = true ->
      hp (enemy w') = Z.max 0 (hp (enemy w) - 40)).
Proof.
  intros H.
  destruct (stepProgram_effect w prog rt w' rt' b H)
    as (Hh & Ht & [He|(Hs & Ha & He)]).
  - split; [exact Hh|]. split; [exact Ht|]. split; [rewrite He; reflexivity|].
    split; [intros _; exact He|].
    intros Hs Ha. rewrite (stepProgram_exec w prog rt _ Hs) in H.
    simpl in H. injection H as <- _ _. rewrite (tankAttack_hit w Ha).
    reflexivity.
  - split; [exact Hh|]. split; [exact Ht|]. split; [rewrite He; reflexivity|].
    split.
    + intros [Hn|Hn]; [contradiction|congruence].
    + intros _ _. rewrite He. reflexivity.
Qed.

(** X8 for the first step of [MOVE 30 LEFT] in the initial world. *)
Lemma stepProgram_frame_witness :
  let w' := setMessage
              (setPlayer makeInitialWorld {| x := 0; y := 17; dir := 0; hp := 100 |})
              "MOVE 30 LEFT" in
  hp (player w') = hp (player makeInitialWorld)
  /\ tick w' = tick makeInitialWorld
  /\ setHp (enemy w') 0 = setHp (enemy makeInitialWorld) 0
  /\ (activeStmt moveLeftProgram makeRuntime <> Some SAttack
      \/ attackHits makeInitialWorld = false ->
      enemy w' = enemy makeInitialWorld)
  /\ (activeStmt moveLeftProgram makeRuntime = Some SAttack ->
      attackHits makeInitialWorld = true ->
      hp (enemy w') = Z.max 0 (hp (enemy makeInitialWorld) - 40)).
Proof.
  apply (stepProgram_frame makeInitialWorld moveLeftProgram makeRuntime _
           (advance makeRuntime) true).
  vm_compute. reflexivity.
Defined.

(** X9. A step of the opponent never changes its own health, the tick, or
    the cell and the facing of the actor; it does one of three things: nothing
    (the opponent is dead), fire (the actor loses 15 health, not below zero,
    the opponent stays as it is) or move (the actor and the message stay). *)
Theorem enemyStep_frame (w w' : World) :
  enemyStep w = Returns w' ->
  hp (enemy w') = hp (enemy w)
  /\ tick w' = tick w
  /\ setHp (player w') 0 = setHp (player w) 0
  /\ (hp (enemy w) <= 0 -> w' = w)
  /\ (0 < hp (enemy w) -> enemyFires w = true ->
      enemy w' = enemy w
      /\ hp (player w') = Z.max 0 (hp (player w) - 15)
      /\ message w' = message w +:+ " | Enemy fires (-15 HP)")
  /\ (0 < hp (enemy w) -> enemyFires w = false ->
      player w' = player w /\ message w' = message w).
Proof.
  intros H.
  destruct (enemyStep_effect w w' H)
    as (Ht & [->|[(Ha & Hf & He & Hp & Hm)|(Ha & Hf & Hp & Hm & He)]]).
  - assert (Hfire : 0 < hp (enemy w) -> enemyFires w = true ->
             w = setMessage
                   (setPlayer w (setHp (player w) (Z.max 0 (hp (player w) - 15))))
                   (message w +:+ " | Enemy fires (-15 HP)")).
    { intros Ha Hf. unfold enemyStep in H. apply Z.leb_gt in Ha.
      rewrite Ha in H. unfold enemyFires in Hf. rewrite Hf in H.
      injection H as H. symmetry. exact H. }
    split; [reflexivity|]. split; [reflexivity|]. split; [reflexivity|].
    split; [reflexivity|]. split; [|auto].
    intros Ha Hf. specialize (Hfire Ha Hf).
    split; [reflexivity|]. split; rewrite Hfire at 1; reflexivity.
  - split; [rewrite He; reflexivity|]. split; [exact Ht|].
    split; [rewrite Hp; reflexivity|]. split; [lia|].
    split; [intros _ _; rewrite Hp; auto|]. congruence.
  - split.
    { rewrite He. unfold advanceAlong.
      destruct (DIRS_at (chaseFacing w)) as [[dx dy]|]; reflexivity. }
    split; [exact Ht|]. split; [rewrite Hp; reflexivity|]. split; [lia|].
    split; [congruence|]. auto.
Qed.

(** X9 for a shot in [duelWorld]. *)
Lemma enemyStep_frame_witness :
  let w' := setMessage
              (setPlayer duelWorld (setHp (player duelWorld) 85))
              " | Enemy fires (-15 HP)" in
  hp (enemy w') = hp (enemy duelWorld)
  /\ tick w' = tick duelWorld
  /\ setHp (player w') 0 = setHp (player duelWorld) 0
  /\ (hp (enemy duelWorld) <= 0 -> w' = duelWorld)
  /\ (0 < hp (enemy duelWorld) -> enemyFires duelWorld = true ->
      enemy w' = enemy duelWorld
      /\ hp (player w') = Z.max 0 (hp (player duelWorld) - 15)
      /\ message w' = message duelWorld +:+ " | Enemy fires (-15 HP)")
  /\ (0 < hp (enemy duelWorld) -> enemyFires duelWorld = false ->
      player w' = player duelWorld /\ message w' = message duelWorld).
Proof.
  apply (enemyStep_frame duelWorld). vm_compute. reflexivity.
Defined.

(** ** The chase *)

(** X10. While the opponent lives and does not fire, each of its steps
    brings it one cell nearer to the actor in Manhattan distance when the two
    are on the grid in different cells; when they share a cell it steps up
    and leaves the cell, unless that cell is in the top row. *)
Theorem enemyStep_closes_in (w : World) :
  worldOk w -> 0 < hp (enemy w) -> enemyFires w = false ->
  exists w',
    enemyStep w = Returns w'
    /\ (x (enemy w) <> x (player w) \/ y (enemy w) <> y (player w) ->
        manhattan (enemy w') (player w')
        = manhattan (enemy w) (player w) - 1)
    /\ (x (enemy w) = x (player w) -> y (enemy w) = y (player w) ->
        manhattan (enemy w') (player w')
        = if y (enemy w) =? 0 then 0 else 1).
Proof.
  intros [(Hx & Hy & _) (Hex & Hey & _)] Ha Hf.
  exists (setEnemy w (advanceAlong (enemy w) (chaseFacing w))).
  split; [exact (enemyStep_moves w Ha Hf)|].
  unfold manhattan, advanceAlong, chaseFacing, clamp, GRID in *. simpl.
  destruct (Z.eqb_spec (y (player w)) (y (enemy w))) as [Ey|Ey];
    destruct (Z.eqb_spec (x (player w)) (x (enemy w))) as [Ex|Ex]; simpl.
  - destruct (Z.gtb_spec (y (player w)) (y (enemy w))); [lia|]. simpl.
    split; [lia|]. intros _ _.
    destruct (Z.eqb_spec (y (enemy w)) 0); lia.
  - destruct (Z.gtb_spec (x (player w)) (x (enemy w))); simpl; split; lia.
  - destruct (Z.gtb_spec (y (player w)) (y (enemy w))); simpl; split; lia.
  - destruct (Z.gtb_spec (y (player w)) (y (enemy w))); simpl; split; lia.
Qed.

(** X10 in the initial world. *)
Lemma enemyStep_closes_in_witness :
  exists w',
    enemyStep makeInitialWorld = Returns w'
    /\ (x (enemy makeInitialWorld) <> x (player makeInitialWorld)
        \/ y (enemy makeInitialWorld) <> y (player makeInitialWorld) ->
        manhattan (enemy w') (player w')
        = manhattan (enemy makeInitialWorld) (player makeInitialWorld) - 1)
    /\ (x (enemy makeInitialWorld) = x (player makeInitialWorld) ->
        y (enemy makeInitialWorld) = y (player makeInitialWorld) ->
        manhattan (enemy w') (player w')
        = if y (enemy makeInitialWorld) =? 0 then 0 else 1).
Proof.
  apply (enemyStep_closes_in makeInitialWorld).
  - unfold worldOk, tankOk, makeInitialWorld, GRID. simpl. lia.
  - simpl. lia.
  - reflexivity.
Defined.

(** ** Runs *)

Lemma worldStep_effect (w w' : World) :
  worldStep w w' ->
  tick w' = tick w
  /\ (enemy w' = enemy w
      \/ enemy w' = setHp (enemy w) (Z.max 0 (hp (enemy w) - 40))
      \/ (0 < hp (enemy w) /\ hp (enemy w') = hp (enemy w)))
  /\ (hp (player w') = hp (player w)
      \/ (0 < hp (enemy w)
          /\ hp (player w') = Z.max 0 (hp (player w) - 15))).
Proof.
  intros [w0 prog rt w1 rt' b H|w0 w1 H].
  - destruct (stepProgram_effect _ _ _ _ _ _ H) as (Hh & Ht & [He|(_ & _ & He)]);
      auto.
  - destruct (enemyStep_effect _ _ H)
      as (Ht & [->|[(Ha & Hf & He & Hp & Hm)|(Ha & Hf & Hp & Hm & He)]]).
    + auto.
    + split; [exact Ht|]. split; [auto|]. right. rewrite Hp. auto.
    + split; [exact Ht|]. split; [|rewrite Hp; auto].
      right. right. split; [exact Ha|]. rewrite He. unfold advanceAlong.
      destruct (DIRS_at (chaseFacing w0)) as [[dx dy]|]; reflexivity.
Qed.

(** X11. Once the health of the opponent is zero, no sequence of program
    steps and opponent steps, with any programs and runtimes, changes the
    opponent or the health of the actor. *)
Theorem dead_enemy_inert (w w' : World) :
  hp (enemy w) = 0 -> worldRun w w' ->
  enemy w' = enemy w /\ hp (player w') = hp (player w).
Proof.
  intros Hdead Hrun. induction Hrun as [w|w w1 w2 Hrun IH Hstep].
  - auto.
  - destruct (IH Hdead) as [He Hp].
    destruct (worldStep_effect w1 w2 Hstep) as (_ & He2 & Hp2).
    rewrite He, Hdead in He2. rewrite He in Hp2. split.
    + destruct He2 as [E|[E|[E _]]]; [congruence| |lia].
      rewrite E. destruct (enemy w) as [ex ey ed eh]. simpl in *. subst eh.
      reflexivity.
    + destruct Hp2 as [E|[E _]]; [congruence|lia].
Qed.

Lemma wonWorld_run :
  worldRun wonWorld (setMessage wonWorld "ATTACK hit! Enemy -40 HP").
Proof.
  eapply wr_step; [apply wr_refl|].
  apply (ws_program wonWorld
           {| stmts := [SAttack]; functions := ∅ |} makeRuntime
           (setMessage wonWorld "ATTACK hit! Enemy -40 HP")
           (advance makeRuntime) true).
  vm_compute. reflexivity.
Defined.

(** X11 for an attack on the destroyed opponent of [wonWorld]. *)
Lemma dead_enemy_inert_witness :
  enemy (setMessage wonWorld "ATTACK hit! Enemy -40 HP") = enemy wonWorld
  /\ hp (player (setMessage wonWorld "ATTACK hit! Enemy -40 HP"))
     = hp (player wonWorld).
Proof.
  apply (dead_enemy_inert wonWorld). reflexivity. exact wonWorld_run.
Defined.

(** X12. Along any sequence of program steps and opponent steps that starts
    with both healths at zero or above, no health ever rises or falls below
    zero, and the tick stays: only the driver counts it. *)
Theorem health_never_rises (w w' : World) :
  0 <= hp (player w) -> 0 <= hp (enemy w) -> worldRun w w' ->
  0 <= hp (player w') <= hp (player w)
  /\ 0 <= hp (enemy w') <= hp (enemy w)
  /\ tick w' = tick w.
Proof.
  intros Hp He Hrun. induction Hrun as [w|w w1 w2 Hrun IH Hstep].
  - lia.
  - destruct (IH Hp He) as (IHp & IHe & IHt).
    destruct (worldStep_effect w1 w2 Hstep) as (Ht & He2 & Hp2).
    split; [|split].
    + destruct Hp2 as [E|[_ E]]; lia.
    + destruct He2 as [E|[E|[_ E]]]; [rewrite E; lia| |lia].
      rewrite E. simpl. lia.
    + congruence.
Qed.

Lemma duelWorld_run :
  worldRun duelWorld
    (setMessage
       (setPlayer
          (setEnemy duelWorld (setHp (enemy duelWorld) 60))
          (setHp (player duelWorld) 85))
       "ATTACK hit! Enemy -40 HP | Enemy fires (-15 HP)").
Proof.
  eapply wr_step; [eapply wr_step; [apply wr_refl|]|].
  - apply (ws_program duelWorld
             {| stmts := [SAttack]; functions := ∅ |} makeRuntime
             (setMessage (setEnemy duelWorld (setHp (enemy duelWorld) 60))
                "ATTACK hit! Enemy -40 HP")
             (advance makeRuntime) true).
    vm_compute. reflexivity.
  - apply ws_enemy. vm_compute. reflexivity.
Defined.

(** X12 for one exchange of fire in [duelWorld]. *)
Lemma health_never_rises_witness :
  let w' :=
    setMessage
      (setPlayer
         (setEnemy duelWorld (setHp (enemy duelWorld) 60))
         (setHp (player duelWorld) 85))
      "ATTACK hit! Enemy -40 HP | Enemy fires (-15 HP)" in
  0 <= hp (player w') <= hp (player duelWorld)
  /\ 0 <= hp (enemy w') <= hp (enemy duelWorld)
  /\ tick w' = tick duelWorld.
Proof.
  apply (health_never_rises duelWorld).
  - simpl. lia.
  - simpl. lia.
  - exact duelWorld_run.
Defined.

(** ** Repeated attacks *)

Lemma iter_tankAttack_hits (n : nat) (w : World) :
  attackHits w = true -> attackHits (Nat.iter n tankAttack w) = true.
Proof.
  intros H. induction n as [|n IH]; [exact H|].
  rewrite Nat.iter_succ, attackHits_tankAttack. exact IH.
Qed.

(** X13. While the attack hits, [n] attacks in a row take [40 * n] from the
    health of the opponent, not below zero; so three attacks destroy an
    opponent of health 100 or less, and further ones keep it at zero. *)
Theorem tankAttack_repeated (w : World) (n : nat) :
  attackHits w = true -> 0 <= hp (enemy w) ->
  hp (enemy (Nat.iter n tankAttack w))
  = Z.max 0 (hp (enemy w) - 40 * Z.of_nat n)
  /\ (hp (enemy w) <= 100 -> (3 <= n)%nat ->
      hp (enemy (Nat.iter n tankAttack w)) = 0).
Proof.
  intros Hh H0.
  assert (Hn : forall k, hp (enemy (Nat.iter k tankAttack w))
                         = Z.max 0 (hp (enemy w) - 40 * Z.of_nat k)).
  { induction k as [|k IH]; [simpl; lia|].
    rewrite Nat.iter_succ.
    rewrite (tankAttack_hit _ (iter_tankAttack_hits k w Hh)). simpl.
    rewrite IH. lia. }
  split; [apply Hn|]. intros H100 H3. rewrite Hn. lia.
Qed.

(** X13 for three attacks in [duelWorld]. *)
Lemma tankAttack_repeated_witness :
  hp (enemy (Nat.iter 3 tankAttack duelWorld))
  = Z.max 0 (hp (enemy duelWorld) - 40 * Z.of_nat 3)
  /\ (hp (enemy duelWorld) <= 100 -> (3 <= 3)%nat ->
      hp (enemy (Nat.iter 3 tankAttack duelWorld)) = 0).
Proof.
  apply (tankAttack_repeated duelWorld 3).
  - reflexivity.
  - simpl. lia.
Defined.

(** ** The counters of the stepper *)

Lemma advance_top (rt : Runtime) :
  stack rt = [] -> advance rt = setPc rt (S (pc rt)).
Proof. intros H. unfold advance. rewrite H. reflexivity. Qed.

Lemma activeStmt_top (prog : Program) (rt : Runtime) :
  stack rt = [] -> activeStmt prog rt = stmts prog !! pc rt.
Proof.
  intros H. unfold activeStmt, activeList, activePc. rewrite H. reflexivity.
Qed.

Lemma stepProgram_top (w : World) (prog : Program) (rt : Runtime)
  (w' : World) (rt' : Runtime) (b : bool) :
  stack rt = [] ->
  stepProgram w prog rt = Returns (w', rt', b) ->
  (b = false /\ (length (stmts prog) <= pc rt)%nat /\ w' = w /\ rt' = rt)
  \/ (b = true /\ (pc rt < length (stmts prog))%nat
      /\ ((pc rt' = S (pc rt) /\ stack rt' = [])
          \/ (pc rt' = pc rt
              /\ exists cond th el s,
                   activeStmt prog rt = Some (SIf cond th el)
                   /\ chosenBranch cond th el rt = Some s
                   /\ stack rt' = [ifFrame s])
          \/ (pc rt' = S (pc rt)
              /\ exists name body,
                   activeStmt prog rt = Some (SCall name)
                   /\ callee prog name = Returns (Some body)
                   /\ stack rt' = [frameAt name 0 body]))).
Proof.
  intros Hs H. unfold stepProgram in H.
  pose proof (activeStmt_top prog rt Hs) as Ha.
  unfold activeStmt in Ha.
  assert (Hl : activeList prog rt = stmts prog)
    by (unfold activeList; rewrite Hs; reflexivity).
  assert (Hp : activePc rt = pc rt)
    by (unfold activePc; rewrite Hs; reflexivity).
  rewrite Hl, Hp in H.
  destruct (Nat.leb_spec (length (stmts prog)) (pc rt)) as [Hle|Hlt].
  - rewrite Hs in H. simpl in H. injection H as <- <- <-. left. auto.
  - right. destruct (stmts prog !! pc rt) as [s|] eqn:E; [|discriminate].
    assert (Hact : activeStmt prog rt = Some s).
    { unfold activeStmt. rewrite Hl, Hp. exact E. }
    destruct s as [name value|amount d|d| | |cond th el|name| |name body];
      [apply execStmt_assign_inv in H|simpl in H| | | |rewrite execStmt_if in H
      |apply execStmt_call_inv in H| |]; simpl in H.
    + destruct H as (rt1 & text & Hasg & _ & _ & -> & ->).
      destruct (assignVar_frame rt name _ rt1 Hasg) as (Hpc & Hst & _).
      rewrite Hs in Hst. split; [reflexivity|]. split; [exact Hlt|].
      left. rewrite (advance_top rt1 Hst). simpl. auto.
    + destruct (tankMove w d _); simpl in H; try discriminate.
      injection H as <- <- <-. split; [reflexivity|]. split; [exact Hlt|].
      left. rewrite (advance_top rt Hs). auto.
    + injection H as <- <- <-. split; [reflexivity|]. split; [exact Hlt|].
      left. rewrite (advance_top rt Hs). auto.
    + injection H as <- <- <-. split; [reflexivity|]. split; [exact Hlt|].
      left. unfold advance. simpl. rewrite Hs. auto.
    + injection H as <- <- <-. split; [reflexivity|]. split; [exact Hlt|].
      left. rewrite (advance_top rt Hs). auto.
    + destruct (chosenBranch cond th el rt) as [s|] eqn:C.
      * injection H as <- <- <-. split; [reflexivity|]. split; [exact Hlt|].
        right. left. split; [reflexivity|].
        exists cond, th, el, s. split; [exact Hact|]. split; [exact C|].
        unfold push. simpl. rewrite Hs. reflexivity.
      * injection H as <- <- <-. split; [reflexivity|]. split; [exact Hlt|].
        left. rewrite (advance_top rt Hs). auto.
    + destruct H as (_ & -> & [[_ ->]|(body & F & ->)]);
        (split; [reflexivity|]); (split; [exact Hlt|]).
      * left. rewrite (advance_top rt Hs). auto.
      * right. right. rewrite (advance_top rt Hs). split; [reflexivity|].
        exists name, body. split; [exact Hact|]. split; [exact F|].
        unfold push. simpl. rewrite Hs. reflexivity.
    + injection H as <- <- <-. split; [reflexivity|]. split; [exact Hlt|].
      left. rewrite (advance_top rt Hs). auto.
    + injection H as <- <- <-. split; [reflexivity|]. split; [exact Hlt|].
      left. rewrite (advance_top rt Hs). auto.
Qed.

Lemma stepProgram_frame_true (w : World) (prog : Program) (rt : Runtime)
  (f : Frame.t) (below : list Frame.t)
  (w' : World) (rt' : Runtime) (b : bool) :
  stack rt = f :: below ->
  stepProgram w prog rt = Returns (w', rt', b) -> b = true.
Proof.
  intros Hs H. unfold stepProgram in H.
  destruct (length (activeList prog rt) <=? activePc rt)%nat.
  - rewrite Hs in H. simpl in H. injection H as _ _ <-. reflexivity.
  - destruct (activeList prog rt !! activePc rt) as [s|]; [|discriminate].
    destruct s as [name value|amount d|d| | |cond th el|name| |name body];
      [apply execStmt_assign_inv in H|simpl in H| | | |rewrite execStmt_if in H
      |apply execStmt_call_inv in H| |]; simpl in H;
      try (destruct H as (rt1 & text & _ & _ & _ & _ & ->); reflexivity);
      try (destruct H as (_ & -> & _); reflexivity);
      try (destruct (tankMove w d _); simpl in H; try discriminate);
      try (destruct (chosenBranch cond th el rt));
      injection H as _ _ <-; reflexivity.
Qed.

(** X14. [stepProgram] returns [false] exactly when nothing is left to run:
    no frame on the stack and the top-level counter at or past the end of the
    program; it then leaves the world and the runtime as they are.  Any step
    that finds a frame or a statement returns [true]. *)
Theorem stepProgram_flag (w : World) (prog : Program) (rt : Runtime)
  (w' : World) (rt' : Runtime) (b : bool) :
  stepProgram w prog rt = Returns (w', rt', b) ->
  (b = false <-> stack rt = [] /\ (length (stmts prog) <= pc rt)%nat)
  /\ (b = false -> w' = w /\ rt' = rt).
Proof.
  intros H. destruct (stack rt) as [|f below] eqn:Hs.
  - destruct (stepProgram_top w prog rt w' rt' b Hs H)
      as [(-> & Hle & -> & ->)|(-> & Hlt & _)].
    + split; [split; auto|auto].
    + split; [split; [discriminate|intros [_ Hle]; lia]|discriminate].
  - rewrite (stepProgram_frame_true w prog rt f below w' rt' b Hs H).
    split; [split; [discriminate|intros [E _]; discriminate]|discriminate].
Qed.

(** X14 for the sample program after its only statement. *)
Lemma stepProgram_flag_witness :
  (false = false <->
   stack (setPc makeRuntime 1) = []
   /\ (length (stmts moveLeftProgram) <= pc (setPc makeRuntime 1))%nat)
  /\ (false = false ->
      makeInitialWorld = makeInitialWorld
      /\ setPc makeRuntime 1 = setPc makeRuntime 1).
Proof.
  apply (stepProgram_flag makeInitialWorld moveLeftProgram
           (setPc makeRuntime 1)).
  reflexivity.
Defined.

(** X15. A step moves the top-level counter forward by at most one and never
    back, and not at all while a frame is on the stack; it changes the depth
    of the stack by at most one, and leaves every frame below the top one as
    it was. *)
Theorem stepProgram_counters (w : World) (prog : Program) (rt : Runtime)
  (w' : World) (rt' : Runtime) (b : bool) :
  stepProgram w prog rt = Returns (w', rt', b) ->
  (pc rt <= pc rt' <= S (pc rt))%nat
  /\ (stack rt <> [] -> pc rt' = pc rt)
  /\ (length (stack rt) - 1 <= length (stack rt')
      <= S (length (stack rt)))%nat
  /\ (exists pre, (length pre <= 2)%nat
                  /\ stack rt' = (pre ++ tail (stack rt))%list).
Proof.
  intros H. destruct (stack rt) as [|f below] eqn:Hs.
  - destruct (stepProgram_top w prog rt w' rt' b Hs H)
      as [(-> & Hle & -> & ->)
         |(-> & Hlt & [[Hp Hst]
                      |[(Hp & cond & th & el & s & _ & _ & Hst)
                       |(Hp & name & body & _ & _ & Hst)]])].
    + rewrite Hs. simpl. split; [lia|]. split; [congruence|].
      split; [lia|]. exists []. simpl. split; [lia|reflexivity].
    + rewrite Hst, Hp. simpl. split; [lia|]. split; [congruence|].
      split; [lia|]. exists []. simpl. split; [lia|reflexivity].
    + rewrite Hst, Hp. simpl. split; [lia|]. split; [congruence|].
      split; [lia|]. exists [ifFrame s]. simpl. split; [lia|reflexivity].
    + rewrite Hst, Hp. simpl. split; [lia|]. split; [congruence|].
      split; [lia|]. exists [frameAt name 0 body]. simpl.
      split; [lia|reflexivity].
  - destruct (stepProgram_stack w prog rt f below w' rt' b Hs H)
      as (Hp & [Hst|[(f' & Hst)|(g & f' & Hst)]]);
      rewrite Hst, Hp; simpl.
    + split; [lia|]. split; [reflexivity|]. split; [lia|].
      exists []. simpl. split; [lia|reflexivity].
    + split; [lia|]. split; [reflexivity|]. split; [lia|].
      exists [f']. simpl. split; [lia|reflexivity].
    + split; [lia|]. split; [reflexivity|]. split; [lia|].
      exists [g; f']. simpl. split; [lia|reflexivity].
Qed.

(** X15 for the call of [Patrol] in [patrolProgram]. *)
Lemma stepProgram_counters_witness :
  let rt' := push (advance makeRuntime)
               (frameAt "Patrol" 0 [STurn "RIGHT"; SAttack]) in
  (pc makeRuntime <= pc rt' <= S (pc makeRuntime))%nat
  /\ (stack makeRuntime <> [] -> pc rt' = pc makeRuntime)
  /\ (length (stack makeRuntime) - 1 <= length (stack rt')
      <= S (length (stack makeRuntime)))%nat
  /\ (exists pre, (length pre <= 2)%nat
                  /\ stack rt' = (pre ++ tail (stack makeRuntime))%list).
Proof.
  apply (stepProgram_counters makeInitialWorld patrolProgram makeRuntime
           (setMessage makeInitialWorld "CALL Patrol") _ true).
  vm_compute. reflexivity.
Defined.

(** ** Variables *)

(** X16. An assignment of a number is read back: the step returns; under a
    name that does not call the setter of [__proto__] the variable then holds
    the number and the message shows the name and the number; under
    [__proto__], which [rt.vars] inherits as a setter that ignores numbers,
    no variable is bound, the name still reads as [Object.prototype] and the
    message shows [[object Object]].  Every other variable reads as it did,
    and the tanks are untouched. *)
Theorem assign_then_read (w : World) (prog : Program) (rt : Runtime)
  (name : string) (value : Expr) (n : number) :
  activeStmt prog rt = Some (SAssign name value) ->
  getVal value rt = VNumber n ->
  exists w' rt',
    stepProgram w prog rt = Returns (w', rt', true)
    /\ (callsSetter rt name = false ->
        vars rt' !! name = Some n
        /\ getVal (EVar name) rt' = VNumber n
        /\ message w' = "$" +:+ name +:+ " = " +:+ numberToString n)
    /\ (callsSetter rt name = true ->
        name = "__proto__" /\ vars rt' = vars rt
        /\ getVal (EVar name) rt' = VMember Prototype
        /\ message w' = "$__proto__ = [object Object]")
    /\ (forall other, other <> name ->
        getVal (EVar other) rt' = getVal (EVar other) rt)
    /\ enemySeen rt' = enemySeen rt
    /\ player w' = player w /\ enemy w' = enemy w.
Proof.
  intros Hs Hn. rewrite (stepProgram_exec w prog rt _ Hs).
  assert (Ha : assignVar rt name (getVal value rt) = Returns (setVar rt name n))
    by (rewrite Hn; reflexivity).
  destruct (execStmt_assign w prog rt name value _ Ha) as (text & Ht & ->).
  do 2 eexists. split; [reflexivity|].
  destruct (advance_vars (setVar rt name n)) as [Hv He].
  pose proof (assignVar_read rt name _ _ Ha) as R.
  split; [|split; [|split; [|split; [|split; reflexivity]]]].
  - intros Hc. rewrite Hc in R. destruct R as (n' & En & Hvars & Hl).
    rewrite Hn in En. injection En as <-.
    rewrite Hl in Ht. injection Ht as <-.
    split; [rewrite Hv, Hvars; apply lookup_insert_eq|].
    split; [|reflexivity].
    unfold getVal. rewrite lookupVar_advance, Hl. reflexivity.
  - intros Hc. rewrite Hc in R. destruct R as [Hrt Hl].
    rewrite Hl in Ht. injection Ht as <-.
    apply callsSetter_true in Hc. destruct Hc as [-> Hnone].
    split; [reflexivity|]. split; [rewrite Hv, Hrt; reflexivity|].
    split; [|reflexivity].
    unfold getVal. rewrite lookupVar_advance, Hl. reflexivity.
  - intros other Hne. unfold getVal.
    rewrite lookupVar_advance, lookupVar_setVar_ne by exact Hne. reflexivity.
  - rewrite He. apply setVar_frame.
Qed.

(** X16 for [N = 7] at the top of a program. *)
Lemma assign_then_read_witness :
  exists w' rt',
    stepProgram makeInitialWorld
      {| stmts := [SAssign "N" (ENumber (ofZ 7))]; functions := ∅ |}
      makeRuntime
    = Returns (w', rt', true)
    /\ (callsSetter makeRuntime "N" = false ->
        vars rt' !! "N" = Some (ofZ 7)
        /\ getVal (EVar "N") rt' = VNumber (ofZ 7)
        /\ message w' = "$" +:+ "N" +:+ " = " +:+ numberToString (ofZ 7))
    /\ (callsSetter makeRuntime "N" = true ->
        "N" = "__proto__" /\ vars rt' = vars makeRuntime
        /\ getVal (EVar "N") rt' = VMember Prototype
        /\ message w' = "$__proto__ = [object Object]")
    /\ (forall other, other <> "N" ->
        getVal (EVar other) rt' = getVal (EVar other) makeRuntime)
    /\ enemySeen rt' = enemySeen makeRuntime
    /\ player w' = player makeInitialWorld
    /\ enemy w' = enemy makeInitialWorld.
Proof.
  apply (assign_then_read makeInitialWorld
           {| stmts := [SAssign "N" (ENumber (ofZ 7))]; functions := ∅ |}
           makeRuntime "N" (ENumber (ofZ 7)) (ofZ 7)).
  - reflexivity.
  - reflexivity.
Defined.

(** The assignment [__proto__ = 5;] in a fresh runtime binds nothing, and an
    assignment of [$constructor] leaves the model: the store would hold a
    function. *)
Example assign_inherited :
  (exists prog,
     parseProgram "__proto__ = 5;" = Some prog
     /\ exists w' rt',
          stepProgram makeInitialWorld prog makeRuntime = Returns (w', rt', true)
          /\ vars rt' = ∅
          /\ message w' = "$__proto__ = [object Object]")
  /\ stepProgram makeInitialWorld
       {| stmts := [SAssign "F" (EVar "constructor")]; functions := ∅ |}
       makeRuntime
     = Escapes.
Proof.
  split; [|reflexivity].
  eexists. split; [vm_compute; reflexivity|].
  do 2 eexists. split; [vm_compute; reflexivity|]. split; reflexivity.
Qed.

(** X17. After [SCAN_FOR_ENEMY] the variable [ENEMY] and the field
    [enemySeen] hold one when the opponent is in the row or the column of the
    actor, in another cell, and zero otherwise; so an [IF $ENEMY] that follows
    selects its THEN branch exactly when the opponent was seen.  The scan
    writes no other variable and touches no tank. *)
Theorem scan_sets_enemy (w : World) (prog : Program) (rt : Runtime) :
  activeStmt prog rt = Some SScan ->
  exists w' rt',
    stepProgram w prog rt = Returns (w', rt', true)
    /\ getVal (EVar "ENEMY") rt' = VNumber (enemySeen rt')
    /\ enemySeen rt'
       = (if seen (lineOfSight (player w) (enemy w)) then ofZ 1 else ofZ 0)
    /\ (forall th el,
          chosenBranch (EVar "ENEMY") th el rt'
          = if seen (lineOfSight (player w) (enemy w)) then Some th else el)
    /\ (forall other, other <> "ENEMY" ->
        getVal (EVar other) rt' = getVal (EVar other) rt)
    /\ player w' = player w /\ enemy w' = enemy w.
Proof.
  intros Hs. rewrite (stepProgram_exec w prog rt _ Hs).
  cbn [execStmt tankScan].
  set (los := lineOfSight (player w) (enemy w)).
  set (rt1 := setEnemySeen rt (if seen los then ofZ 1 else ofZ 0)).
  do 2 eexists. split; [reflexivity|].
  destruct (advance_vars (setVar rt1 "ENEMY" (enemySeen rt1))) as [Hv He].
  assert (Hseen : enemySeen (setVar rt1 "ENEMY" (enemySeen rt1))
                  = (if seen los then ofZ 1 else ofZ 0))
    by apply setVar_frame.
  assert (Hget : getVal (EVar "ENEMY") (advance (setVar rt1 "ENEMY" (enemySeen rt1)))
                 = VNumber (if seen los then ofZ 1 else ofZ 0)).
  { unfold getVal. rewrite lookupVar_advance, lookupVar_setVar_eq by reflexivity.
    reflexivity. }
  split; [rewrite Hget, He, Hseen; reflexivity|].
  split; [rewrite He, Hseen; reflexivity|].
  split; [|split; [|split; reflexivity]].
  - intros th el. unfold chosenBranch. rewrite Hget.
    destruct (seen los); reflexivity.
  - intros other Hne. unfold getVal.
    rewrite lookupVar_advance, lookupVar_setVar_ne by exact Hne. reflexivity.
Qed.

(** X17 in [duelWorld], where the opponent is seen. *)
Lemma scan_sets_enemy_witness :
  exists w' rt',
    stepProgram duelWorld {| stmts := [SScan]; functions := ∅ |} makeRuntime
    = Returns (w', rt', true)
    /\ getVal (EVar "ENEMY") rt' = VNumber (enemySeen rt')
    /\ enemySeen rt'
       = (if seen (lineOfSight (player duelWorld) (enemy duelWorld))
          then ofZ 1 else ofZ 0)
    /\ (forall th el,
          chosenBranch (EVar "ENEMY") th el rt'
          = if seen (lineOfSight (player duelWorld) (enemy duelWorld))
            then Some th else el)
    /\ (forall other, other <> "ENEMY" ->
        getVal (EVar other) rt' = getVal (EVar other) makeRuntime)
    /\ player w' = player duelWorld /\ enemy w' = enemy duelWorld.
Proof.
  apply (scan_sets_enemy duelWorld {| stmts := [SScan]; functions := ∅ |}
           makeRuntime).
  reflexivity.
Defined.

Lemma execStmt_vars (w : World) (prog : Program) (rt : Runtime) (s : Stmt)
  (w' : World) (rt' : Runtime) (b : bool) :
  execStmt w prog rt s = Returns (w', rt', b) ->
  (forall name value, s <> SAssign name value) -> s <> SScan ->
  vars rt' = vars rt /\ enemySeen rt' = enemySeen rt.
Proof.
  intros H Ha Hsc. destruct (advance_vars rt) as [Hv He].
  destruct s as [name value|amount d|d| | |cond th el|name| |name body];
    [|simpl in H| | | |rewrite execStmt_if in H
    |apply execStmt_call_inv in H| |]; simpl in H.
  - exfalso. exact (Ha name value eq_refl).
  - destruct (tankMove w d _); simpl in H; try discriminate.
    injection H as _ <- _. auto.
  - injection H as _ <- _. auto.
  - contradiction.
  - injection H as _ <- _. auto.
  - destruct (chosenBranch cond th el rt);
      injection H as _ <- _; auto.
  - destruct H as (_ & _ & [[_ ->]|(body & _ & ->)]); simpl; auto.
  - injection H as _ <- _. auto.
  - injection H as _ <- _. auto.
Qed.

(** X18. Only an assignment and a scan write variables: any other step,
    also one that pops a frame or finds the program finished, leaves every
    variable and the field [enemySeen] as they were. *)
Theorem vars_frame (w : World) (prog : Program) (rt : Runtime)
  (w' : World) (rt' : Runtime) (b : bool) :
  stepProgram w prog rt = Returns (w', rt', b) ->
  (forall name value, activeStmt prog rt <> Some (SAssign name value)) ->
  activeStmt prog rt <> Some SScan ->
  vars rt' = vars rt /\ enemySeen rt' = enemySeen rt.
Proof.
  intros H Ha Hs. unfold stepProgram in H. unfold activeStmt in Ha, Hs.
  destruct (length (activeList prog rt) <=? activePc rt)%nat.
  - destruct (head (stack rt)); injection H as _ <- _; auto.
  - destruct (activeList prog rt !! activePc rt) as [s|]; [|discriminate].
    apply (execStmt_vars w prog rt s w' rt' b H).
    + intros name value E. apply (Ha name value). congruence.
    + intros E. apply Hs. congruence.
Qed.

(** X18 for the call of [Patrol] in [patrolProgram]. *)
Lemma vars_frame_witness :
  let rt' := push (advance makeRuntime)
               (frameAt "Patrol" 0 [STurn "RIGHT"; SAttack]) in
  vars rt' = vars makeRuntime /\ enemySeen rt' = enemySeen makeRuntime.
Proof.
  apply (vars_frame makeInitialWorld patrolProgram makeRuntime
           (setMessage makeInitialWorld "CALL Patrol") _ true).
  - vm_compute. reflexivity.
  - intros name value. vm_compute. discriminate.
  - vm_compute. discriminate.
Defined.

(** ** Straight-line programs *)

Lemma stepProgram_oneStep_top (w : World) (prog : Program) (rt : Runtime)
  (s : Stmt) :
  stack rt = [] ->
  stmts prog !! pc rt = Some s ->
  oneStep w prog rt s = true ->
  exists w' rt',
    stepProgram w prog rt = Returns (w', rt', true)
    /\ stack rt' = [] /\ pc rt' = S (pc rt).
Proof.
  intros Hs Hf Hq.
  rewrite (stepProgram_exec w prog rt s)
    by (rewrite (activeStmt_top prog rt Hs); exact Hf).
  destruct s as [name value|amount d|d| | |cond th el|name| |name body];
    simpl in Hq.
  - destruct (assignVar rt name (getVal value rt)) as [rt1| | |] eqn:Ha;
      try discriminate.
    destruct (execStmt_assign w prog rt name value rt1 Ha) as (text & _ & ->).
    destruct (assignVar_frame rt name _ rt1 Ha) as (Hpc & Hst & _).
    rewrite Hs in Hst.
    do 2 eexists. split; [reflexivity|].
    rewrite (advance_top rt1 Hst). simpl. auto.
  - simpl. destruct (tankMove w d _) as [w1| | |]; try discriminate.
    do 2 eexists. split; [reflexivity|]. rewrite (advance_top rt Hs). auto.
  - do 2 eexists. split; [reflexivity|]. rewrite (advance_top rt Hs). auto.
  - do 2 eexists. split; [reflexivity|]. unfold advance. simpl. rewrite Hs. auto.
  - do 2 eexists. split; [reflexivity|]. rewrite (advance_top rt Hs). auto.
  - rewrite execStmt_if.
    destruct (chosenBranch cond th el rt); [discriminate|].
    do 2 eexists. split; [reflexivity|]. rewrite (advance_top rt Hs). auto.
  - simpl. destruct (callee prog name) as [[body|]| | |]; try discriminate.
    do 2 eexists. split; [reflexivity|]. rewrite (advance_top rt Hs). auto.
  - do 2 eexists. split; [reflexivity|]. rewrite (advance_top rt Hs). auto.
  - do 2 eexists. split; [reflexivity|]. rewrite (advance_top rt Hs). auto.
Qed.

Lemma stepN_add (a b : nat) (prog : Program) :
  forall (w : World) (rt : Runtime),
  stepN (a + b) prog w rt =
    call (w1, rt1) := stepN a prog w rt in stepN b prog w1 rt1.
Proof.
  induction a as [|a IH]; intros w rt; [reflexivity|].
  change (S a + b)%nat with (S (a + b)). rewrite !stepN_S.
  destruct (stepProgram w prog rt) as [[[w1 rt1] b1]| | |]; cbn [bind];
    [apply IH|reflexivity|reflexivity|reflexivity].
Qed.

Lemma stepN_straight (prog : Program) (m : nat) :
  forall (w : World) (rt : Runtime),
  stack rt = [] ->
  (pc rt + m = length (stmts prog))%nat ->
  (forall j wj rtj s, (j < m)%nat ->
     stepN j prog w rt = Returns (wj, rtj) ->
     stmts prog !! (pc rt + j)%nat = Some s -> oneStep wj prog rtj s = true) ->
  forall j, (j <= m)%nat ->
    exists wj rtj,
      stepN j prog w rt = Returns (wj, rtj)
      /\ stack rtj = [] /\ pc rtj = (pc rt + j)%nat.
Proof.
  induction m as [|m IH]; intros w rt Hs Hlen Hq j Hj.
  - assert (j = 0)%nat as -> by lia. exists w, rt.
    split; [reflexivity|]. split; [exact Hs|lia].
  - destruct j as [|j].
    { exists w, rt. split; [reflexivity|]. split; [exact Hs|lia]. }
    destruct (lookup_lt_is_Some_2 (stmts prog) (pc rt)) as [s Hk]; [lia|].
    assert (Hq0 : oneStep w prog rt s = true).
    { apply (Hq 0%nat w rt s); [lia|reflexivity|].
      rewrite Nat.add_0_r. exact Hk. }
    destruct (stepProgram_oneStep_top w prog rt s Hs Hk Hq0)
      as (w1 & rt1 & Hs1 & Hst1 & Hpc1).
    destruct (IH w1 rt1 Hst1 ltac:(lia)) with (j := j)
      as (wj & rtj & Hrun & Hst & Hpc); [|lia|].
    { intros i wi rti si Hi Hrun Hb.
      apply (Hq (S i) wi rti si); [lia| |].
      - rewrite stepN_S, Hs1. exact Hrun.
      - replace (pc rt + S i)%nat with (pc rt1 + i)%nat by lia. exact Hb. }
    exists wj, rtj. split; [|split; [exact Hst|lia]].
    rewrite stepN_S, Hs1. exact Hrun.
Qed.

(** X19. A program whose statements from the counter on take one step each
    (no call of a name that the function table holds or inherits from
    [Object.prototype], no [IF] that selects a branch, no move that throws or
    never ends, no assignment that stores an inherited member) runs them in
    order, one per step, each step returning [true]; after exactly as many
    steps as statements were left the program is finished: [stepProgram]
    returns [false] and changes nothing, then and ever after. *)
Theorem straight_line_finishes (w : World) (prog : Program) (rt : Runtime)
  (m : nat) :
  stack rt = [] ->
  (pc rt + m = length (stmts prog))%nat ->
  (forall j wj rtj s, (j < m)%nat ->
     stepN j prog w rt = Returns (wj, rtj) ->
     stmts prog !! (pc rt + j)%nat = Some s -> oneStep wj prog rtj s = true) ->
  (forall j, (j < m)%nat ->
     exists wj rtj w1 rt1,
       stepN j prog w rt = Returns (wj, rtj)
       /\ stack rtj = [] /\ pc rtj = (pc rt + j)%nat
       /\ stepProgram wj prog rtj = Returns (w1, rt1, true))
  /\ (exists w' rt',
        stepN m prog w rt = Returns (w', rt')
        /\ stack rt' = [] /\ pc rt' = length (stmts prog)
        /\ stepProgram w' prog rt' = Returns (w', rt', false)
        /\ (forall n, stepN (m + n) prog w rt = Returns (w', rt'))).
Proof.
  intros Hs Hlen Hq.
  pose proof (stepN_straight prog m w rt Hs Hlen Hq) as Hall.
  split.
  - intros j Hj.
    destruct (Hall j ltac:(lia)) as (wj & rtj & Hrun & Hst & Hpc).
    destruct (lookup_lt_is_Some_2 (stmts prog) (pc rt + j)) as [s Hk]; [lia|].
    pose proof (Hq j wj rtj s Hj Hrun Hk) as Hone.
    rewrite <- Hpc in Hk.
    destruct (stepProgram_oneStep_top wj prog rtj s Hst Hk Hone)
      as (w1 & rt1 & Hs1 & _).
    exists wj, rtj, w1, rt1. auto.
  - destruct (Hall m ltac:(lia)) as (w' & rt' & Hrun & Hst & Hpc).
    exists w', rt'. split; [exact Hrun|]. split; [exact Hst|].
    split; [lia|].
    split; [apply stepProgram_finished; [exact Hst|lia]|].
    intros n. rewrite stepN_add, Hrun. cbn [bind].
    apply stepN_finished; [exact Hst|lia].
Qed.

(** X19 for [straightProgram] in the initial world. *)
Lemma straight_line_finishes_witness :
  (forall j, (j < 3)%nat ->
     exists wj rtj w1 rt1,
       stepN j straightProgram makeInitialWorld makeRuntime
       = Returns (wj, rtj)
       /\ stack rtj = [] /\ pc rtj = (pc makeRuntime + j)%nat
       /\ stepProgram wj straightProgram rtj = Returns (w1, rt1, true))
  /\ (exists w' rt',
        stepN 3 straightProgram makeInitialWorld makeRuntime
        = Returns (w', rt')
        /\ stack rt' = [] /\ pc rt' = length (stmts straightProgram)
        /\ stepProgram w' straightProgram rt' = Returns (w', rt', false)
        /\ (forall n, stepN (3 + n) straightProgram makeInitialWorld makeRuntime
                      = Returns (w', rt'))).
Proof.
  apply (straight_line_finishes makeInitialWorld straightProgram makeRuntime 3).
  - reflexivity.
  - reflexivity.
  - intros j wj rtj s Hj Hrun Hk.
    destruct j as [|[|[|j]]]; [| | |lia];
      vm_compute in Hk; injection Hk as <-; reflexivity.
Defined.
(** ** The lexer and the parser return

    Lengths first: a cleaned line is no longer than the raw one, so the lines
    of a source weigh at most one more than the source is long, and a token
    is at most four characters longer than the source. *)

Lemma length_append (a b : string) :
  String.length (a +:+ b) = (String.length a + String.length b)%nat.
Proof.
  induction a as [|c a IH].
  - rewrite append_nil. reflexivity.
  - rewrite append_cons. simpl. rewrite IH. reflexivity.
Qed.

Lemma trimStart_length (s : string) :
  (String.length (trimStart s) <= String.length s)%nat.
Proof.
  induction s as [|c s IH]; [reflexivity|].
  simpl. destruct (isSpace c); simpl; lia.
Qed.

Lemma trimEnd_length (s : string) :
  (String.length (trimEnd s) <= String.length s)%nat.
Proof.
  induction s as [|c s IH]; [reflexivity|].
  cbn [trimEnd]. destruct (trimEnd s) as [|d t].
  - destruct (isSpace c); simpl; lia.
  - simpl in *. lia.
Qed.

Lemma trim_length (s : string) :
  (String.length (trim s) <= String.length s)%nat.
Proof.
  unfold trim. pose proof (trimEnd_length (trimStart s)).
  pose proof (trimStart_length s). lia.
Qed.

Lemma substring_length_le (s : string) :
  forall n m, (String.length (substring n m s) <= String.length s)%nat.
Proof.
  induction s as [|c s IH]; intros n m.
  - destruct n, m; simpl; lia.
  - destruct n as [|n]; [destruct m as [|m]|]; simpl.
    + lia.
    + specialize (IH 0%nat m). lia.
    + specialize (IH n m). lia.
Qed.

Lemma terminated_length (s : string) :
  (String.length (terminated s) <= S (String.length s))%nat.
Proof.
  unfold terminated. rewrite length_append.
  destruct (endsWithChar s ";"); simpl; lia.
Qed.

Lemma weight_app (a b : list string) :
  weight (a ++ b) = (weight a + weight b)%nat.
Proof.
  induction a as [|l a IH]; [reflexivity|].
  simpl. rewrite IH. lia.
Qed.

Lemma weight_cons (l : string) (ls : list string) :
  weight (l :: ls) = S (String.length l + weight ls).
Proof. reflexivity. Qed.

Lemma weight_In (l : string) (ls : list string) :
  In l ls -> (S (String.length l) <= weight ls)%nat.
Proof.
  induction ls as [|l' ls IH]; [contradiction|].
  rewrite weight_cons. intros [->|H]; [lia|]. specialize (IH H). lia.
Qed.

Lemma weight_filter (f : string -> bool) (ls : list string) :
  (weight (List.filter f ls) <= weight ls)%nat.
Proof.
  induction ls as [|l ls IH]; [reflexivity|].
  cbn [List.filter]. destruct (f l); rewrite !weight_cons; lia.
Qed.

Lemma weight_map (f : string -> string) (ls : list string) :
  (forall l, (String.length (f l) <= String.length l)%nat) ->
  (weight (map f ls) <= weight ls)%nat.
Proof.
  intros Hf. induction ls as [|l ls IH]; [reflexivity|].
  cbn [map]. rewrite !weight_cons. specialize (Hf l). lia.
Qed.

Lemma splitOn_weight (sep : ascii) (s : string) :
  forall cur,
  weight (splitOn sep cur s) = S (String.length cur + String.length s).
Proof.
  induction s as [|c s IH]; intros cur; cbn [splitOn].
  - simpl. lia.
  - destruct (c =? sep)%char.
    + rewrite weight_cons, IH. simpl. lia.
    + rewrite IH, length_append. simpl. lia.
Qed.

Lemma split_weight (s : string) (sep : ascii) :
  weight (split s sep) = S (String.length s).
Proof. unfold split. rewrite splitOn_weight. reflexivity. Qed.

Lemma removeFirst_comment_length (l : string) :
  (String.length (removeFirst commentRe l) <= String.length l)%nat.
Proof.
  unfold removeFirst.
  destruct (exec commentRe l) as [[p st]|] eqn:E; [|reflexivity].
  rewrite (commentRe_rest l p st E), append_empty_r.
  apply substring_length_le.
Qed.

Lemma cleanLine_length (l : string) :
  (String.length (cleanLine l) <= String.length l)%nat.
Proof.
  unfold cleanLine. pose proof (trim_length (removeFirst commentRe l)).
  pose proof (removeFirst_comment_length l). lia.
Qed.

Lemma sourceLines_weight (code : string) :
  (weight (sourceLines code) <= S (String.length code))%nat.
Proof.
  rewrite sourceLines_cleanLines. unfold cleanLines.
  pose proof (weight_filter nonEmpty (map cleanLine (split code LF))).
  pose proof (weight_map cleanLine (split code LF) cleanLine_length).
  rewrite split_weight in *. lia.
Qed.

Lemma join_weight (ls : list string) :
  ls <> [] ->
  S (String.length (join (String LF EmptyString) ls)) = weight ls.
Proof.
  induction ls as [|l ls IH]; intros Hne; [contradiction|].
  destruct ls as [|l' ls]; [simpl; lia|].
  change (join (String LF EmptyString) (l :: l' :: ls))
    with (l +:+ String LF EmptyString
          +:+ join (String LF EmptyString) (l' :: ls)).
  rewrite weight_cons, <- IH by discriminate.
  rewrite !length_append. simpl. lia.
Qed.

Lemma blockToken_length (header : string) (body : list string) :
  String.length (blockToken header body) = (weight (header :: body) + 3)%nat.
Proof.
  unfold blockToken.
  pose proof (join_weight (header :: body ++ ["END"])%list) as H.
  specialize (H ltac:(discriminate)).
  rewrite weight_cons, weight_app in H. rewrite weight_cons.
  change (weight ["END"]) with 4%nat in H. lia.
Qed.

Lemma statementTokens_length (line tok : string) :
  In tok (statementTokens line) ->
  (String.length tok <= S (String.length line))%nat.
Proof.
  unfold statementTokens. intros H.
  apply in_map_iff in H as (p & <- & Hp).
  apply List.filter_In in Hp as [Hp _].
  apply in_map_iff in Hp as (q & <- & Hq).
  apply weight_In in Hq. rewrite split_weight in Hq.
  rewrite length_append. pose proof (trim_length q). simpl. lia.
Qed.

Lemma tokenizeLines_length (ls : list string) :
  (forall tok, In tok (tokenizeLines ls) ->
     (String.length tok <= weight ls + 3)%nat)
  /\ (forall header body tok, In tok (blockLoop header body ls) ->
        (String.length tok <= weight (header :: body) + weight ls + 3)%nat).
Proof.
  induction ls as [|l ls [IHtop IHblock]].
  - split; [intros tok []|].
    intros header body tok [<-|[]]. rewrite blockToken_length.
    change (weight []) with 0%nat. lia.
  - split.
    + intros tok H. rewrite tokenizeLines_cons in H. rewrite weight_cons.
      destruct (test functionHeadRe l).
      * specialize (IHblock l [] tok H). rewrite weight_cons in IHblock.
        change (weight []) with 0%nat in IHblock. lia.
      * apply in_app_iff in H as [H|H].
        -- apply statementTokens_length in H. lia.
        -- specialize (IHtop tok H). lia.
    + intros header body tok H. cbn [blockLoop] in H. rewrite (weight_cons l).
      destruct (test endRe l).
      * destruct H as [<-|H].
        -- rewrite blockToken_length. lia.
        -- specialize (IHtop tok H). lia.
      * specialize (IHblock header (body ++ [l])%list tok H).
        rewrite weight_cons, weight_app in IHblock. rewrite weight_cons.
        cbn [weight] in IHblock. lia.
Qed.

(** No token is more than four characters longer than the source: the
    most a block that the source does not close gains with its [END]. *)
Lemma tokenize_length (code tok : string) :
  In tok (tokenize code) ->
  (String.length tok <= String.length code + 4)%nat.
Proof.
  intros H. unfold tokenize in H.
  apply (proj1 (tokenizeLines_length (sourceLines code))) in H.
  pose proof (sourceLines_weight code). lia.
Qed.

(** *** What a pattern captures is shorter than what it was given *)

Lemma exec_Bol (r : regex) (s : string) :
  exec (Seq Bol r) s =
    match rmatch r {| pos := 0; prev := None; rest := s; caps := [] |} Some with
    | Some st => Some (0%nat, st)
    | None => None
    end.
Proof.
  unfold exec. destruct s as [|c s]; simpl.
  - destruct (rmatch r _ Some); reflexivity.
  - destruct (rmatch r _ Some); [reflexivity|].
    apply searchFrom_Bol.
Qed.

Lemma starLoop_bounded_k (P : mstate -> Prop) (B : nat) (g : bool)
  (iter : matcher) (k : mstate -> option mstate) :
  (forall st k' res, bounded B st ->
     (forall st' res', bounded B st' -> k' st' = Some res' -> P res') ->
     iter st k' = Some res -> P res) ->
  (forall st res, bounded B st -> k st = Some res -> P res) ->
  forall fuel st res,
  bounded B st -> starLoop g iter fuel st k = Some res -> P res.
Proof.
  intros Hiter Hk. induction fuel as [|fuel IH]; intros st res Hst H.
  - exact (Hk st res Hst H).
  - cbn [starLoop] in H.
    assert (Hmore : forall res',
      iter st (fun st' => if (pos st <? pos st')%nat
                          then starLoop g iter fuel st' k else None)
      = Some res' -> P res').
    { intros res' Hm. refine (Hiter st _ res' Hst _ Hm).
      intros st' r Hst' Hr. destruct (pos st <? pos st')%nat; [|discriminate].
      exact (IH st' r Hst' Hr). }
    destruct g.
    + destruct (iter st _) as [r|] eqn:E; simpl in H.
      * injection H as <-. apply Hmore. reflexivity.
      * exact (Hk st res Hst H).
    + destruct (k st) as [r|] eqn:E; simpl in H.
      * injection H as <-. exact (Hk st r Hst E).
      * apply Hmore. exact H.
Qed.

(** A matcher hands to its continuation only states that are bounded as the
    one it was given. *)
Lemma rmatch_bounded_k (P : mstate -> Prop) (B : nat) (r : regex) :
  forall st k res,
  bounded B st ->
  (forall st' res', bounded B st' -> k st' = Some res' -> P res') ->
  rmatch r st k = Some res -> P res.
Proof.
  induction r as [p| |r1 IH1 r2 IH2|r1 IH1 r2 IH2|g r1 IH1|n r1 IH1| | |];
    intros st k res Hst Hk H; cbn [rmatch] in H.
  - destruct (rest st) as [|c s'] eqn:E; [discriminate|].
    destruct (p c); [|discriminate].
    refine (Hk _ _ _ H). destruct Hst as [Hr Hc]. rewrite E in Hr.
    split; simpl in *; [lia|exact Hc].
  - exact (Hk _ _ Hst H).
  - refine (IH1 st _ res Hst _ H).
    intros st1 r Hst1 Hr. exact (IH2 st1 k r Hst1 Hk Hr).
  - destruct (rmatch r1 st k) as [r|] eqn:E; simpl in H.
    + injection H as <-. exact (IH1 st k r Hst Hk E).
    + exact (IH2 st k res Hst Hk H).
  - refine (starLoop_bounded_k P B g (rmatch r1) k _ Hk _ st res Hst H).
    intros st0 k' r Hst0 Hk' Hr. exact (IH1 st0 k' r Hst0 Hk' Hr).
  - refine (IH1 st _ res Hst _ H).
    intros st1 r Hst1 Hr. refine (Hk _ _ _ Hr).
    destruct Hst as [Hr0 _]. destruct Hst1 as [Hr1 Hc1].
    split; simpl; [exact Hr1|]. constructor; [|exact Hc1]. simpl.
    pose proof (substring_length_le (rest st) 0 (pos st1 - pos st)). lia.
  - destruct (prev st); [discriminate|]. exact (Hk _ _ Hst H).
  - assert (H' : k st = Some res) by (destruct (rest st); [exact H|discriminate]).
    exact (Hk _ _ Hst H').
  - destruct (xorb _ _); [|discriminate]. exact (Hk _ _ Hst H).
Qed.

Lemma rmatch_Chr_inv (p : ascii -> bool) (st : mstate)
  (k : mstate -> option mstate) (res : mstate) :
  rmatch (Chr p) st k = Some res ->
  exists c s',
    rest st = String c s'
    /\ k {| pos := S (pos st); prev := Some c; rest := s'; caps := caps st |}
       = Some res.
Proof.
  cbn [rmatch]. destruct (rest st) as [|c s']; [discriminate|].
  destruct (p c); [|discriminate]. eauto.
Qed.

(** A literal word takes its length off what is left, and captures
    nothing. *)
Lemma wordI_consumes (w : string) :
  w <> EmptyString ->
  forall st k res,
  rmatch (wordI w) st k = Some res ->
  exists st',
    (String.length (rest st') + String.length w)%nat = String.length (rest st)
    /\ caps st' = caps st /\ k st' = Some res.
Proof.
  induction w as [|c w IH]; intros Hne st k res H; [contradiction|].
  destruct w as [|d w].
  - apply rmatch_Chr_inv in H as (e & s' & E & H).
    eexists. split; [|split; [|exact H]]; [|reflexivity].
    rewrite E. simpl. lia.
  - change (wordI (String c (String d w)))
      with (Seq (chrI c) (wordI (String d w))) in H.
    rewrite rmatch_Seq in H.
    apply rmatch_Chr_inv in H as (e & s' & E & H).
    destruct (IH ltac:(discriminate) _ _ _ H) as (st' & Hl & Hc & Hk).
    exists st'. simpl in Hl, Hc. split; [|split; [exact Hc|exact Hk]].
    rewrite E. simpl. lia.
Qed.

(** After a literal word at the start of the pattern, every capture leaves
    out the characters of the word at least. *)
Lemma matchRe_word_bounded (w : string) (r : regex) (t : string)
  (m : list (nat * string)) :
  w <> EmptyString ->
  matchRe (Seq Bol (Seq (wordI w) r)) t = Some m ->
  (String.length w <= String.length t)%nat
  /\ Forall (fun c => (String.length (snd c) + String.length w
                       <= String.length t)%nat) m.
Proof.
  intros Hne H. unfold matchRe in H. rewrite exec_Bol in H.
  destruct (rmatch _ _ Some) as [res|] eqn:E; [|discriminate].
  injection H as <-. rewrite rmatch_Seq in E.
  destruct (wordI_consumes w Hne _ _ _ E) as (st' & Hl & Hc & Hk).
  simpl in Hl, Hc. split; [lia|].
  assert (Hb : bounded (String.length t - String.length w) st').
  { split; [lia|]. rewrite Hc. constructor. }
  pose proof (rmatch_bounded_k
                (bounded (String.length t - String.length w))
                _ r st' Some res Hb) as Hres.
  destruct Hres as [_ Hcaps]; [|exact Hk|].
  { intros st1 res1 Hb1 H1. injection H1 as <-. exact Hb1. }
  refine (Forall_impl _ _ _ Hcaps _). intros c Hlen. simpl in Hlen. lia.
Qed.

Lemma capture_In (n : nat) (m : list (nat * string)) (v : string) :
  capture n m = Some v -> In (n, v) m.
Proof.
  induction m as [|[i s] m IH]; [discriminate|].
  cbn [capture]. destruct (Nat.eqb_spec i n) as [->|Hne].
  - intros H. injection H as <-. left. reflexivity.
  - intros H. right. exact (IH H).
Qed.

Lemma capture_bounded (w : string) (r : regex) (t : string)
  (m : list (nat * string)) (n : nat) :
  w <> EmptyString ->
  matchRe (Seq Bol (Seq (wordI w) r)) t = Some m ->
  (String.length (cap n m) + String.length w <= String.length t)%nat
  /\ (forall v, capture n m = Some v ->
      (String.length v + String.length w <= String.length t)%nat).
Proof.
  intros Hne H. destruct (matchRe_word_bounded w r t m Hne H) as [Hw Hall].
  assert (Hv : forall v, capture n m = Some v ->
            (String.length v + String.length w <= String.length t)%nat).
  { intros v Hc. apply capture_In in Hc.
    exact (proj1 (List.Forall_forall _ _) Hall (n, v) Hc). }
  split; [|exact Hv]. unfold cap.
  destruct (capture n m) as [v|] eqn:Ec; simpl; [exact (Hv v eq_refl)|exact Hw].
Qed.

(** *** The parser *)

Lemma orRule_total (r : option parsed) (next : parsed) :
  r <> Some OutOfFuel -> next <> OutOfFuel -> orRule r next <> OutOfFuel.
Proof. destruct r as [p|]; simpl; [congruence|auto]. Qed.

Lemma parseAll_total (f : string -> parsed) (toks : list string) :
  (forall tok, In tok toks -> f tok <> OutOfFuel) ->
  exists ss, parseAll f toks = Some ss.
Proof.
  induction toks as [|tok toks IH]; intros H; [exists []; reflexivity|].
  destruct IH as [ss Hss]; [intros t Ht; apply H; right; exact Ht|].
  cbn [parseAll]. rewrite Hss.
  pose proof (H tok (or_introl eq_refl)) as Ht.
  destruct (f tok) as [| |s]; [contradiction|eauto|eauto].
Qed.

(** With more fuel than the token is long, [parseStmt] does not run out: the
    tokens of a function body and the branches of an [IF] are shorter than
    the token they come from. *)
Lemma parseStmt_total (fuel : nat) :
  forall tok, (String.length tok < fuel)%nat -> parseStmt fuel tok <> OutOfFuel.
Proof.
  induction fuel as [|fuel IH]; intros tok Hlen; [lia|].
  cbn [parseStmt]. pose proof (trim_length tok) as Ht.
  set (t := trim tok) in *.
  destruct (negb (nonEmpty t)); [discriminate|].
  apply orRule_total.
  { destruct (test functionHeadRe t); [|discriminate].
    destruct (matchRe functionRe t) as [m|] eqn:Em; [|discriminate].
    destruct (capture_bounded "FUNCTION" _ t m 2 ltac:(discriminate) Em)
      as [Hcap _].
    change (String.length "FUNCTION") with 8%nat in Hcap.
    destruct (parseAll_total (parseStmt fuel) (tokenize (cap 2 m)))
      as [body ->]; [|discriminate].
    intros tk Hin. apply IH. apply tokenize_length in Hin. lia. }
  apply orRule_total.
  { destruct (test ifHeadRe t); [|discriminate].
    destruct (matchRe ifRe t) as [m|] eqn:Em; [|discriminate].
    destruct (capture_bounded "IF" _ t m 2 ltac:(discriminate) Em)
      as [Hcap2 _].
    destruct (capture_bounded "IF" _ t m 3 ltac:(discriminate) Em)
      as [_ Hcap3].
    change (String.length "IF") with 2%nat in Hcap2, Hcap3.
    assert (Hth : parseStmt fuel (terminated (trim (cap 2 m))) <> OutOfFuel).
    { apply IH. pose proof (terminated_length (trim (cap 2 m))).
      pose proof (trim_length (cap 2 m)). lia. }
    assert (Hel : forall raw, capture 3 m = Some raw ->
              parseStmt fuel (terminated (trim raw)) <> OutOfFuel).
    { intros raw Hraw. apply IH. specialize (Hcap3 raw Hraw).
      pose proof (terminated_length (trim raw)).
      pose proof (trim_length raw). lia. }
    destruct (parseStmt fuel (terminated (trim (cap 2 m)))) as [| |th];
      [contradiction|discriminate|].
    destruct (capture 3 m) as [raw|]; [|discriminate].
    destruct (nonEmpty (trim raw)); [|discriminate].
    specialize (Hel raw eq_refl).
    destruct (parseStmt fuel (terminated (trim raw))) as [| |el];
      [contradiction|discriminate|discriminate]. }
  apply orRule_total.
  { destruct (test assignHeadRe t); [|discriminate].
    destruct (matchRe assignRe t); discriminate. }
  apply orRule_total.
  { destruct (test moveHeadRe t); [|discriminate].
    destruct (matchRe moveRe t); discriminate. }
  apply orRule_total.
  { destruct (test turnHeadRe t); [|discriminate].
    destruct (matchRe turnRe t); discriminate. }
  destruct (test scanRe t); [discriminate|].
  destruct (test attackRe t); [discriminate|].
  apply orRule_total; [|discriminate].
  destruct (test callHeadRe t); [|discriminate].
  destruct (matchRe callRe t); discriminate.
Qed.

(** The statements of the tokens of any source. *)
Lemma parseProgram_tokens (code : string) :
  exists ss,
    parseAll (parseStmt (String.length code + 5)) (tokenize code) = Some ss.
Proof.
  apply parseAll_total. intros tok Hin. apply parseStmt_total.
  apply tokenize_length in Hin. lia.
Qed.

Lemma assemble_total (parse : string -> parsed) (toks : list string) :
  forall ss prog0,
  parseAll parse toks = Some ss ->
  functions prog0 !! "__proto__" = None ->
  (forall body, ~ In (SFunction "__proto__" body) ss) ->
  exists prog, assemble parse toks prog0 = Some prog.
Proof.
  induction toks as [|tok toks IH]; intros ss prog0 Hp H0 Hno.
  - eexists. reflexivity.
  - cbn [parseAll] in Hp. cbn [assemble].
    destruct (parse tok) as [| |s] eqn:E; [discriminate| |];
      destruct (parseAll parse toks) as [ss'|] eqn:E'; try discriminate;
      injection Hp as <-.
    + exact (IH ss' prog0 eq_refl H0 Hno).
    + assert (Hno' : forall body, ~ In (SFunction "__proto__" body) ss')
        by (intros body Hin; apply (Hno body); right; exact Hin).
      destruct s as [name value|amount d|d| | |cond th el|name| |name body];
        try (apply (IH ss' _ eq_refl); [exact H0|exact Hno']).
      destruct (String.eqb_spec name "__proto__") as [->|Hne].
      * exfalso. apply (Hno body). left. reflexivity.
      * cbn [andb]. apply (IH ss' _ eq_refl); [|exact Hno'].
        cbn [functions]. rewrite lookup_insert_ne by exact Hne. exact H0.
Qed.

Lemma assemble_none (parse : string -> parsed) (toks : list string) :
  forall ss prog0,
  parseAll parse toks = Some ss ->
  functions prog0 !! "__proto__" = None ->
  declaresProto ss -> assemble parse toks prog0 = None.
Proof.
  induction toks as [|tok toks IH]; intros ss prog0 Hp H0 [pbody Hin].
  - injection Hp as <-. contradiction.
  - cbn [parseAll] in Hp. cbn [assemble].
    destruct (parse tok) as [| |s] eqn:E; [discriminate| |];
      destruct (parseAll parse toks) as [ss'|] eqn:E'; try discriminate;
      injection Hp as <-.
    + apply (IH ss' prog0 eq_refl H0). exists pbody. exact Hin.
    + destruct Hin as [->|Hin].
      * rewrite H0. reflexivity.
      * assert (Hd : declaresProto ss') by (exists pbody; exact Hin).
        destruct s as [name value|amount d|d| | |cond th el|name| |name body];
          try (apply (IH ss' _ eq_refl); [exact H0|exact Hd]).
        destruct (String.eqb_spec name "__proto__") as [->|Hne].
        -- rewrite H0. reflexivity.
        -- cbn [andb]. apply (IH ss' _ eq_refl); [|exact Hd].
           cbn [functions]. rewrite lookup_insert_ne by exact Hne. exact H0.
Qed.

(** [parseProgram] returns for every source; the result is a program unless
    the source declares [__proto__] at the top level. *)
Lemma parseProgram_total (code : string) :
  exists ss,
    parseAll (parseStmt (String.length code + 5)) (tokenize code) = Some ss
    /\ (declaresProto ss <-> parseProgram code = None)
    /\ (~ declaresProto ss -> exists prog, parseProgram code = Some prog).
Proof.
  destruct (parseProgram_tokens code) as [ss Hss]. exists ss.
  split; [exact Hss|].
  assert (Hsome : ~ declaresProto ss -> exists prog, parseProgram code = Some prog).
  { intros Hno. apply (assemble_total _ _ ss _ Hss); [apply lookup_empty|].
    intros body Hin. apply Hno. exists body. exact Hin. }
  split; [split|exact Hsome].
  - intros Hd. apply (assemble_none _ _ ss _ Hss); [apply lookup_empty|exact Hd].
  - intros Hnone.
    assert (Hdec : {declaresProto ss} + {~ declaresProto ss}).
    { unfold declaresProto. clear.
      induction ss as [|s ss [IH|IH]].
      - right. intros [body []].
      - left. destruct IH as [body Hin]. exists body. right. exact Hin.
      - destruct s as [name value|amount d|d| | |cond th el|name| |name body];
          try (right; intros [b [Hb|Hb]]; [discriminate|apply IH; eauto]).
        destruct (String.eqb_spec name "__proto__") as [->|Hne].
        + left. exists body. left. reflexivity.
        + right. intros [b [Hb|Hb]]; [congruence|apply IH; eauto]. }
    destruct Hdec as [Hd|Hno]; [exact Hd|].
    destruct (Hsome Hno) as [prog Hp]. congruence.
Qed.

Lemma parseAll_ext (f g : string -> parsed) (toks : list string) :
  (forall tok, In tok toks -> f tok = g tok) ->
  parseAll f toks = parseAll g toks.
Proof.
  induction toks as [|tok toks IH]; intros H; [reflexivity|].
  cbn [parseAll]. rewrite (H tok (or_introl eq_refl)).
  rewrite IH; [reflexivity|]. intros t Ht. apply H. right. exact Ht.
Qed.

Lemma parseAll_Some_In (f : string -> parsed) (toks : list string) :
  forall ss, parseAll f toks = Some ss ->
  forall tok, In tok toks -> f tok <> OutOfFuel.
Proof.
  induction toks as [|tok toks IH]; intros ss H t Hin; [contradiction|].
  cbn [parseAll] in H.
  destruct (parseAll f toks) as [ss'|] eqn:E.
  - destruct Hin as [<-|Hin]; [|exact (IH ss' eq_refl t Hin)].
    destruct (f tok); [discriminate|discriminate|discriminate].
  - destruct (f tok); discriminate.
Qed.

(** The fuel matters only when it runs out: a result reached with some fuel
    is the result with any more. *)
Lemma parseStmt_fuel (fuel : nat) :
  forall fuel' tok, (fuel <= fuel')%nat ->
  parseStmt fuel tok <> OutOfFuel -> parseStmt fuel' tok = parseStmt fuel tok.
Proof.
  induction fuel as [|fuel IH]; intros fuel' tok Hle H;
    [contradiction H; reflexivity|].
  destruct fuel' as [|fuel']; [lia|].
  assert (Hle' : (fuel <= fuel')%nat) by lia.
  cbn [parseStmt] in *. set (t := trim tok) in *.
  destruct (negb (nonEmpty t)); [reflexivity|].
  destruct (test functionHeadRe t);
    [destruct (matchRe functionRe t) as [m|]|].
  { destruct (parseAll (parseStmt fuel) (tokenize (cap 2 m))) as [body|] eqn:E.
    - rewrite (parseAll_ext (parseStmt fuel') (parseStmt fuel)), E;
        [reflexivity|].
      intros tk Hin. apply IH; [exact Hle'|].
      exact (parseAll_Some_In _ _ body E tk Hin).
    - contradiction H. reflexivity. }
  all: cbn [orRule] in *.
  all: destruct (test ifHeadRe t); [destruct (matchRe ifRe t) as [m|]|].
  all: cbn [orRule] in *; try reflexivity.
  all: destruct (parseStmt fuel (terminated (trim (cap 2 m)))) as [| |th] eqn:Eth;
    [contradiction H; reflexivity| |];
    rewrite (IH fuel' _ Hle') by (rewrite Eth; discriminate);
    rewrite Eth; [reflexivity|].
  all: destruct (capture 3 m) as [raw|]; [|reflexivity].
  all: destruct (nonEmpty (trim raw)); [|reflexivity].
  all: destruct (parseStmt fuel (terminated (trim raw))) as [| |el] eqn:Eel;
    [contradiction H; reflexivity| |];
    rewrite (IH fuel' _ Hle') by (rewrite Eel; discriminate);
    rewrite Eel; reflexivity.
Qed.

(** So the result of [parseStmt] on a token is one and the same for every
    fuel above the length of the token. *)
Lemma parseStmt_any_fuel (fuel fuel' : nat) (tok : string) :
  (String.length tok < fuel)%nat -> (String.length tok < fuel')%nat ->
  parseStmt fuel tok = parseStmt fuel' tok.
Proof.
  intros H H'. destruct (Nat.le_ge_cases fuel fuel') as [Hle|Hle].
  - symmetry. apply parseStmt_fuel; [exact Hle|].
    apply parseStmt_total. exact H.
  - apply parseStmt_fuel; [exact Hle|]. apply parseStmt_total. exact H'.
Qed.

(** ** Trimming *)

Lemma trimStart_first (s : string) :
  trimStart s = EmptyString
  \/ exists c r, trimStart s = String c r /\ isSpace c = false.
Proof.
  induction s as [|c s IH]; [left; reflexivity|].
  simpl. destruct (isSpace c) eqn:E; [exact IH|]. right. eauto.
Qed.

Lemma trimEnd_cons (c : ascii) (r : string) :
  isSpace c = false -> trimEnd (String c r) = String c (trimEnd r).
Proof. intros H. simpl. rewrite H. destruct (trimEnd r); reflexivity. Qed.

Lemma trimEnd_idem (s : string) : trimEnd (trimEnd s) = trimEnd s.
Proof.
  induction s as [|c s IH]; [reflexivity|].
  simpl. destruct (trimEnd s) as [|d u] eqn:E.
  - destruct (isSpace c) eqn:Ec; [reflexivity|]. simpl. rewrite Ec. reflexivity.
  - cbn [trimEnd]. cbn [trimEnd] in IH. rewrite IH. reflexivity.
Qed.

Lemma trim_idem (s : string) : trim (trim s) = trim s.
Proof.
  unfold trim. destruct (trimStart_first s) as [E|(c & r & E & Hc)]; rewrite E.
  - reflexivity.
  - rewrite (trimEnd_cons c r Hc). cbn [trimStart]. rewrite Hc.
    rewrite (trimEnd_cons c _ Hc), trimEnd_idem. reflexivity.
Qed.

Lemma trimmedLine_first (l : string) :
  trimmedLine l -> exists c r, l = String c r /\ isSpace c = false.
Proof.
  intros [Hn Ht]. unfold trim in Ht.
  destruct (trimStart_first l) as [E|(c & r & E & Hc)]; rewrite E in Ht.
  - simpl in Ht. subst l. discriminate.
  - rewrite (trimEnd_cons c r Hc) in Ht. eauto.
Qed.

Lemma trimEnd_app (p q : string) :
  nonEmpty q = true -> trimEnd q = q -> trimEnd (p +:+ q) = p +:+ q.
Proof.
  intros Hn Hq. induction p as [|c p IH].
  - rewrite append_nil. exact Hq.
  - rewrite append_cons. cbn [trimEnd]. rewrite IH.
    destruct (p +:+ q) eqn:E; [|reflexivity].
    destruct p; [rewrite append_nil in E; subst q; discriminate|].
    rewrite append_cons in E. discriminate.
Qed.

Lemma trim_app (p q : string) :
  trimmedLine p -> nonEmpty q = true -> trimEnd q = q ->
  trimmedLine (p +:+ q).
Proof.
  intros Hp Hn Hq.
  destruct (trimmedLine_first p Hp) as (c & r & -> & Hc).
  split; [rewrite append_cons; reflexivity|].
  unfold trim. rewrite append_cons. cbn [trimStart]. rewrite Hc.
  rewrite <- append_cons. apply trimEnd_app; assumption.
Qed.

Lemma trimmedLine_trim (q : string) :
  nonEmpty (trim q) = true -> trimmedLine (trim q).
Proof. intros H. split; [exact H|apply trim_idem]. Qed.

(** ** The shape of the tokens *)

Lemma filter_trimmed (ls : list string) :
  Forall trimmedLine (List.filter nonEmpty (map trim ls)).
Proof.
  induction ls as [|l ls IH]; [constructor|].
  cbn [map List.filter]. destruct (nonEmpty (trim l)) eqn:E; [|exact IH].
  constructor; [exact (trimmedLine_trim l E)|exact IH].
Qed.

Lemma statementTokens_shape (line : string) :
  Forall tokenShape (statementTokens line).
Proof.
  unfold statementTokens.
  pose proof (filter_trimmed (split line ";")) as H.
  induction H as [|p ps Hp _ IH]; [constructor|].
  cbn [map]. constructor; [|exact IH]. left. exists p. auto.
Qed.

Lemma tokenizeLines_shape (ls : list string) :
  Forall trimmedLine ls ->
  Forall tokenShape (tokenizeLines ls)
  /\ (forall header acc,
        trimmedLine header -> test functionHeadRe header = true ->
        Forall trimmedLine acc ->
        Forall tokenShape (blockLoop header acc ls)).
Proof.
  induction ls as [|l ls IH]; intros Hls.
  - split; [constructor|].
    intros header acc Hh Ht Hacc. cbn [blockLoop].
    constructor; [|constructor]. right. exists header, acc. auto.
  - inversion Hls as [|? ? Hl Hls']; subst.
    destruct (IH Hls') as [IH1 IH2]. split.
    + rewrite tokenizeLines_cons. destruct (test functionHeadRe l) eqn:E.
      * apply IH2; [exact Hl|exact E|constructor].
      * apply Forall_app. split; [apply statementTokens_shape|exact IH1].
    + intros header acc Hh Ht Hacc. cbn [blockLoop].
      destruct (test endRe l).
      * constructor; [|exact IH1]. right. exists header, acc. auto.
      * apply IH2; [exact Hh|exact Ht|].
        apply Forall_app. split; [exact Hacc|]. constructor; [exact Hl|constructor].
Qed.

Lemma sourceLines_trimmed (code : string) : Forall trimmedLine (sourceLines code).
Proof. unfold sourceLines. apply filter_trimmed. Qed.

Lemma tokenize_tokenShape (code : string) : Forall tokenShape (tokenize code).
Proof.
  unfold tokenize.
  exact (proj1 (tokenizeLines_shape _ (sourceLines_trimmed code))).
Qed.

Lemma join_cons (sep p : string) (ps : list string) :
  ps <> [] -> join sep (p :: ps) = p +:+ sep +:+ join sep ps.
Proof. destruct ps; [contradiction|reflexivity]. Qed.

Lemma join_snoc_END (sep : string) (ls : list string) :
  forall p, exists pre,
    join sep (p :: ls ++ ["END"])%list = pre +:+ sep +:+ "END".
Proof.
  induction ls as [|l ls IH]; intros p.
  - exists p. reflexivity.
  - cbn [List.app]. rewrite join_cons by discriminate.
    destruct (IH l) as (pre & ->).
    exists (p +:+ sep +:+ pre). rewrite !append_assoc. reflexivity.
Qed.

Lemma blockToken_END (header : string) (body : list string) :
  exists pre, blockToken header body = pre +:+ String LF "END".
Proof.
  unfold blockToken.
  destruct (join_snoc_END (String LF EmptyString) body header) as (pre & ->).
  exists pre. reflexivity.
Qed.

Lemma tokenShape_trimmed (tok : string) : tokenShape tok -> trimmedLine tok.
Proof.
  intros [(p & -> & Hp)|(header & body & -> & Hh & _ & _)].
  - apply trim_app; [exact Hp|reflexivity|reflexivity].
  - destruct (blockToken_END header body) as (pre & E).
    assert (Hend : trimEnd (blockToken header body) = blockToken header body).
    { rewrite E. apply trimEnd_app; reflexivity. }
    destruct (trimmedLine_first header Hh) as (c & r & -> & Hc).
    unfold blockToken in *.
    rewrite join_cons in * by (destruct body; discriminate).
    rewrite append_cons in *. split; [reflexivity|].
    unfold trim. cbn [trimStart]. rewrite Hc. exact Hend.
Qed.

(** ** Blank tokens *)

Lemma parseStmt_Null (fuel : nat) (token : string) :
  parseStmt fuel token = Null ->
  fuel <> 0%nat /\ nonEmpty (trim token) = false.
Proof.
  destruct fuel as [|fuel]; [discriminate|]. cbn [parseStmt].
  destruct (nonEmpty (trim token)) eqn:E; [|auto].
  cbn [negb]. intros H. exfalso. revert H.
  repeat match goal with
         | |- context [if ?b then _ else _] => destruct b
         | |- context [match matchRe ?r ?t with _ => _ end] =>
             destruct (matchRe r t)
         | |- context [match parseAll ?f ?t with _ => _ end] =>
             destruct (parseAll f t)
         | |- context [match parseStmt ?f ?t with _ => _ end] =>
             destruct (parseStmt f t)
         | |- context [match capture ?n ?m with _ => _ end] =>
             destruct (capture n m)
         end; cbn [orRule]; discriminate.
Qed.

(** X20. [parseStmt] returns [null] for a blank token and for no other; no
    token that [tokenize] yields is blank, so neither [parseProgram] nor the
    parser of a function body ever drops a token: each one yields a
    statement. *)
Theorem parseStmt_null_iff (fuel : nat) (token : string) :
  (parseStmt (S fuel) token = Null <-> trim token = EmptyString)
  /\ (forall code, In token (tokenize code) ->
      trim token = token /\ parseStmt (S fuel) token <> Null).
Proof.
  split; [split|].
  - intros H. destruct (parseStmt_Null _ _ H) as [_ E].
    destruct (trim token); [reflexivity|discriminate].
  - intros E. cbn [parseStmt]. rewrite E. reflexivity.
  - intros code Hin.
    pose proof (proj1 (List.Forall_forall _ _) (tokenize_tokenShape code))
      as Hall.
    destruct (tokenShape_trimmed token (Hall token Hin)) as [Hn Ht].
    split; [exact Ht|]. intros H.
    destruct (parseStmt_Null _ _ H) as [_ E]. rewrite Ht in E. congruence.
Qed.

(** X21. Every token of [tokenize] has one of two shapes: a statement, not
    empty and without space at either end, followed by [;], or a block that
    starts with a line matching the FUNCTION header and ends with a line
    feed and [END]. *)
Theorem tokenize_shape (code : string) (tok : string) :
  In tok (tokenize code) ->
  (exists p, tok = p +:+ ";" /\ nonEmpty p = true /\ trim p = p)
  \/ (exists header body pre,
        tok = blockToken header body
        /\ test functionHeadRe header = true
        /\ tok = pre +:+ String LF "END").
Proof.
  intros Hin.
  destruct (proj1 (List.Forall_forall _ _) (tokenize_tokenShape code) tok Hin)
    as [(p & -> & Hn & Ht)|(header & body & -> & _ & Hh & _)].
  - left. exists p. auto.
  - right. destruct (blockToken_END header body) as (pre & E).
    exists header, body, pre. auto.
Qed.

(** X21 for the first token of [patrolSource]. *)
Lemma tokenize_shape_witness :
  (exists p, "X = 1;" = p +:+ ";" /\ nonEmpty p = true /\ trim p = p)
  \/ (exists header body pre,
        "X = 1;" = blockToken header body
        /\ test functionHeadRe header = true
        /\ "X = 1;" = pre +:+ String LF "END").
Proof.
  apply (tokenize_shape patrolSource "X = 1;").
  vm_compute. left. reflexivity.
Defined.

(** ** A block without END *)

Lemma blockLoop_open (header : string) (body : list string) :
  forall acc,
  forallb (fun l => negb (test endRe l)) body = true ->
  blockLoop header acc body = [blockToken header (acc ++ body)%list].
Proof.
  induction body as [|l body IH]; intros acc H.
  - rewrite app_nil_r. reflexivity.
  - simpl in H. apply andb_true_iff in H as [Hl Hb].
    apply negb_true_iff in Hl. cbn [blockLoop]. rewrite Hl.
    rewrite (IH _ Hb), <- app_assoc. reflexivity.
Qed.

Lemma splitOn_app_LF (s t : string) :
  forall cur,
  splitOn LF cur (s +:+ String LF t)
  = (splitOn LF cur s ++ splitOn LF EmptyString t)%list.
Proof.
  induction s as [|c s IH]; intros cur.
  - rewrite append_nil. cbn [splitOn]. rewrite Ascii.eqb_refl. reflexivity.
  - rewrite append_cons. cbn [splitOn]. destruct (c =? LF)%char.
    + rewrite IH. reflexivity.
    + apply IH.
Qed.

(** X22. A FUNCTION block that the source never closes takes every line
    that is left as its body, and its token ends with [END] all the same: the
    tokens are those of the source with a line [END] added at its end. *)
Theorem tokenize_missing_end (code : string) (pre : list string)
  (header : string) (body : list string) :
  split code LF = (pre ++ header :: body)%list ->
  openAfter false (cleanLines pre) = false ->
  test functionHeadRe (cleanLine header) = true ->
  forallb (fun l => negb (test endRe l)) (cleanLines body) = true ->
  tokenize code
  = (tokenizeLines (cleanLines pre)
     ++ [blockToken (cleanLine header) (cleanLines body)])%list
  /\ tokenize (code +:+ String LF "END") = tokenize code.
Proof.
  intros Hsplit Hpre Hh Hb.
  assert (Hc : tokenize code
               = (tokenizeLines (cleanLines pre)
                  ++ [blockToken (cleanLine header) (cleanLines body)])%list).
  { unfold tokenize. rewrite sourceLines_cleanLines, Hsplit, cleanLines_app.
    rewrite (cleanLines_cons header body (functionHead_nonEmpty _ Hh)).
    rewrite (proj1 (tokenize_prefix (cleanLines pre) _) Hpre). f_equal.
    rewrite tokenizeLines_cons, Hh.
    exact (blockLoop_open _ _ [] Hb). }
  split; [exact Hc|]. rewrite Hc.
  unfold tokenize. rewrite sourceLines_cleanLines. unfold split.
  rewrite splitOn_app_LF.
  change (splitOn LF EmptyString code) with (split code LF). rewrite Hsplit.
  change (splitOn LF EmptyString "END") with ["END"].
  rewrite <- app_assoc. cbn [List.app].
  rewrite cleanLines_app.
  rewrite (cleanLines_cons header _ (functionHead_nonEmpty _ Hh)).
  rewrite cleanLines_app.
  change (cleanLines ["END"]) with ["END"].
  rewrite (tokenizeLines_function_block (cleanLines pre) (cleanLine header)
             (cleanLines body) "END" [] Hpre Hh Hb eq_refl).
  reflexivity.
Qed.

(** X22 for [openSource]. *)
Lemma tokenize_missing_end_witness :
  tokenize openSource
  = (tokenizeLines (cleanLines ["TURN LEFT;"])
     ++ [blockToken (cleanLine "FUNCTION f:") (cleanLines ["  ATTACK;"])])%list
  /\ tokenize (openSource +:+ String LF "END") = tokenize openSource.
Proof.
  apply (tokenize_missing_end openSource ["TURN LEFT;"] "FUNCTION f:"
           ["  ATTACK;"]).
  - reflexivity.
  - reflexivity.
  - reflexivity.
  - reflexivity.
Defined.

(** ** Greedy stars *)

Lemma skipAll_fields (s : string) :
  forall p pv cs,
  pos (skipAll s p pv cs) = (p + String.length s)%nat
  /\ rest (skipAll s p pv cs) = EmptyString
  /\ caps (skipAll s p pv cs) = cs.
Proof.
  induction s as [|c s IH]; intros p pv cs; simpl.
  - rewrite Nat.add_0_r. auto.
  - destruct (IH (S p) (Some c) cs) as (Hp & Hr & Hc).
    rewrite Hp. split; [lia|auto].
Qed.

(** A greedy star over a class reads all of a string made of the class when
    the continuation accepts the end. *)
Lemma starLoop_greedy_all (p : ascii -> bool) (k : mstate -> option mstate)
  (s : string) :
  forall fuel pn pv cs,
  (String.length s <= fuel)%nat ->
  allChars p s = true ->
  k (skipAll s pn pv cs) <> None ->
  starLoop true (rmatch (Chr p)) fuel
    {| pos := pn; prev := pv; rest := s; caps := cs |} k
  = k (skipAll s pn pv cs).
Proof.
  induction s as [|c s IH]; intros fuel pn pv cs Hf Hall Hk.
  - destruct fuel; reflexivity.
  - destruct fuel as [|fuel]; [simpl in Hf; lia|].
    simpl in Hall. apply andb_true_iff in Hall as [Hc Hs].
    pose proof (IH fuel (S pn) (Some c) cs ltac:(simpl in Hf; lia) Hs Hk)
      as IHs.
    set (it := rmatch (Chr p)) in *. cbn [starLoop]. unfold it at 1.
    cbn [rmatch rest pos caps]. rewrite Hc.
    assert (Hlt : (pn <? S pn)%nat = true) by (apply Nat.ltb_lt; lia).
    rewrite Hlt, IHs.
    cbn [skipAll].
    destruct (k (skipAll s (S pn) (Some c) cs)) eqn:E; [reflexivity|].
    simpl in Hk. congruence.
Qed.

Lemma isSpace_not_slash (c : ascii) :
  isSpace c = true -> (c =? "/")%char = false.
Proof.
  intros H. destruct (Ascii.eqb_spec c "/") as [->|]; [discriminate|reflexivity].
Qed.

Lemma commentRe_at (r : string) (pn : nat) (pv : option ascii) :
  allChars isDot r = true ->
  rmatch commentRe
    {| pos := pn; prev := pv; rest := String "/" (String "/" r); caps := [] |}
    Some
  = Some (skipAll r (S (S pn)) (Some "/"%char) []).
Proof.
  intros Hr. unfold commentRe. cbn [seqs word]. rewrite !rmatch_Seq.
  unfold chr. cbn [rmatch rest pos caps prev]. rewrite Ascii.eqb_refl.
  unfold dot.
  destruct (skipAll_fields r (S (S pn)) (Some "/"%char) []) as (_ & Hrest & _).
  rewrite (starLoop_greedy_all _ _ r _ (S (S pn)) (Some "/"%char) []);
    [| lia | exact Hr |]; rewrite Hrest; [reflexivity|discriminate].
Qed.

Lemma commentRe_space (c : ascii) (s : string) (pn : nat) (pv : option ascii) :
  isSpace c = true ->
  rmatch commentRe
    {| pos := pn; prev := pv; rest := String c s; caps := [] |} Some = None.
Proof.
  intros Hc. unfold commentRe. cbn [seqs word]. rewrite !rmatch_Seq.
  unfold chr. cbn [rmatch rest]. rewrite (isSpace_not_slash c Hc). reflexivity.
Qed.

Lemma searchFrom_comment (ws r : string) :
  forall pn pv,
  allChars isSpace ws = true -> allChars isDot r = true ->
  exists st,
    searchFrom commentRe pn pv (ws +:+ String "/" (String "/" r))
    = Some ((pn + String.length ws)%nat, st)
    /\ rest st = EmptyString.
Proof.
  induction ws as [|c ws IH]; intros pn pv Hws Hr.
  - rewrite append_nil. cbn [searchFrom]. rewrite (commentRe_at r pn pv Hr).
    eexists. split; [simpl; rewrite Nat.add_0_r; reflexivity|].
    apply skipAll_fields.
  - simpl in Hws. apply andb_true_iff in Hws as [Hc Hws].
    rewrite append_cons. cbn [searchFrom].
    rewrite (commentRe_space c _ pn pv Hc).
    destruct (IH (S pn) (Some c) Hws Hr) as (st & Hst & Hrest).
    exists st. split; [|exact Hrest].
    rewrite Hst. simpl. f_equal. f_equal. lia.
Qed.

Lemma searchFrom_blank (ws : string) :
  forall pn pv,
  allChars isSpace ws = true -> searchFrom commentRe pn pv ws = None.
Proof.
  induction ws as [|c ws IH]; intros pn pv Hws.
  - reflexivity.
  - simpl in Hws. apply andb_true_iff in Hws as [Hc Hws].
    cbn [searchFrom]. rewrite (commentRe_space c _ pn pv Hc). apply IH, Hws.
Qed.

Lemma substring_prefix (a b : string) :
  substring 0 (String.length a) (a +:+ b) = a.
Proof.
  induction a as [|c a IH].
  - rewrite append_nil. destruct b; reflexivity.
  - rewrite append_cons. cbn [String.length substring]. rewrite IH.
    reflexivity.
Qed.

Lemma trim_blank (ws : string) :
  allChars isSpace ws = true -> trim ws = EmptyString.
Proof.
  intros H. unfold trim. induction ws as [|c ws IH]; [reflexivity|].
  simpl in H. apply andb_true_iff in H as [Hc Hws].
  cbn [trimStart]. rewrite Hc. exact (IH Hws).
Qed.

Lemma cleanLine_blank (ws c : string) :
  allChars isSpace ws = true ->
  c = EmptyString
  \/ (exists r, c = String "/" (String "/" r) /\ allChars isDot r = true) ->
  cleanLine (ws +:+ c) = EmptyString.
Proof.
  intros Hws [->|(r & -> & Hr)]; unfold cleanLine, removeFirst, exec.
  - rewrite append_empty_r, (searchFrom_blank ws 0 None Hws).
    exact (trim_blank ws Hws).
  - destruct (searchFrom_comment ws r 0%nat None Hws Hr) as (st & -> & Hrest).
    rewrite Hrest, append_empty_r. simpl.
    rewrite substring_prefix. exact (trim_blank ws Hws).
Qed.

(** X23. A line that holds only white space, or white space and a comment,
    changes nothing wherever it stands, also inside a FUNCTION block: the
    source with the line and the source without it have the same tokens. *)
Theorem blank_lines_ignored (code code' : string) (pre post : list string)
  (ws c : string) :
  split code LF = (pre ++ (ws +:+ c) :: post)%list ->
  split code' LF = (pre ++ post)%list ->
  allChars isSpace ws = true ->
  c = EmptyString
  \/ (exists r, c = String "/" (String "/" r) /\ allChars isDot r = true) ->
  tokenize code = tokenize code'.
Proof.
  intros Hc Hc' Hws Hcom. unfold tokenize.
  rewrite !sourceLines_cleanLines, Hc, Hc', !cleanLines_app. f_equal. f_equal.
  unfold cleanLines. cbn [map List.filter].
  rewrite (cleanLine_blank ws c Hws Hcom). reflexivity.
Qed.

(** X23 for a comment line inside the block of [patrolSource]. *)
Lemma blank_lines_ignored_witness :
  tokenize patrolSource
  = tokenize
      (join (String LF EmptyString)
         ["X = 1; // before"; "FUNCTION Patrol:  // header"; "  MOVE 1 LEFT;";
          ""; "  MOVE 1 RIGHT; TURN LEFT;"; "END;"; "CALL Patrol;"]).
Proof.
  apply (blank_lines_ignored patrolSource _
           ["X = 1; // before"; "FUNCTION Patrol:  // header";
            "  MOVE 1 LEFT;"; ""]
           ["  MOVE 1 RIGHT; TURN LEFT;"; "END;"; "CALL Patrol;"]
           "  " "// half way").
  - reflexivity.
  - reflexivity.
  - reflexivity.
  - right. exists " half way". split; reflexivity.
Defined.

(** ** What the assignment pattern captures *)

Lemma isSuffix_tail (c : ascii) (s t : string) :
  isSuffix (String c s) t -> isSuffix s t.
Proof.
  intros (pre & ->). exists (pre +:+ String c EmptyString).
  rewrite append_assoc, append_cons, append_nil. reflexivity.
Qed.

Lemma starLoop_suffix_k (P : mstate -> Prop) (t : string) (g : bool)
  (iter : matcher) (k : mstate -> option mstate) :
  (forall st k' res, isSuffix (rest st) t ->
     (forall st' res', isSuffix (rest st') t -> k' st' = Some res' -> P res') ->
     iter st k' = Some res -> P res) ->
  (forall st res, isSuffix (rest st) t -> k st = Some res -> P res) ->
  forall fuel st res,
  isSuffix (rest st) t -> starLoop g iter fuel st k = Some res -> P res.
Proof.
  intros Hiter Hk. induction fuel as [|fuel IH]; intros st res Hst H.
  - exact (Hk st res Hst H).
  - cbn [starLoop] in H.
    assert (Hmore : forall res',
      iter st (fun st' => if (pos st <? pos st')%nat
                          then starLoop g iter fuel st' k else None)
      = Some res' -> P res').
    { intros res' Hm. refine (Hiter st _ res' Hst _ Hm).
      intros st' r Hst' Hr. destruct (pos st <? pos st')%nat; [|discriminate].
      exact (IH st' r Hst' Hr). }
    destruct g.
    + destruct (iter st _) as [r|] eqn:E; simpl in H.
      * injection H as <-. apply Hmore. reflexivity.
      * exact (Hk st res Hst H).
    + destruct (k st) as [r|] eqn:E; simpl in H.
      * injection H as <-. exact (Hk st r Hst E).
      * apply Hmore. exact H.
Qed.

(** A matcher hands to its continuation only states whose rest is a suffix
    of the input. *)
Lemma rmatch_suffix_k (P : mstate -> Prop) (t : string) (r : regex) :
  forall st k res,
  isSuffix (rest st) t ->
  (forall st' res', isSuffix (rest st') t -> k st' = Some res' -> P res') ->
  rmatch r st k = Some res -> P res.
Proof.
  induction r as [p| |r1 IH1 r2 IH2|r1 IH1 r2 IH2|g r1 IH1|n r1 IH1| | |];
    intros st k res Hst Hk H; cbn [rmatch] in H.
  - destruct (rest st) as [|c s'] eqn:E; [discriminate|].
    destruct (p c); [|discriminate].
    refine (Hk _ _ _ H). simpl. exact (isSuffix_tail c s' t Hst).
  - exact (Hk _ _ Hst H).
  - refine (IH1 st _ res Hst _ H).
    intros st1 r Hst1 Hr. exact (IH2 st1 k r Hst1 Hk Hr).
  - destruct (rmatch r1 st k) as [r|] eqn:E; simpl in H.
    + injection H as <-. exact (IH1 st k r Hst Hk E).
    + exact (IH2 st k res Hst Hk H).
  - refine (starLoop_suffix_k P t g (rmatch r1) k _ Hk _ st res Hst H).
    intros st0 k' r Hst0 Hk' Hr. exact (IH1 st0 k' r Hst0 Hk' Hr).
  - refine (IH1 st _ res Hst _ H).
    intros st1 r Hst1 Hr. refine (Hk _ _ _ Hr). exact Hst1.
  - destruct (prev st); [discriminate|]. exact (Hk _ _ Hst H).
  - assert (H' : k st = Some res) by (destruct (rest st); [exact H|discriminate]).
    exact (Hk _ _ Hst H').
  - destruct (xorb _ _); [|discriminate]. exact (Hk _ _ Hst H).
Qed.

(** A greedy star over a class fails when the continuation rejects every
    state whose rest is not made of the class. *)
Lemma starLoop_class_none (p : ascii -> bool) (k : mstate -> option mstate) :
  (forall st, allChars p (rest st) = false -> k st = None) ->
  forall fuel st,
  allChars p (rest st) = false ->
  starLoop true (rmatch (Chr p)) fuel st k = None.
Proof.
  intros Hk. induction fuel as [|fuel IH]; intros st Hst.
  - exact (Hk st Hst).
  - set (it := rmatch (Chr p)) in *. cbn [starLoop]. unfold it at 1.
    cbn [rmatch]. rewrite (Hk st Hst).
    destruct (rest st) as [|c s'] eqn:E; [reflexivity|].
    simpl in Hst. destruct (p c); [|reflexivity].
    simpl in Hst. cbn [pos].
    destruct (pos st <? S (pos st))%nat; [|reflexivity].
    rewrite IH; [reflexivity|exact Hst].
Qed.

Lemma substring_full (s : string) : substring 0 (String.length s) s = s.
Proof.
  rewrite <- (append_empty_r s) at 2. rewrite substring_prefix. reflexivity.
Qed.

Lemma semicolonEnd_none (st : mstate) :
  allChars isDot (rest st) = false ->
  rmatch (Seq (opt (chr ";")) Eol) st Some = None.
Proof.
  intros H. unfold opt, chr. cbn [rmatch].
  destruct (rest st) as [|c s'] eqn:E; [discriminate|].
  destruct (Ascii.eqb_spec c ";") as [->|Hc]; [|reflexivity].
  cbn [rest]. destruct s'; [discriminate|reflexivity].
Qed.

Lemma rmatch_Group (n : nat) (r : regex) (st : mstate)
  (k : mstate -> option mstate) :
  rmatch (Group n r) st k =
    rmatch r st (fun st1 =>
      k {| pos := pos st1; prev := prev st1; rest := rest st1;
           caps := (n, substring 0 (pos st1 - pos st) (rest st))
                     :: caps st1 |}).
Proof. reflexivity. Qed.

Lemma rmatch_Chr (p : ascii -> bool) (st : mstate)
  (k : mstate -> option mstate) :
  rmatch (Chr p) st k =
    match rest st with
    | EmptyString => None
    | String c s' =>
        if p c then
          k {| pos := S (pos st); prev := Some c; rest := s';
               caps := caps st |}
        else None
    end.
Proof. reflexivity. Qed.

Lemma rmatch_Star (g : bool) (r : regex) (st : mstate)
  (k : mstate -> option mstate) :
  rmatch (Star g r) st k =
    starLoop g (rmatch r) (S (String.length (rest st))) st k.
Proof. reflexivity. Qed.

(** The tail [(.+);?$] of the assignment pattern: when it matches, the group
    holds all that was left of the input, the [;] included. *)
Lemma assignTail (st res : mstate) :
  rmatch (Seq (Group 2 (plus dot)) (Seq (opt (chr ";")) Eol)) st Some
  = Some res ->
  caps res = (2%nat, rest st) :: caps st
  /\ nonEmpty (rest st) = true /\ allChars isDot (rest st) = true.
Proof.
  destruct st as [pn pv s cs].
  rewrite rmatch_Seq, rmatch_Group. unfold plus at 1.
  rewrite rmatch_Seq. unfold dot at 1. rewrite rmatch_Chr.
  cbn [rest pos caps prev].
  destruct s as [|c s']; [discriminate|].
  change (negb (isLineTerminator c)) with (isDot c).
  destruct (isDot c) eqn:Hc; [|discriminate].
  rewrite rmatch_Star. cbn [rest pos caps prev].
  set (K := fun st1 : mstate =>
              rmatch (Seq (opt (chr ";")) Eol)
                {| pos := pos st1; prev := prev st1; rest := rest st1;
                   caps := (2%nat, substring 0 (pos st1 - pn) (String c s'))
                             :: caps st1 |} Some).
  unfold dot.
  destruct (allChars isDot s') eqn:Hs.
  - destruct (skipAll_fields s' (S pn) (Some c) cs) as (Hp & Hr & Hcs).
    assert (HK : K (skipAll s' (S pn) (Some c) cs)
                 = Some {| pos := pos (skipAll s' (S pn) (Some c) cs);
                           prev := prev (skipAll s' (S pn) (Some c) cs);
                           rest := EmptyString;
                           caps := (2%nat, String c s') :: cs |}).
    { unfold K. rewrite Hr, Hcs. rewrite Hp at 2.
      replace (S pn + String.length s' - pn)%nat
        with (String.length (String c s')) by (simpl; lia).
      rewrite substring_full. reflexivity. }
    rewrite (starLoop_greedy_all _ K s' _ (S pn) (Some c) cs);
      [|lia|exact Hs|rewrite HK; discriminate].
    rewrite HK. intros H. injection H as <-. simpl. rewrite Hc, Hs. auto.
  - rewrite (starLoop_class_none _ K); [discriminate| |exact Hs].
    intros st Hst. unfold K. apply semicolonEnd_none. exact Hst.
Qed.

Lemma assignRe_capture (t : string) (m : list (nat * string)) :
  matchRe assignRe t = Some m ->
  exists v,
    capture 2 m = Some v /\ nonEmpty v = true /\ allChars isDot v = true
    /\ isSuffix v t.
Proof.
  unfold matchRe, assignRe. cbn [seqs]. rewrite exec_Bol.
  destruct (rmatch _ _ Some) as [st|] eqn:E; [|discriminate].
  intros H. injection H as <-.
  set (P := fun res : mstate =>
              exists v, capture 2 (caps res) = Some v /\ nonEmpty v = true
                        /\ allChars isDot v = true /\ isSuffix v t).
  change (P st).
  rewrite rmatch_Seq in E.
  refine (rmatch_suffix_k P t _ _ _ st _ _ E);
    [exists EmptyString; rewrite append_nil; reflexivity|].
  intros st1 r1 Hs1 E1. rewrite rmatch_Seq in E1.
  refine (rmatch_suffix_k P t _ _ _ r1 Hs1 _ E1).
  intros st2 r2 Hs2 E2. rewrite rmatch_Seq in E2.
  refine (rmatch_suffix_k P t _ _ _ r2 Hs2 _ E2).
  intros st3 r3 Hs3 E3. rewrite rmatch_Seq in E3.
  refine (rmatch_suffix_k P t _ _ _ r3 Hs3 _ E3).
  intros st4 r4 Hs4 E4.
  destruct (assignTail st4 r4 E4) as (Hc & Hn & Hd).
  exists (rest st4). rewrite Hc. simpl. auto.
Qed.

(** ** Numbers that end with a semicolon *)

Lemma endsWith_cons (c : ascii) (s : string) :
  endsWithChar (String c s) ";" = true ->
  (s = EmptyString /\ c = ";"%char)
  \/ (nonEmpty s = true /\ endsWithChar s ";" = true).
Proof.
  destruct s as [|d s]; simpl.
  - intros H. left. split; [reflexivity|]. apply Ascii.eqb_eq. exact H.
  - intros H. right. auto.
Qed.

Lemma endsWith_nonEmpty (s : string) :
  endsWithChar s ";" = true -> nonEmpty s = true.
Proof. destruct s; [discriminate|reflexivity]. Qed.

Lemma endsWith_tail (c : ascii) (s : string) :
  (c =? ";")%char = false -> endsWithChar (String c s) ";" = true ->
  endsWithChar s ";" = true.
Proof.
  intros Hc H. destruct (endsWith_cons c s H) as [[_ ->]|[_ E]];
    [discriminate|exact E].
Qed.

Lemma endsWith_app (p : string) : endsWithChar (p +:+ ";") ";" = true.
Proof.
  induction p as [|c p IH]; [reflexivity|].
  rewrite append_cons. cbn [endsWithChar].
  destruct (p +:+ ";") eqn:E; [|exact IH].
  destruct p; discriminate.
Qed.

Lemma digitsIn_semicolon (base : Z) (s : string) :
  forall acc, base <= 99 -> endsWithChar s ";" = true ->
  digitsIn base acc s = None.
Proof.
  induction s as [|c s IH]; intros acc Hb H; [discriminate|].
  cbn [digitsIn].
  destruct (endsWith_cons c s H) as [[-> ->]|[_ E]].
  - change (digitValue ";") with 99.
    destruct (Z.ltb_spec 99 base); [lia|reflexivity].
  - destruct (digitValue c <? base); [|reflexivity]. apply IH; assumption.
Qed.

Lemma digitString_semicolon (base : Z) (s : string) :
  base <= 99 -> s = EmptyString \/ endsWithChar s ";" = true ->
  digitString base s = None.
Proof.
  intros Hb [->|H]; [reflexivity|].
  destruct s; [discriminate|]. unfold digitString.
  apply digitsIn_semicolon; assumption.
Qed.

Lemma endsWith_tail_or (c : ascii) (s : string) :
  (c =? ";")%char = false -> endsWithChar (String c s) ";" = true ->
  s = EmptyString \/ endsWithChar s ";" = true.
Proof. intros Hc H. right. exact (endsWith_tail c s Hc H). Qed.

Lemma spanDigits_semicolon (s : string) :
  endsWithChar s ";" = true ->
  endsWithChar (snd (spanDigits s)) ";" = true.
Proof.
  induction s as [|c s IH]; intros H; [discriminate|].
  cbn [spanDigits]. destruct (isDigit c) eqn:Hd; [|exact H].
  assert (Hc : (c =? ";")%char = false).
  { destruct (Ascii.eqb_spec c ";") as [->|]; [discriminate|reflexivity]. }
  specialize (IH (endsWith_tail c s Hc H)).
  destruct (spanDigits s) as [ds r]. exact IH.
Qed.

Lemma signedInteger_semicolon (s : string) :
  s = EmptyString \/ endsWithChar s ";" = true -> signedInteger s = None.
Proof.
  intros H. unfold signedInteger.
  destruct s as [|c s]; [reflexivity|].
  destruct H as [H|H]; [discriminate|].
  assert (Hgen : digitString 10 (String c s) = None)
    by (apply digitString_semicolon; [lia|auto]).
  destruct (Ascii.eqb_spec c "+") as [->|Hp].
  - apply digitString_semicolon; [lia|].
    destruct s; [left; reflexivity|right; exact H].
  - destruct (Ascii.eqb_spec c "-") as [->|Hm].
    + rewrite digitString_semicolon; [reflexivity|lia|].
      destruct s; [left; reflexivity|right; exact H].
    + destruct c as [[] [] [] [] [] [] [] []]; try exact Hgen;
        contradiction.
Qed.

Lemma exponentPart_semicolon (s : string) :
  endsWithChar s ";" = true -> exponentPart s = None.
Proof.
  intros H. destruct s as [|c s]; [discriminate|].
  cbn [exponentPart].
  destruct ((c =? "e")%char || (c =? "E")%char) eqn:E; [|reflexivity].
  apply signedInteger_semicolon.
  destruct s; [left; reflexivity|right; exact H].
Qed.

Lemma unsignedDecimal_semicolon (s : string) :
  endsWithChar s ";" = true -> unsignedDecimal s = None.
Proof.
  intros H. unfold unsignedDecimal.
  pose proof (spanDigits_semicolon s H) as H1.
  destruct (spanDigits s) as [intDigits r1]. cbn [snd] in H1.
  assert (H2 : endsWithChar
                 (snd match r1 with
                      | String "." r => spanDigits r
                      | _ => (EmptyString, r1)
                      end) ";" = true).
  { destruct r1 as [|c r]; [discriminate|].
    destruct (Ascii.eqb_spec c ".") as [->|Hc].
    - apply spanDigits_semicolon. exact (endsWith_tail "." r eq_refl H1).
    - destruct c as [[] [] [] [] [] [] [] []]; try exact H1; contradiction. }
  destruct (match r1 with
            | String "." r => spanDigits r
            | _ => (EmptyString, r1)
            end) as [fracDigits r2].
  cbn [snd] in H2. rewrite (exponentPart_semicolon r2 H2).
  destruct (negb (nonEmpty intDigits) && negb (nonEmpty fracDigits));
    [reflexivity|].
  destruct (negb (nonEmpty intDigits) && negb _); [reflexivity|].
  destruct (digitsIn 10 0 (intDigits +:+ fracDigits)); reflexivity.
Qed.

Lemma eqb_Infinity_semicolon (s : string) :
  endsWithChar s ";" = true -> String.eqb s "Infinity" = false.
Proof.
  intros H. destruct (String.eqb_spec s "Infinity") as [->|]; [|reflexivity].
  discriminate.
Qed.

Lemma strDecimalLiteral_semicolon (s : string) :
  endsWithChar s ";" = true -> strDecimalLiteral s = NaN.
Proof.
  intros H. unfold strDecimalLiteral.
  assert (Hu : forall neg u, endsWithChar u ";" = true ->
                 (if String.eqb u "Infinity" then S754_infinity neg
                  else match unsignedDecimal u with
                       | Some (m, e) =>
                           if m =? 0 then S754_zero neg else roundDecimal neg m e
                       | None => NaN
                       end) = NaN).
  { intros neg u Hu. rewrite (eqb_Infinity_semicolon u Hu).
    rewrite (unsignedDecimal_semicolon u Hu). reflexivity. }
  destruct s as [|c s]; [discriminate|].
  destruct (Ascii.eqb_spec c "+") as [->|Hp].
  - apply Hu. exact (endsWith_tail "+" s eq_refl H).
  - destruct (Ascii.eqb_spec c "-") as [->|Hm].
    + apply Hu. exact (endsWith_tail "-" s eq_refl H).
    + destruct c as [[] [] [] [] [] [] [] []]; try (apply Hu; exact H);
        contradiction.
Qed.

Lemma nonDecimalBase_semicolon (s : string) (base : Z) (ds : string) :
  endsWithChar s ";" = true -> nonDecimalBase s = Some (base, ds) ->
  base <= 99 /\ (ds = EmptyString \/ endsWithChar ds ";" = true).
Proof.
  intros H Hn. unfold nonDecimalBase in Hn.
  destruct s as [|c0 s]; [discriminate|].
  destruct (Ascii.eqb_spec c0 "0") as [->|H0];
    [|destruct c0 as [[] [] [] [] [] [] [] []]; try discriminate; contradiction].
  destruct s as [|c s]; [discriminate|].
  pose proof (endsWith_tail "0" _ eq_refl H) as H1.
  assert (Hc : (c =? ";")%char = false).
  { destruct (Ascii.eqb_spec c ";") as [->|]; [discriminate|reflexivity]. }
  pose proof (endsWith_tail c s Hc H1) as H2.
  destruct ((c =? "x")%char || (c =? "X")%char);
    [injection Hn as <- <-; split; [lia|auto]|].
  destruct ((c =? "o")%char || (c =? "O")%char);
    [injection Hn as <- <-; split; [lia|auto]|].
  destruct ((c =? "b")%char || (c =? "B")%char);
    [injection Hn as <- <-; split; [lia|auto]|discriminate].
Qed.

Lemma trimStart_endsWith (s : string) :
  endsWithChar s ";" = true -> endsWithChar (trimStart s) ";" = true.
Proof.
  induction s as [|c s IH]; intros H; [discriminate|].
  cbn [trimStart]. destruct (isSpace c) eqn:Hc; [|exact H].
  apply IH. apply (endsWith_tail c s); [|exact H].
  destruct (Ascii.eqb_spec c ";") as [->|]; [discriminate|reflexivity].
Qed.

Lemma trimEnd_endsWith (s : string) :
  endsWithChar s ";" = true -> trimEnd s = s.
Proof.
  induction s as [|c s IH]; intros H; [discriminate|].
  destruct (endsWith_cons c s H) as [[-> ->]|[Hn E]]; [reflexivity|].
  cbn [trimEnd]. rewrite (IH E). destruct s; [discriminate|reflexivity].
Qed.

Lemma trim_endsWith (s : string) :
  endsWithChar s ";" = true -> endsWithChar (trim s) ";" = true.
Proof.
  intros H. unfold trim.
  rewrite (trimEnd_endsWith _ (trimStart_endsWith s H)).
  exact (trimStart_endsWith s H).
Qed.

Lemma Number_semicolon (s : string) :
  endsWithChar s ";" = true -> Number s = NaN.
Proof.
  intros H. unfold Number. pose proof (trim_endsWith s H) as Ht.
  destruct (trim s) as [|c v] eqn:E; [discriminate|].
  destruct (nonDecimalBase (String c v)) as [[base ds]|] eqn:En.
  - destruct (nonDecimalBase_semicolon _ base ds Ht En) as [Hb Hds].
    rewrite (digitString_semicolon base ds Hb Hds). reflexivity.
  - exact (strDecimalLiteral_semicolon _ Ht).
Qed.

Lemma allChars_word_semicolon (s : string) :
  endsWithChar s ";" = true -> allChars isWordChar s = false.
Proof.
  induction s as [|c s IH]; intros H; [discriminate|].
  cbn [allChars]. destruct (endsWith_cons c s H) as [[-> ->]|[_ E]].
  - reflexivity.
  - rewrite (IH E). apply andb_false_r.
Qed.

Lemma isVarToken_semicolon (s : string) :
  endsWithChar s ";" = true -> isVarToken s = false.
Proof.
  intros H. unfold isVarToken.
  destruct s as [|d s]; [reflexivity|].
  destruct (Ascii.eqb_spec d "$") as [->|Hd];
    [|destruct d as [[] [] [] [] [] [] [] []]; try reflexivity; contradiction].
  destruct s as [|c r]; [reflexivity|].
  pose proof (endsWith_tail "$" _ eq_refl H) as H1.
  destruct (endsWith_cons c r H1) as [[-> ->]|[_ E]]; [reflexivity|].
  rewrite (allChars_word_semicolon r E). apply andb_false_r.
Qed.

Lemma parseExpr_semicolon (s : string) :
  endsWithChar s ";" = true -> parseExpr s = ENumber zero.
Proof.
  intros H. rewrite parseExpr_cases.
  rewrite (isVarToken_semicolon _ (trim_endsWith s H)).
  rewrite (Number_semicolon _ (trim_endsWith s H)). reflexivity.
Qed.

(** ** Every parsed assignment stores zero *)

Lemma isSuffix_endsWith (v t : string) (c : ascii) :
  isSuffix v t -> nonEmpty v = true -> endsWithChar t c = endsWithChar v c.
Proof.
  intros (pre & ->) Hv. induction pre as [|d pre IH].
  - rewrite append_nil. reflexivity.
  - rewrite append_cons. cbn [endsWithChar]. rewrite <- IH.
    destruct (pre +:+ v) eqn:E; [|reflexivity].
    destruct pre; [rewrite append_nil in E; subst v; discriminate|].
    rewrite append_cons in E. discriminate.
Qed.

Lemma append_eq_append (pre v : string) :
  forall X w, pre +:+ v = X +:+ w ->
  isSuffix v w \/ exists y, v = y +:+ w.
Proof.
  induction pre as [|d pre IH]; intros X w H.
  - rewrite append_nil in H. right. exists X. exact H.
  - destruct X as [|d' X].
    + rewrite append_nil in H. left. exists (String d pre). symmetry. exact H.
    + rewrite !append_cons in H. injection H as _ H. exact (IH X w H).
Qed.

Lemma allChars_app (p : ascii -> bool) (a b : string) :
  allChars p (a +:+ b) = allChars p a && allChars p b.
Proof.
  induction a as [|c a IH].
  - rewrite append_nil. reflexivity.
  - rewrite append_cons. cbn [allChars]. rewrite IH, andb_assoc. reflexivity.
Qed.

Lemma parseExpr_suffix (t v : string) :
  tokenEnd t -> isSuffix v t -> nonEmpty v = true ->
  allChars isDot v = true -> parseExpr v = ENumber zero.
Proof.
  intros [Hsemi|(X & ->)] Hsuf Hn Hdot.
  - apply parseExpr_semicolon.
    rewrite <- (isSuffix_endsWith v t ";" Hsuf Hn). exact Hsemi.
  - destruct Hsuf as (pre & Hsuf). symmetry in Hsuf.
    destruct (append_eq_append pre v X _ Hsuf) as [(q & Hq)|(y & ->)].
    + destruct q as [|c1 q]; [rewrite append_nil in Hq; subst v; discriminate|].
      rewrite append_cons in Hq. injection Hq as _ Hq.
      destruct q as [|c2 q]; [rewrite append_nil in Hq; subst v; reflexivity|].
      rewrite append_cons in Hq. injection Hq as _ Hq.
      destruct q as [|c3 q]; [rewrite append_nil in Hq; subst v; reflexivity|].
      rewrite append_cons in Hq. injection Hq as _ Hq.
      destruct q as [|c4 q]; [rewrite append_nil in Hq; subst v; reflexivity|].
      rewrite append_cons in Hq. injection Hq as _ Hq.
      destruct q as [|c5 q]; [rewrite append_nil in Hq; subst v; discriminate|].
      rewrite append_cons in Hq. discriminate.
    + rewrite allChars_app in Hdot. apply andb_true_iff in Hdot as [_ Hdot].
      discriminate.
Qed.

Lemma orRule_Parsed (r : option parsed) (next : parsed) (s : Stmt) :
  orRule r next = Parsed s ->
  r = Some (Parsed s) \/ (r = None /\ next = Parsed s).
Proof. destruct r as [p|]; simpl; intros H; [left; congruence|right; auto]. Qed.

Lemma assignsZero_function (name : string) (body : list Stmt) :
  assignsZero (SFunction name body) = forallb assignsZero body.
Proof.
  cbn [assignsZero]. induction body as [|s body IH]; [reflexivity|].
  cbn [forallb]. rewrite <- IH. reflexivity.
Qed.

Lemma parseAll_forallb (f : string -> parsed) (Q : Stmt -> bool)
  (toks : list string) :
  forall body,
  (forall tok s, In tok toks -> f tok = Parsed s -> Q s = true) ->
  parseAll f toks = Some body -> forallb Q body = true.
Proof.
  induction toks as [|tok toks IH]; intros body HQ H.
  - injection H as <-. reflexivity.
  - cbn [parseAll] in H.
    destruct (f tok) as [| |s] eqn:E; [discriminate| |];
      destruct (parseAll f toks) as [ss|] eqn:E2; try discriminate;
      injection H as <-.
    + apply IH; [|reflexivity]. intros t s Hin. apply HQ. right. exact Hin.
    + cbn [forallb]. rewrite (HQ tok s (or_introl eq_refl) E).
      apply IH; [|reflexivity]. intros t s' Hin. apply HQ. right. exact Hin.
Qed.

Lemma tokenShape_end (tok : string) : tokenShape tok -> tokenEnd (trim tok).
Proof.
  intros H. destruct (tokenShape_trimmed tok H) as [_ ->].
  destruct H as [(p & -> & _)|(header & body & -> & _)].
  - left. apply endsWith_app.
  - right. apply blockToken_END.
Qed.

Lemma terminated_end (s : string) : tokenEnd (trim (terminated s)).
Proof.
  left. apply trim_endsWith. unfold terminated.
  destruct (endsWithChar s ";") eqn:E.
  - rewrite append_empty_r. exact E.
  - apply endsWith_app.
Qed.

Lemma parseStmt_assignsZero (fuel : nat) :
  forall tok s,
  tokenEnd (trim tok) -> parseStmt fuel tok = Parsed s -> assignsZero s = true.
Proof.
  induction fuel as [|fuel IH]; intros tok s Hend H; [discriminate|].
  cbn [parseStmt] in H.
  destruct (negb (nonEmpty (trim tok))); [discriminate|].
  apply orRule_Parsed in H as [H|[_ H]].
  { destruct (test functionHeadRe (trim tok)); [|discriminate].
    destruct (matchRe functionRe (trim tok)) as [m|]; [|discriminate].
    destruct (parseAll _ _) as [body|] eqn:E; [|discriminate].
    injection H as <-. rewrite assignsZero_function.
    refine (parseAll_forallb _ _ _ body _ E).
    intros t s Hin Hs. apply (IH t s); [|exact Hs].
    apply tokenShape_end.
    exact (proj1 (List.Forall_forall _ _) (tokenize_tokenShape _) t Hin). }
  apply orRule_Parsed in H as [H|[_ H]].
  { destruct (test ifHeadRe (trim tok)); [|discriminate].
    destruct (matchRe ifRe (trim tok)) as [m|]; [|discriminate].
    destruct (parseStmt fuel (terminated (trim (cap 2 m)))) as [| |th] eqn:Eth;
      try discriminate.
    pose proof (IH _ th (terminated_end _) Eth) as Hth.
    destruct (capture 3 m) as [raw|].
    - destruct (nonEmpty (trim raw)).
      + destruct (parseStmt fuel (terminated (trim raw))) as [| |el] eqn:Eel;
          try discriminate; injection H as <-; cbn [assignsZero];
          rewrite Hth; [reflexivity|].
        rewrite (IH _ el (terminated_end _) Eel). reflexivity.
      + injection H as <-. cbn [assignsZero]. rewrite Hth. reflexivity.
    - injection H as <-. cbn [assignsZero]. rewrite Hth. reflexivity. }
  apply orRule_Parsed in H as [H|[_ H]].
  { destruct (test assignHeadRe (trim tok)); [|discriminate].
    destruct (matchRe assignRe (trim tok)) as [m|] eqn:Em; [|discriminate].
    injection H as <-. cbn [assignsZero].
    destruct (assignRe_capture _ m Em) as (v & Hc & Hn & Hd & Hs).
    assert (Hcap : cap 2 m = v) by (unfold cap; rewrite Hc; reflexivity).
    rewrite Hcap.
    rewrite (parseExpr_suffix (trim tok) v Hend Hs Hn Hd). reflexivity. }
  apply orRule_Parsed in H as [H|[_ H]].
  { destruct (test moveHeadRe (trim tok)); [|discriminate].
    destruct (matchRe moveRe (trim tok)) as [m|]; [|discriminate].
    injection H as <-. reflexivity. }
  apply orRule_Parsed in H as [H|[_ H]].
  { destruct (test turnHeadRe (trim tok)); [|discriminate].
    destruct (matchRe turnRe (trim tok)) as [m|]; [|discriminate].
    injection H as <-. reflexivity. }
  destruct (test scanRe (trim tok)); [injection H as <-; reflexivity|].
  destruct (test attackRe (trim tok)); [injection H as <-; reflexivity|].
  apply orRule_Parsed in H as [H|[_ H]].
  { destruct (test callHeadRe (trim tok)); [|discriminate].
    destruct (matchRe callRe (trim tok)) as [m|]; [|discriminate].
    injection H as <-. reflexivity. }
  injection H as <-. reflexivity.
Qed.

(** ** The loop of [parseProgram] *)

Lemma assemble_parseAll (parse : string -> parsed) (toks : list string) :
  forall prog0 prog,
  assemble parse toks prog0 = Some prog ->
  exists ss,
    parseAll parse toks = Some ss
    /\ stmts prog
       = (stmts prog0 ++ List.filter (fun s => negb (isFunction s)) ss)%list
    /\ functions prog = declare ss (functions prog0).
Proof.
  induction toks as [|tok toks IH]; intros prog0 prog H.
  - injection H as <-. exists []. rewrite app_nil_r. auto.
  - cbn [assemble parseAll] in *.
    destruct (parse tok) as [| |s] eqn:E; [discriminate| |].
    + destruct (IH _ _ H) as (ss & -> & Hs & Hf). exists ss. auto.
    + destruct s as [name value|amount d|d| | |cond th el|name| |name body];
        try match type of H with
            | (if ?c then _ else _) = _ => destruct c; [discriminate|]
            end;
        destruct (IH _ _ H) as (ss & -> & Hs & Hf);
        eexists; (split; [reflexivity|]);
        cbn [List.filter isFunction negb declare stmts functions] in *;
        rewrite Hs, Hf, <- ?app_assoc; auto.
Qed.

Lemma declare_last (c : list Stmt) (name : string) :
  forall table,
  (forall body, ~ In (SFunction name body) c) ->
  declare c table !! name = table !! name.
Proof.
  induction c as [|s c IH]; intros table Hc; [reflexivity|].
  assert (Hc' : forall body, ~ In (SFunction name body) c)
    by (intros body Hin; apply (Hc body); right; exact Hin).
  destruct s as [n value|amount d|d| | |cond th el|n| |n body];
    cbn [declare]; try exact (IH table Hc').
  rewrite (IH _ Hc'). apply lookup_insert_ne.
  intros ->. apply (Hc body). left. reflexivity.
Qed.

Lemma declare_app (a c : list Stmt) :
  forall table, declare (a ++ c) table = declare c (declare a table).
Proof.
  induction a as [|s a IH]; intros table; [reflexivity|].
  destruct s; cbn [List.app declare]; apply IH.
Qed.

Lemma filter_not_function (ss : list Stmt) :
  Forall (fun s => isFunction s = false)
    (List.filter (fun s => negb (isFunction s)) ss).
Proof.
  induction ss as [|s ss IH]; [constructor|].
  cbn [List.filter]. destruct (isFunction s) eqn:E; cbn [negb]; [exact IH|].
  constructor; assumption.
Qed.

Lemma callee_inherited (prog : Program) (name : string) :
  functions prog !! name = None ->
  callee prog name
  = match inherited name with
    | Some (Builtin O) => Returns (Some [])
    | Some _ => Escapes
    | None => Returns None
    end.
Proof. intros H. unfold callee. rewrite H. reflexivity. Qed.

(** X24. [parseProgram] returns for every source.  The tokens of the source
    parse to a list of statements; when none of them declares [__proto__]
    (such a declaration would replace the prototype of the table), the
    result is a program: it takes the declarations out of the sequence and
    keeps the other statements in the order of the source; the table maps a
    name to the body of its last declaration, wherever the declarations stand
    relative to the calls, and has no entry of its own for a name that is not
    declared, so that a call of such a name finds what [Object.prototype]
    holds under it: nothing for most names, a built-in function for twelve of
    them. *)
Theorem parseProgram_split (code : string) :
  exists ss,
    parseAll (parseStmt (String.length code + 5)) (tokenize code) = Some ss
    /\ (declaresProto ss <-> parseProgram code = None)
    /\ (~ declaresProto ss -> exists prog, parseProgram code = Some prog)
    /\ (forall prog, parseProgram code = Some prog ->
        stmts prog = List.filter (fun s => negb (isFunction s)) ss
        /\ Forall (fun s => isFunction s = false) (stmts prog)
        /\ (forall a name body c,
              ss = (a ++ SFunction name body :: c)%list ->
              (forall body', ~ In (SFunction name body') c) ->
              functions prog !! name = Some body
              /\ callee prog name = Returns (Some body))
        /\ (forall name,
              (forall body, ~ In (SFunction name body) ss) ->
              functions prog !! name = None
              /\ (inherited name = None -> callee prog name = Returns None)
              /\ (forall m, inherited name = Some m ->
                  callee prog name
                  = match m with
                    | Builtin O => Returns (Some [])
                    | _ => Escapes
                    end))).
Proof.
  destruct (parseProgram_total code) as (ss & Hp & Hnone & Hsome).
  exists ss. split; [exact Hp|]. split; [exact Hnone|]. split; [exact Hsome|].
  intros prog H. unfold parseProgram in H.
  destruct (assemble_parseAll _ _ _ _ H) as (ss' & Hp' & Hs & Hf).
  rewrite Hp in Hp'. injection Hp' as <-.
  simpl in Hs, Hf. split; [exact Hs|].
  split; [rewrite Hs; apply filter_not_function|]. split.
  - intros a name body c -> Hc.
    assert (E : functions prog !! name = Some body).
    { rewrite Hf, declare_app. cbn [declare].
      rewrite (declare_last c name _ Hc). apply lookup_insert_eq. }
    split; [exact E|]. unfold callee. rewrite E. reflexivity.
  - intros name Hn.
    assert (E : functions prog !! name = None).
    { rewrite Hf, (declare_last ss name ∅ Hn). apply lookup_empty. }
    split; [exact E|]. rewrite (callee_inherited prog name E).
    split; [intros ->; reflexivity|]. intros m ->. destruct m as [[|k]|]; reflexivity.
Qed.

(** [twiceSource] declares [f] twice and calls it before both: the later
    body is the one called; [toString] is not declared and yet found. *)
Example parseProgram_twiceSource :
  parseProgram twiceSource
  = Some {| stmts := [SCall "f"; STurn "LEFT"];
            functions := {[ "f" := [SScan] ]} |}
  /\ callee {| stmts := [SCall "f"; STurn "LEFT"];
               functions := {[ "f" := [SScan] ]} |} "f"
     = Returns (Some [SScan])
  /\ callee {| stmts := [SCall "f"; STurn "LEFT"];
               functions := {[ "f" := [SScan] ]} |} "g"
     = Returns None
  /\ callee {| stmts := [SCall "f"; STurn "LEFT"];
               functions := {[ "f" := [SScan] ]} |} "toString"
     = Returns (Some [])
  /\ parseProgram (join (String LF EmptyString)
                     ["FUNCTION __proto__:"; "ATTACK;"; "END"])
     = None.
Proof. vm_compute. repeat split. Qed.

Lemma forallb_filter {A : Type} (Q f : A -> bool) (l : list A) :
  forallb Q l = true -> forallb Q (List.filter f l) = true.
Proof.
  induction l as [|a l IH]; [reflexivity|].
  cbn [forallb List.filter]. intros H. apply andb_true_iff in H as [Ha Hl].
  destruct (f a); [cbn [forallb]; rewrite Ha|]; exact (IH Hl).
Qed.

Lemma declare_assignsZero (ss : list Stmt) :
  forall table,
  forallb assignsZero ss = true ->
  (forall name body, table !! name = Some body ->
     forallb assignsZero body = true) ->
  forall name body, declare ss table !! name = Some body ->
  forallb assignsZero body = true.
Proof.
  induction ss as [|s ss IH]; intros table Hss Ht name body H.
  - exact (Ht name body H).
  - cbn [forallb] in Hss. apply andb_true_iff in Hss as [Hs Hss].
    destruct s as [n value|amount d|d| | |cond th el|n| |n b];
      cbn [declare] in H; try exact (IH table Hss Ht name body H).
    refine (IH _ Hss _ name body H).
    intros name' body' H'.
    destruct (decide (n = name')) as [->|Hne].
    + rewrite lookup_insert_eq in H'. injection H' as <-.
      rewrite assignsZero_function in Hs. exact Hs.
    + rewrite lookup_insert_ne in H' by exact Hne. exact (Ht name' body' H').
Qed.

Lemma tokens_assignsZero (code : string) (ss : list Stmt) :
  parseAll (parseStmt (String.length code + 5)) (tokenize code) = Some ss ->
  forallb assignsZero ss = true.
Proof.
  intros Hp. refine (parseAll_forallb _ _ _ ss _ Hp).
  intros t s Hin Hst.
  refine (parseStmt_assignsZero _ t s _ Hst).
  apply tokenShape_end.
  exact (proj1 (List.Forall_forall _ _) (tokenize_tokenShape _) t Hin).
Qed.

Lemma parseProgram_zeroCode (code : string) (prog : Program) :
  parseProgram code = Some prog -> zeroCode prog makeRuntime.
Proof.
  intros H. unfold parseProgram in H.
  destruct (assemble_parseAll _ _ _ _ H) as (ss & Hp & Hs & Hf).
  simpl in Hs, Hf.
  pose proof (tokens_assignsZero code ss Hp) as Hss.
  split; [rewrite Hs; apply forallb_filter; exact Hss|].
  split; [|constructor].
  intros name body Hb. rewrite Hf in Hb.
  refine (declare_assignsZero ss ∅ Hss _ name body Hb).
  intros n b Hn. rewrite lookup_empty in Hn. discriminate.
Qed.

Lemma assignsZero_literal (name : string) (value : Expr) :
  assignsZero (SAssign name value) = true -> value = ENumber zero.
Proof.
  cbn [assignsZero]. unfold isZeroLiteral.
  destruct value as [[[]| | |]|]; try discriminate. reflexivity.
Qed.

(** X25. Whatever the source, its tokens parse, and every assignment among
    the statements, at the top level, in a branch of an [IF] and in a
    function body at any depth, assigns the literal zero: the pattern of the
    assignment takes the closing [;] into the expression, which is then not a
    number.  So it is in the sequence and in the table of the program that
    [parseProgram] returns. *)
Theorem assignments_store_zero (code : string) :
  exists ss,
    parseAll (parseStmt (String.length code + 5)) (tokenize code) = Some ss
    /\ forallb assignsZero ss = true
    /\ (forall name value, In (SAssign name value) ss -> value = ENumber zero)
    /\ (forall prog, parseProgram code = Some prog ->
        forallb assignsZero (stmts prog) = true
        /\ (forall name body, functions prog !! name = Some body ->
            forallb assignsZero body = true)
        /\ (forall name value, In (SAssign name value) (stmts prog) ->
            value = ENumber zero)).
Proof.
  destruct (parseProgram_tokens code) as [ss Hp]. exists ss.
  pose proof (tokens_assignsZero code ss Hp) as Hss.
  split; [exact Hp|]. split; [exact Hss|]. split.
  - intros name value Hin. apply (assignsZero_literal name).
    exact (proj1 (forallb_forall _ _) Hss _ Hin).
  - intros prog H.
    destruct (parseProgram_zeroCode code prog H) as (Hs & Hf & _).
    split; [exact Hs|]. split; [exact Hf|].
    intros name value Hin. apply (assignsZero_literal name).
    exact (proj1 (forallb_forall _ _) Hs _ Hin).
Qed.

(** ** Variables of a parsed program *)

Lemma advance_stack_ok (Q : Frame.t -> Prop) (rt : Runtime) :
  (forall f, Q f -> Q (incrFrame f)) ->
  Forall Q (stack rt) -> Forall Q (stack (advance rt)).
Proof.
  intros HQ H. unfold advance. destruct (stack rt) as [|f below] eqn:E.
  - simpl. rewrite E. constructor.
  - simpl. inversion H; subst. constructor; [apply HQ|]; assumption.
Qed.

Lemma activeStmt_zero (prog : Program) (rt : Runtime) (s : Stmt) :
  zeroCode prog rt -> activeList prog rt !! activePc rt = Some s ->
  assignsZero s = true.
Proof.
  intros (Hs & _ & Hst) H. unfold activeList in H.
  assert (Hall : forallb assignsZero
                   match head (stack rt) with
                   | Some f => Frame.body f
                   | None => stmts prog
                   end = true).
  { destruct (stack rt) as [|f below]; [exact Hs|].
    inversion Hst; subst. assumption. }
  apply (proj1 (forallb_forall _ _) Hall).
  apply list_elem_of_In. exact (list_elem_of_lookup_2 _ _ _ H).
Qed.

Lemma zeroVars_insert (rt : Runtime) (name : string) (v : number) :
  zeroVars rt -> v = zero \/ (name = "ENEMY" /\ v = ofZ 1) ->
  forall rt', vars rt' = <[name := v]> (vars rt) -> zeroVars rt'.
Proof.
  intros Hz Hv rt' E n u H. rewrite E in H.
  destruct (decide (name = n)) as [->|Hne].
  - rewrite lookup_insert_eq in H. injection H as <-. exact Hv.
  - rewrite lookup_insert_ne in H by exact Hne. exact (Hz n u H).
Qed.

Lemma zeroVars_setVar (rt : Runtime) (name : string) (v : number) :
  zeroVars rt -> v = zero \/ (name = "ENEMY" /\ v = ofZ 1) ->
  zeroVars (setVar rt name v).
Proof.
  intros Hz Hv. unfold setVar. destruct (callsSetter rt name); [exact Hz|].
  apply (zeroVars_insert rt name v Hz Hv). reflexivity.
Qed.

Lemma stepProgram_zero (w : World) (prog : Program) (rt : Runtime)
  (w' : World) (rt' : Runtime) (b : bool) :
  zeroCode prog rt -> zeroVars rt ->
  stepProgram w prog rt = Returns (w', rt', b) ->
  zeroCode prog rt' /\ zeroVars rt'.
Proof.
  intros Hcode Hvars H. pose proof Hcode as (Hs & Hf & Hst).
  set (Q := fun f : Frame.t => forallb assignsZero (Frame.body f) = true) in *.
  assert (Hadv : forall r, Forall Q (stack r) -> Forall Q (stack (advance r)))
    by (intros r; apply advance_stack_ok; intros f Hq; exact Hq).
  assert (Hkeep : forall r, vars r = vars rt -> zeroVars r)
    by (intros r E n u Hu; rewrite E in Hu; exact (Hvars n u Hu)).
  assert (Hstep : forall r, stack r = stack rt -> zeroVars r ->
            zeroCode prog (advance r) /\ zeroVars (advance r)).
  { intros r Er Hr. split.
    - split; [exact Hs|]. split; [exact Hf|]. apply Hadv. rewrite Er. exact Hst.
    - intros n u Hu. rewrite (proj1 (advance_vars r)) in Hu. exact (Hr n u Hu). }
  unfold stepProgram in H.
  destruct (length (activeList prog rt) <=? activePc rt)%nat.
  - destruct (head (stack rt)) eqn:Eh; injection H as _ <- _.
    + split; [|apply Hkeep; reflexivity].
      split; [exact Hs|]. split; [exact Hf|].
      unfold pop. simpl. destruct (stack rt); [constructor|].
      inversion Hst; subst. assumption.
    + split; assumption.
  - destruct (activeList prog rt !! activePc rt) as [s|] eqn:E;
      [|discriminate].
    pose proof (activeStmt_zero prog rt s Hcode E) as Hz.
    destruct s as [name value|amount d|d| | |cond th el|name| |name body];
      [apply execStmt_assign_inv in H|simpl in H| | | |rewrite execStmt_if in H
      |apply execStmt_call_inv in H| |]; simpl in H.
    + destruct H as (rt1 & text & Ha & _ & _ & -> & _).
      rewrite (assignsZero_literal name value Hz) in Ha. simpl in Ha.
      injection Ha as <-.
      apply Hstep; [apply setVar_frame|].
      apply zeroVars_setVar; [exact Hvars|left; reflexivity].
    + destruct (tankMove w d _); simpl in H; try discriminate.
      injection H as _ <- _. apply Hstep; [reflexivity|exact Hvars].
    + injection H as _ <- _. apply Hstep; [reflexivity|exact Hvars].
    + injection H as _ <- _.
      set (rt1 := setEnemySeen rt
                    (if seen (lineOfSight (player w) (enemy w))
                     then ofZ 1 else ofZ 0)) in *.
      apply Hstep; [apply (setVar_frame rt1)|].
      apply zeroVars_setVar; [exact Hvars|].
      unfold rt1. simpl. destruct (seen _); [right; auto|left; reflexivity].
    + injection H as _ <- _. apply Hstep; [reflexivity|exact Hvars].
    + cbn [assignsZero] in Hz. apply andb_true_iff in Hz as [Hth Hel].
      unfold chosenBranch in H.
      assert (Hpush : forall s, assignsZero s = true ->
                zeroCode prog (push rt (ifFrame s))).
      { intros s Hzs. split; [exact Hs|]. split; [exact Hf|]. simpl.
        constructor; [|exact Hst]. unfold Q. simpl. rewrite Hzs. reflexivity. }
      destruct (notZero (getVal cond rt)).
      * injection H as _ <- _. split; [|apply Hkeep; reflexivity].
        apply Hpush. exact Hth.
      * destruct el as [e|]; injection H as _ <- _.
        -- split; [|apply Hkeep; reflexivity]. apply Hpush. exact Hel.
        -- apply Hstep; [reflexivity|exact Hvars].
    + destruct H as (_ & _ & [[_ ->]|(body & Hc & ->)]).
      * apply Hstep; [reflexivity|exact Hvars].
      * destruct (Hstep rt eq_refl Hvars) as [(_ & _ & Hst') Hv'].
        split; [|exact Hv'].
        split; [exact Hs|]. split; [exact Hf|]. simpl.
        constructor; [|exact Hst']. unfold Q. simpl.
        unfold callee in Hc.
        destruct (functions prog !! name) as [fb|] eqn:Eb.
        -- injection Hc as <-. exact (Hf name fb Eb).
        -- destruct (inherited name) as [[[|k]|]|]; try discriminate.
           injection Hc as <-. reflexivity.
    + injection H as _ <- _. apply Hstep; [reflexivity|exact Hvars].
    + injection H as _ <- _. apply Hstep; [reflexivity|exact Hvars].
Qed.

Lemma stepN_zero (n : nat) (prog : Program) :
  forall (w : World) (rt : Runtime) (w' : World) (rt' : Runtime),
  zeroCode prog rt -> zeroVars rt ->
  stepN n prog w rt = Returns (w', rt') ->
  zeroCode prog rt' /\ zeroVars rt'.
Proof.
  induction n as [|n IH]; intros w rt w' rt' Hc Hv H.
  - injection H as _ <-. auto.
  - rewrite stepN_S in H.
    destruct (stepProgram w prog rt) as [[[w1 rt1] b1]| | |] eqn:E;
      try discriminate.
    cbn [bind] in H.
    destruct (stepProgram_zero w prog rt w1 rt1 b1 Hc Hv E) as [Hc1 Hv1].
    exact (IH w1 rt1 w' rt' Hc1 Hv1 H).
Qed.

(** X26. Every source that does not declare [__proto__] parses to a
    program, and in a run of that program from a fresh runtime, in any world
    and after any number of steps, a variable holds zero, or one under the
    name [ENEMY] after a scan that saw the opponent: no source text makes a
    variable hold anything else.  A variable other than [ENEMY] then reads
    as zero, or under a name that [rt.vars] inherits as the inherited member,
    which is no number: either way a move by it moves nothing. *)
Theorem parsed_vars_zero (code : string) :
  exists ss,
    parseAll (parseStmt (String.length code + 5)) (tokenize code) = Some ss
    /\ (~ declaresProto ss -> exists prog, parseProgram code = Some prog)
    /\ (forall prog n w w' rt',
        parseProgram code = Some prog ->
        stepN n prog w makeRuntime = Returns (w', rt') ->
        (forall name v, vars rt' !! name = Some v ->
           v = zero \/ (name = "ENEMY" /\ v = ofZ 1))
        /\ (forall name, name <> "ENEMY" ->
            getVal (EVar name) rt' = VNumber zero
            \/ (exists m, inherited name = Some m
                          /\ getVal (EVar name) rt' = VMember m))
        /\ (forall name, name <> "ENEMY" ->
            loopCount
              (Math_max zero (Math_floor (toNumber (getVal (EVar name) rt'))))
            = Some 0%nat)).
Proof.
  destruct (parseProgram_total code) as (ss & Hss & _ & Hsome).
  exists ss. split; [exact Hss|]. split; [exact Hsome|].
  intros prog n w w' rt' Hp Hrun.
  assert (Hv0 : zeroVars makeRuntime).
  { intros name v H. simpl in H. rewrite lookup_empty in H. discriminate. }
  destruct (stepN_zero n prog w makeRuntime w' rt'
              (parseProgram_zeroCode code prog Hp) Hv0 Hrun) as [_ Hv].
  assert (Hget : forall name, name <> "ENEMY" ->
            getVal (EVar name) rt' = VNumber zero
            \/ (exists m, inherited name = Some m
                          /\ getVal (EVar name) rt' = VMember m)).
  { intros name Hne. unfold getVal, lookupVar.
    destruct (vars rt' !! name) as [v|] eqn:E.
    - destruct (Hv name v E) as [->|[-> _]]; [left; reflexivity|contradiction].
    - destruct (inherited name) as [m|]; [right; exists m|left]; auto. }
  split; [exact Hv|]. split; [exact Hget|].
  intros name Hne.
  destruct (Hget name Hne) as [->|(m & _ & ->)]; reflexivity.
Qed.

(** Two steps of the sample program, and a read of [$valueOf] after them. *)
Example parsed_vars_sample :
  exists prog w' rt',
    parseProgram scenarioSource = Some prog
    /\ stepN 2 prog makeInitialWorld makeRuntime = Returns (w', rt')
    /\ vars rt' = <["ENEMY" := zero]> (<["MOVEMENT" := zero]> ∅)
    /\ getVal (EVar "MOVEMENT") rt' = VNumber zero
    /\ getVal (EVar "OTHER") rt' = VNumber zero
    /\ getVal (EVar "valueOf") rt' = VMember (Builtin 0).
Proof.
  do 3 eexists. split; [vm_compute; reflexivity|].
  split; [vm_compute; reflexivity|]. repeat split.
Qed.

(** ** Comments *)

Lemma searchFrom_split (r : regex) (s : string) :
  forall p pv q st,
  searchFrom r p pv s = Some (q, st) ->
  exists pre s' pv',
    s = pre +:+ s' /\ q = (p + String.length pre)%nat
    /\ rmatch r {| pos := q; prev := pv'; rest := s'; caps := [] |} Some
       = Some st.
Proof.
  induction s as [|c s IH]; intros p pv q st H; cbn [searchFrom] in H.
  - destruct (rmatch r _ Some) as [st0|] eqn:E; [|discriminate].
    injection H as <- <-. exists EmptyString, EmptyString, pv.
    rewrite append_nil, Nat.add_0_r. auto.
  - destruct (rmatch r _ Some) as [st0|] eqn:E.
    + injection H as <- <-. exists EmptyString, (String c s), pv.
      rewrite append_nil, Nat.add_0_r. auto.
    + destruct (IH _ _ _ _ H) as (pre & s' & pv' & -> & -> & Hm).
      exists (String c pre), s', pv'. rewrite append_cons.
      split; [reflexivity|]. split; [simpl; lia|exact Hm].
Qed.

Lemma commentRe_starts (st res : mstate) :
  rmatch commentRe st Some = Some res ->
  exists r, rest st = String "/" (String "/" r).
Proof.
  unfold commentRe. cbn [seqs word]. rewrite !rmatch_Seq.
  unfold chr at 1. rewrite rmatch_Chr.
  destruct (rest st) as [|c1 s1]; [discriminate|].
  destruct (Ascii.eqb_spec c1 "/") as [->|]; [|discriminate].
  unfold chr at 1. rewrite rmatch_Chr. cbn [rest].
  destruct s1 as [|c2 s2]; [discriminate|].
  destruct (Ascii.eqb_spec c2 "/") as [->|]; [|discriminate].
  intros _. eauto.
Qed.

Lemma searchFrom_no_slash (s : string) :
  forall p pv,
  allChars (fun c => negb (c =? "/")%char) s = true ->
  searchFrom commentRe p pv s = None.
Proof.
  induction s as [|c s IH]; intros p pv H.
  - reflexivity.
  - simpl in H. apply andb_true_iff in H as [Hc Hs].
    apply negb_true_iff in Hc. cbn [searchFrom].
    assert (E : rmatch commentRe
                  {| pos := p; prev := pv; rest := String c s; caps := [] |}
                  Some = None).
    { unfold commentRe. cbn [seqs word]. rewrite !rmatch_Seq.
      unfold chr at 1. rewrite rmatch_Chr. cbn [rest]. rewrite Hc.
      reflexivity. }
    rewrite E. apply IH, Hs.
Qed.

Lemma map_removeFirst_noLF (ls : list string) :
  forallb noLF ls = true ->
  forallb noLF (map (removeFirst commentRe) ls) = true.
Proof.
  induction ls as [|l ls IH]; [reflexivity|].
  simpl. intros H. apply andb_true_iff in H as [Hl Hls].
  rewrite (removeFirst_comment_noLF l Hl). exact (IH Hls).
Qed.

(** X29. [stripComments] works line by line and keeps the lines apart: the
    lines of its result are the lines of the source, each with its comment
    removed.  What it removes from a line is a tail that starts with [//];
    a line without a slash is kept as it is. *)
Theorem stripComments_lines (code : string) :
  split (stripComments code) LF
  = map (removeFirst commentRe) (split code LF)
  /\ (forall l, exists tail,
        l = removeFirst commentRe l +:+ tail
        /\ (tail = EmptyString \/ exists r, tail = String "/" (String "/" r)))
  /\ (forall l, allChars (fun c => negb (c =? "/")%char) l = true ->
      removeFirst commentRe l = l).
Proof.
  split; [|split].
  - unfold stripComments. apply split_join.
    + intros H. apply map_eq_nil in H.
      exact (splitOn_nonempty code EmptyString H).
    + apply map_removeFirst_noLF. apply splitOn_noLF. reflexivity.
  - intros l. unfold removeFirst.
    destruct (exec commentRe l) as [[p st]|] eqn:E.
    + pose proof (commentRe_rest l p st E) as Hrest.
      unfold exec in E.
      destruct (searchFrom_split _ _ _ _ _ _ E)
        as (pre & s' & pv' & -> & -> & Hm).
      destruct (commentRe_starts _ _ Hm) as (r & Hr). simpl in Hr. subst s'.
      exists (String "/" (String "/" r)).
      rewrite Hrest, append_empty_r. simpl. rewrite substring_prefix.
      split; [reflexivity|]. right. eauto.
    + exists EmptyString. rewrite append_empty_r. auto.
  - intros l H. unfold removeFirst, exec.
    rewrite (searchFrom_no_slash l 0 None H). reflexivity.
Qed.

(** ** The driver *)

Lemma appendNote_length (m note : string) :
  (String.length m + String.length note
   <= String.length (appendNote m note))%nat.
Proof.
  unfold appendNote. destruct m as [|c m].
  - rewrite append_nil. simpl. lia.
  - cbn [nonEmpty]. rewrite !length_append. lia.
Qed.

Lemma appendNote_end (m note : string) :
  exists pre, appendNote m note = pre +:+ note.
Proof. unfold appendNote. eexists. reflexivity. Qed.

(** *** When a step leaves the model *)

Lemma tankMove_no_escape (w : World) (dirWord : string) (amount : number) :
  tankMove w dirWord amount <> Escapes.
Proof.
  unfold tankMove, moveVector.
  repeat match goal with
         | |- context [String.eqb ?a ?b] => destruct (String.eqb a b)
         end;
    try destruct (DIRS_at _) as [[dx dy]|]; simpl;
    try destruct (loopCount amount); discriminate.
Qed.

Lemma callee_escapes (prog : Program) (name : string) :
  callee prog name = Escapes
  <-> functions prog !! name = None
      /\ exists m, inherited name = Some m /\ m <> Builtin 0.
Proof.
  unfold callee. destruct (functions prog !! name) as [body|].
  - split; [discriminate|intros [H _]; discriminate].
  - destruct (inherited name) as [[[|k]|]|]; split.
    + discriminate.
    + intros (_ & m & Hm & Hne). congruence.
    + intros _. split; [reflexivity|]. eexists. split; [reflexivity|discriminate].
    + reflexivity.
    + intros _. split; [reflexivity|]. eexists. split; [reflexivity|discriminate].
    + reflexivity.
    + discriminate.
    + intros (_ & m & Hm & _). discriminate.
Qed.

Lemma assignVar_escapes (rt : Runtime) (k : string) (v : value) :
  assignVar rt k v = Escapes
  <-> exists m, v = VMember m
                /\ (callsSetter rt k = false \/ m <> Prototype).
Proof.
  destruct v as [n|m]; simpl.
  - split; [discriminate|intros (m & Hm & _); discriminate].
  - destruct (callsSetter rt k); [destruct m as [a|]|]; split.
    + intros _. eexists. split; [reflexivity|]. right. discriminate.
    + reflexivity.
    + discriminate.
    + intros (m & Hm & [Hc|Hne]); [discriminate|].
      injection Hm as <-. contradiction.
    + intros _. eexists. split; [reflexivity|]. left. reflexivity.
    + reflexivity.
Qed.

Lemma execStmt_escapes (w : World) (prog : Program) (rt : Runtime) (s : Stmt) :
  execStmt w prog rt s = Escapes
  <-> match s with
      | SAssign name value => assignVar rt name (getVal value rt) = Escapes
      | SCall name => callee prog name = Escapes
      | _ => False
      end.
Proof.
  destruct s as [name value|amount d|d| | |cond th el|name| |name body];
    try (split; [discriminate|contradiction]).
  - simpl.
    destruct (assignVar rt name (getVal value rt)) as [rt1| | |] eqn:Ha;
      simpl; try (split; [discriminate|discriminate]); [|tauto].
    rewrite lookupVar_advance.
    destruct (assignVar_shown rt name _ rt1 Ha) as [text ->].
    split; discriminate.
  - simpl. pose proof (tankMove_no_escape w d
      (Math_max zero (Math_floor (toNumber (getVal amount rt))))) as Hm.
    destruct (tankMove w d _); simpl; split; try discriminate;
      try contradiction.
  - rewrite execStmt_if. destruct (chosenBranch cond th el rt);
      split; [discriminate|contradiction|discriminate|contradiction].
  - simpl. destruct (callee prog name) as [[body|]| | |]; simpl;
      split; try discriminate; auto.
Qed.

(** A step leaves the model exactly when the active statement stores a
    function in a variable or calls a name under which the table inherits
    [Object.prototype] or a function that has parameters. *)
Lemma stepProgram_escapes (w : World) (prog : Program) (rt : Runtime) :
  stepProgram w prog rt = Escapes <-> leavesModel prog rt = true.
Proof.
  unfold leavesModel, activeStmt, stepProgram.
  destruct (Nat.leb_spec (length (activeList prog rt)) (activePc rt)) as [Hle|Hlt].
  - rewrite (lookup_ge_None_2 _ _ Hle).
    destruct (head (stack rt)); split; discriminate.
  - destruct (lookup_lt_is_Some_2 _ _ Hlt) as [s ->].
    rewrite execStmt_escapes.
    destruct s as [name value|amount d|d| | |cond th el|name| |name body];
      try (split; [contradiction|discriminate]).
    + destruct (assignVar rt name (getVal value rt)); split;
        try discriminate; reflexivity.
    + destruct (callee prog name); split; try discriminate; reflexivity.
Qed.

(** X27. A round of the driver from a world that satisfies the invariant and
    a runtime whose frames hold statement lists does not throw.  It leaves
    such runtimes exactly when the active statement stores an inherited
    function in a variable or calls a name under which the table inherits
    [Object.prototype] or a function with parameters (the next step of the
    code then finds no statement in the frame).  When the round returns, the
    invariant holds again, the tick has grown by one, the actor has lost 15
    health at most and the opponent 40 at most, neither has gained any, the
    runtime is the one [stepProgram] left, and the message ends with the note
    of defeat when the actor is dead, and with the note of victory when only
    the opponent is. *)
Theorem stepOnce_round (w : World) (prog : Program) (rt : Runtime) :
  worldOk w ->
  stepOnce w prog rt <> Throws
  /\ (stepOnce w prog rt = Escapes <-> leavesModel prog rt = true)
  /\ (forall w' rt', stepOnce w prog rt = Returns (w', rt') ->
      worldOk w'
      /\ tick w' = tick w + 1
      /\ hp (player w) - 15 <= hp (player w') <= hp (player w)
      /\ hp (enemy w) - 40 <= hp (enemy w') <= hp (enemy w)
      /\ (exists w1 b, stepProgram w prog rt = Returns (w1, rt', b))
      /\ (hp (player w') <= 0 ->
          exists pre, message w' = pre +:+ "You were destroyed.")
      /\ (0 < hp (player w') -> hp (enemy w') <= 0 ->
          exists pre, message w' = pre +:+ "Enemy destroyed!")).
Proof.
  intros Hw. rewrite <- (stepProgram_escapes w prog rt). unfold stepOnce.
  destruct (stepProgram w prog rt) as [[[w1 rt1] b]| | |] eqn:E1; cbn [bind].
  - pose proof (stepProgram_ok w prog rt w1 rt1 b Hw E1) as Hw1.
    destruct (stepProgram_effect w prog rt w1 rt1 b E1) as (Hh1 & Ht1 & He1).
    destruct (enemyStep_returns w1) as (w2 & E2). rewrite E2. cbn [bind].
    pose proof (enemyStep_ok w1 w2 Hw1 E2) as Hw2.
    destruct (enemyStep_effect w1 w2 E2) as (Ht2 & He2).
    cbv zeta.
    set (w3 := setTick w2 (tick w2 + 1)).
    set (w4 := if hp (enemy w3) <=? 0
               then setMessage w3 (appendNote (message w3) "Enemy destroyed!")
               else w3).
    set (w5 := if hp (player w4) <=? 0
               then setMessage w4
                      (appendNote (message w4) "You were destroyed.")
               else w4).
    assert (H4 : player w4 = player w2 /\ enemy w4 = enemy w2
                 /\ tick w4 = tick w2 + 1).
    { unfold w4. destruct (hp (enemy w3) <=? 0); simpl; auto. }
    destruct H4 as (Hp4 & He4 & Ht4).
    assert (H5 : player w5 = player w2 /\ enemy w5 = enemy w2
                 /\ tick w5 = tick w2 + 1).
    { unfold w5. destruct (hp (player w4) <=? 0); simpl; auto. }
    destruct H5 as (Hp5 & He5 & Ht5).
    split; [discriminate|]. split; [split; discriminate|].
    intros w' rt' H. injection H as <- <-.
    destruct Hw as [(_ & _ & Hph & _) (_ & _ & Heh & _)].
    assert (Hhp : hp (player w) - 15 <= hp (player w2) <= hp (player w)
                  /\ hp (enemy w) - 40 <= hp (enemy w2) <= hp (enemy w)).
    { assert (Hen : hp (enemy w) - 40 <= hp (enemy w1) <= hp (enemy w)).
      { destruct He1 as [->|(_ & _ & ->)]; simpl; lia. }
      destruct He2 as [->|[(_ & _ & He & Hp & _)|(_ & _ & Hp & _ & He)]].
      - lia.
      - rewrite He, Hp. simpl. lia.
      - rewrite Hp, He. unfold advanceAlong.
        destruct (DIRS_at (chaseFacing w1)) as [[dx dy]|]; simpl; lia. }
    split; [destruct Hw2 as [Hq1 Hq2]; split; [rewrite Hp5|rewrite He5]; assumption|].
    split; [rewrite Ht5; lia|].
    split; [rewrite Hp5; lia|]. split; [rewrite He5; lia|].
    split; [eauto|]. split.
    + intros Hdead. rewrite Hp5, <- Hp4 in Hdead. apply Z.leb_le in Hdead.
      unfold w5. rewrite Hdead. apply appendNote_end.
    + intros Halive Hedead. rewrite Hp5, <- Hp4 in Halive.
      apply Z.leb_gt in Halive. unfold w5. rewrite Halive.
      rewrite He5 in Hedead. apply Z.leb_le in Hedead.
      unfold w4. change (enemy w3) with (enemy w2). rewrite Hedead.
      apply appendNote_end.
  - exfalso. exact (stepProgram_no_throw w prog rt Hw E1).
  - split; [discriminate|]. split; [split; discriminate|discriminate].
  - split; [discriminate|]. split; [split; reflexivity|discriminate].
Qed.

(** X27 in the initial world. *)
Lemma stepOnce_round_witness :
  stepOnce makeInitialWorld moveLeftProgram makeRuntime <> Throws
  /\ (stepOnce makeInitialWorld moveLeftProgram makeRuntime = Escapes
      <-> leavesModel moveLeftProgram makeRuntime = true)
  /\ (forall w' rt',
      stepOnce makeInitialWorld moveLeftProgram makeRuntime
      = Returns (w', rt') ->
      worldOk w'
      /\ tick w' = tick makeInitialWorld + 1
      /\ hp (player makeInitialWorld) - 15 <= hp (player w')
         <= hp (player makeInitialWorld)
      /\ hp (enemy makeInitialWorld) - 40 <= hp (enemy w')
         <= hp (enemy makeInitialWorld)
      /\ (exists w1 b,
            stepProgram makeInitialWorld moveLeftProgram makeRuntime
            = Returns (w1, rt', b))
      /\ (hp (player w') <= 0 ->
          exists pre, message w' = pre +:+ "You were destroyed.")
      /\ (0 < hp (player w') -> hp (enemy w') <= 0 ->
          exists pre, message w' = pre +:+ "Enemy destroyed!")).
Proof.
  apply (stepOnce_round makeInitialWorld moveLeftProgram makeRuntime).
  unfold worldOk, tankOk, makeInitialWorld, GRID. simpl. lia.
Defined.

(** The program [CALL constructor;] leaves the model at its first round,
    [CALL toString;] does not. *)
Example stepOnce_inherited :
  stepOnce makeInitialWorld
    {| stmts := [SCall "constructor"]; functions := ∅ |} makeRuntime
  = Escapes
  /\ exists w' rt',
       stepOnce makeInitialWorld
         {| stmts := [SCall "toString"]; functions := ∅ |} makeRuntime
       = Returns (w', rt')
       /\ stack rt' = [frameAt "toString" 0 []] /\ pc rt' = 1%nat.
Proof.
  split; [reflexivity|]. do 2 eexists. split; [vm_compute; reflexivity|].
  split; reflexivity.
Qed.

Lemma stepOnce_over (w : World) (prog : Program) (rt : Runtime) :
  stack rt = [] -> (length (stmts prog) <= pc rt)%nat ->
  hp (enemy w) <= 0 -> 0 < hp (player w) ->
  stepOnce w prog rt
  = Returns (setMessage (setTick w (tick w + 1))
               (appendNote (message w) "Enemy destroyed!"), rt).
Proof.
  intros Hs Hpc He Hp. unfold stepOnce.
  rewrite (stepProgram_finished w prog rt Hs Hpc). cbn [bind].
  unfold enemyStep. apply Z.leb_le in He. rewrite He. cbn [bind].
  cbn [setTick enemy hp]. rewrite He. cbn [setMessage player].
  cbn [setTick player]. apply Z.leb_gt in Hp. rewrite Hp. reflexivity.
Qed.

(** X28. Once the program is finished and the opponent destroyed, with the
    actor alive, a round changes the tick and the message only, and each
    round appends the note of victory to the message once more: after [n]
    rounds the message is [16 * n] characters longer at least. *)
Theorem stepOnce_game_over (w : World) (prog : Program) (rt : Runtime)
  (n : nat) :
  stack rt = [] -> (length (stmts prog) <= pc rt)%nat ->
  hp (enemy w) <= 0 -> 0 < hp (player w) ->
  stepOnce w prog rt
  = Returns (setMessage (setTick w (tick w + 1))
               (appendNote (message w) "Enemy destroyed!"), rt)
  /\ exists w',
       stepOnceN n w prog rt = Returns (w', rt)
       /\ player w' = player w /\ enemy w' = enemy w
       /\ tick w' = tick w + Z.of_nat n
       /\ (String.length (message w) + 16 * n
           <= String.length (message w'))%nat.
Proof.
  intros Hs Hpc He Hp. split; [exact (stepOnce_over w prog rt Hs Hpc He Hp)|].
  revert w He Hp. induction n as [|n IH]; intros w He Hp.
  - exists w. split; [reflexivity|]. repeat split; lia.
  - cbn [stepOnceN]. rewrite (stepOnce_over w prog rt Hs Hpc He Hp).
    cbn [bind].
    set (w1 := setMessage (setTick w (tick w + 1))
                 (appendNote (message w) "Enemy destroyed!")).
    destruct (IH w1 He Hp) as (w' & Hrun & Hpl & Hen & Ht & Hlen).
    exists w'. split; [exact Hrun|]. split; [exact Hpl|]. split; [exact Hen|].
    split; [rewrite Ht; simpl; lia|].
    pose proof (appendNote_length (message w) "Enemy destroyed!") as Hn.
    unfold w1 in Hlen. cbn [message setMessage] in Hlen.
    change (String.length "Enemy destroyed!") with 16%nat in Hn. lia.
Qed.

(** X28 for three rounds in [wonWorld]. *)
Lemma stepOnce_game_over_witness :
  stepOnce wonWorld moveLeftProgram (setPc makeRuntime 1)
  = Returns (setMessage (setTick wonWorld (tick wonWorld + 1))
               (appendNote (message wonWorld) "Enemy destroyed!"),
             setPc makeRuntime 1)
  /\ exists w',
       stepOnceN 3 wonWorld moveLeftProgram (setPc makeRuntime 1)
       = Returns (w', setPc makeRuntime 1)
       /\ player w' = player wonWorld /\ enemy w' = enemy wonWorld
       /\ tick w' = tick wonWorld + Z.of_nat 3
       /\ (String.length (message wonWorld) + 16 * 3
           <= String.length (message w'))%nat.
Proof.
  apply (stepOnce_game_over wonWorld moveLeftProgram (setPc makeRuntime 1) 3).
  - reflexivity.
  - simpl. lia.
  - simpl. lia.
  - simpl. lia.
Defined.
